(** * GalAirport: the metadata-matching and import pipeline

    A shallow embedding of the TypeScript sources of the library manager
    (catalog client [lib/vndb.ts], translation gateway [lib/deepseek.ts],
    persistence layer [lib/database.ts], the scan/import dialog and the
    single-game match dialog), followed by the properties the specification
    states about them.

    Conventions of the embedding.
    - A JavaScript string is the list of its UTF-16 code units ([list N]);
      [lit] turns an ASCII literal of the source into such a list, and
      non-ASCII literals of the source are written out code unit by code unit.
    - A JavaScript [number] that arrives in a catalog response is modelled by
      the rational value it denotes ([Qc]); the code only compares such
      numbers, and the sign of [b - a] on finite doubles is the sign of the
      exact difference.  Durations and counters are integers ([Z]).
    - [null]/[undefined] is [None].
    - An awaited call into a collaborator (network, backend command) is an
      outcome [Ok v] or [Err e], where [e] is the text of the exception. *)

From Stdlib Require Import ZArith NArith QArith Qcanon List String Ascii.
From stdpp Require Import base numbers option list gmap fin_maps strings sorting pretty.

Local Open Scope N_scope.
Local Open Scope list_scope.

(** ** JavaScript strings *)

Module Js.

Abbreviation jsstring := (list N).

(** An ASCII literal of the source as a list of code units. *)
Definition lit (s : string) : jsstring :=
  (fun a : ascii => N_of_ascii a) <$> list_ascii_of_string s.

(** Truthiness of a string: every string except the empty one. *)
Definition truthy (s : jsstring) : bool :=
  match s with [] => false | _ :: _ => true end.

(** [a || b] on strings. *)
Definition or_else (a b : jsstring) : jsstring :=
  if truthy a then a else b.

(** [a || b] where [a] may be [null] or [undefined]. *)
Definition opt_or_else (a : option jsstring) (b : jsstring) : jsstring :=
  match a with Some s => or_else s b | None => b end.

(** WhiteSpace and LineTerminator code points of ECMAScript, the ones
    [String.prototype.trim] removes. *)
Definition is_white (c : N) : bool :=
  existsb (N.eqb c)
    [9; 10; 11; 12; 13; 32; 160; 5760; 8232; 8233; 8239; 8287; 12288; 65279]
  || ((8192 <=? c) && (c <=? 8202)).

Fixpoint trimStart (s : jsstring) : jsstring :=
  match s with
  | c :: s' => if is_white c then trimStart s' else s
  | [] => []
  end.

Definition trimEnd (s : jsstring) : jsstring := rev (trimStart (rev s)).

Definition trim (s : jsstring) : jsstring := trimEnd (trimStart s).

(** [xs.join(sep)] on an array of strings. *)
Fixpoint join (sep : jsstring) (xs : list jsstring) : jsstring :=
  match xs with
  | [] => []
  | [x] => x
  | x :: xs' => x ++ sep ++ join sep xs'
  end.

(** [s.split(".").pop()]: the segment after the last full stop (the whole
    string when it has none). *)
Fixpoint last_segment (acc s : jsstring) : jsstring :=
  match s with
  | [] => acc
  | c :: s' => if c =? 46 then last_segment [] s' else last_segment (acc ++ [c]) s'
  end.

(** [arr.slice(0, n)] for an integer [n]: a negative end counts from the
    end of the array. *)
Definition slice0 {A} (n : Z) (l : list A) : list A :=
  if (n <? 0)%Z then take (Z.to_nat (Z.of_nat (length l) + n)) l
  else take (Z.to_nat n) l.

(** [arr.find(p)]. *)
Definition find {A} (p : A -> bool) (l : list A) : option A := List.find p l.

(** [arr.sort(cmp)]: the sort is stable, and [after a b] says that the
    comparator puts [a] after [b] ([cmp(a, b) > 0]).  Insertion from the
    right keeps equal elements in their original order. *)
Fixpoint sort_insert {A} (after : A -> A -> bool) (x : A) (l : list A) : list A :=
  match l with
  | [] => [x]
  | y :: l' => if after x y then y :: sort_insert after x l' else x :: y :: l'
  end.

Fixpoint sort {A} (after : A -> A -> bool) (l : list A) : list A :=
  match l with
  | [] => []
  | x :: l' => sort_insert after x (sort after l')
  end.

(** The outcome of an awaited call. *)
Inductive Result (A : Type) : Type :=
| Ok (v : A)
| Err (e : jsstring).
Arguments Ok {A} v.
Arguments Err {A} e.

End Js.

Import Js.

(** ** The catalog client, [lib/vndb.ts] *)

Module Vndb.

Record VndbTitle := {
  t_lang : jsstring;
  t_title : jsstring;
  t_latin : option jsstring;
  t_official : bool;
  t_main : bool
}.

Record VndbImage := {
  img_id : jsstring;
  img_url : jsstring;
  img_dims : Z * Z;
  img_sexual : Qc;
  img_violence : Qc
}.

Record VndbTag := {
  tag_id : jsstring;
  tag_name : jsstring;
  tag_rating : Qc;
  tag_spoiler : Qc;
  tag_category : jsstring
}.

Record VndbProducer := {
  prod_id : jsstring;
  prod_name : jsstring;
  prod_original : option jsstring
}.

Record VndbVn := {
  vn_id : jsstring;
  vn_title : jsstring;
  vn_alttitle : option jsstring;
  vn_titles : list VndbTitle;
  vn_released : option jsstring;
  vn_image : option VndbImage;
  vn_screenshots : list VndbImage;
  vn_olang : jsstring;
  vn_languages : list jsstring;
  vn_platforms : list jsstring;
  vn_rating : option Qc;
  vn_votecount : Z;
  vn_length_minutes : option Z;
  vn_description : option jsstring;
  vn_tags : list VndbTag;
  vn_developers : list VndbProducer
}.

(** Equality of strings as a boolean ([===]). *)
Definition str_eqb (a b : jsstring) : bool := bool_decide (a = b).

(** ["zh-Hans"], ["zh-Hant"], ["zh"]. *)
Definition LANG_PRIORITY : list jsstring :=
  [lit "zh-Hans"; lit "zh-Hant"; lit "zh"].

(** The loop of [pickChineseTitle] over a list of languages. *)
Fixpoint pickTitleIn (langs : list jsstring) (titles : list VndbTitle)
  : option jsstring :=
  match langs with
  | [] => None
  | lang :: langs' =>
      match find (fun t => str_eqb (t_lang t) lang) titles with
      | Some found => Some (t_title found)
      | None => pickTitleIn langs' titles
      end
  end.

Definition pickChineseTitle (titles : list VndbTitle) : option jsstring :=
  pickTitleIn LANG_PRIORITY titles.

Definition pickDisplayTitle (vn : VndbVn) : jsstring :=
  opt_or_else (pickChineseTitle (vn_titles vn)) (vn_title vn).

Definition pickOriginalTitle (vn : VndbVn) : jsstring :=
  match find (fun t => str_eqb (t_lang t) (lit "ja")) (vn_titles vn) with
  | Some ja => t_title ja
  | None =>
      match vn_alttitle vn with
      | Some (c :: alt) => c :: alt
      | _ =>
          match find t_main (vn_titles vn) with
          | Some main => t_title main
          | None => []
          end
      end
  end.

(** The filter of [extractTags]. *)
Definition tag_kept (maxSpoiler : Qc) (t : VndbTag) : bool :=
  bool_decide (tag_spoiler t ≤ maxSpoiler)%Qc
  && negb (str_eqb (tag_category t) (lit "ero"))
  && bool_decide (Q2Qc (3 # 2) ≤ tag_rating t)%Qc.

(** The comparator [(a, b) => b.rating - a.rating] is positive exactly when
    [a.rating < b.rating]. *)
Definition rating_after (a b : VndbTag) : bool :=
  bool_decide (tag_rating a < tag_rating b)%Qc.

Definition extractTags (tags : list VndbTag) (maxSpoiler : Qc) (maxCount : Z)
  : list jsstring :=
  tag_name <$> slice0 maxCount (sort rating_after (filter (fun t => tag_kept maxSpoiler t = true) tags)).

(** [extractTags(tags)] with the default arguments [maxSpoiler = 0] and
    [maxCount = 8]. *)
Definition extractTags_default (tags : list VndbTag) : list jsstring :=
  extractTags tags (Q2Qc 0) 8%Z.

Definition formatVndbDate (date : option jsstring) : jsstring :=
  match date with
  | None => []
  | Some d => if truthy d && negb (str_eqb d (lit "TBA")) then d else []
  end.

End Vndb.

(** ** Regular expressions

    The six patterns of the markup cleaners, run by a backtracking matcher in
    continuation-passing style: a matcher is handed the rest of the input and
    the groups captured so far, and a continuation that may fail and so force
    it to try its next alternative.  The fragment is the one the source uses:
    literal text, a starred character class (greedy or lazy), concatenation
    and capturing groups that are not nested. *)

Module Regex.

Inductive re : Type :=
| Lit (p : jsstring)
| StarG (cls : N -> bool)
| StarL (cls : N -> bool)
| Cat (r1 r2 : re)
| Grp (r : re).

(** Canonicalisation under the [i] flag (without [u]): a character is
    compared by its upper case, and a character outside ASCII never
    canonicalises to an ASCII one, so against an ASCII pattern only the
    ASCII letters fold. *)
Definition canon (c : N) : N :=
  if (97 <=? c) && (c <=? 122) then c - 32 else c.

Definition chr_eqb (ci : bool) (p c : N) : bool :=
  if ci then canon p =? canon c else p =? c.

Fixpoint m_lit (ci : bool) (p s : jsstring) : option jsstring :=
  match p with
  | [] => Some s
  | a :: p' =>
      match s with
      | c :: s' => if chr_eqb ci a c then m_lit ci p' s' else None
      | [] => None
      end
  end.

(** [cls*]: take as many characters as the class allows, and give them
    back one at a time while the continuation fails. *)
Fixpoint m_starG {R} (cls : N -> bool) (s : jsstring)
    (k : jsstring -> option R) : option R :=
  match s with
  | c :: s' =>
      if cls c then
        match m_starG cls s' k with
        | Some r => Some r
        | None => k s
        end
      else k s
  | [] => k s
  end.

(** [cls*?]: take as few characters as possible, one more each time the
    continuation fails. *)
Fixpoint m_starL {R} (cls : N -> bool) (s : jsstring)
    (k : jsstring -> option R) : option R :=
  match k s with
  | Some r => Some r
  | None =>
      match s with
      | c :: s' => if cls c then m_starL cls s' k else None
      | [] => None
      end
  end.

Fixpoint run {R} (ci : bool) (r : re) (s : jsstring) (caps : list jsstring)
    (k : jsstring -> list jsstring -> option R) : option R :=
  match r with
  | Lit p =>
      match m_lit ci p s with
      | Some s' => k s' caps
      | None => None
      end
  | StarG cls => m_starG cls s (fun s' => k s' caps)
  | StarL cls => m_starL cls s (fun s' => k s' caps)
  | Cat r1 r2 => run ci r1 s caps (fun s' caps' => run ci r2 s' caps' k)
  | Grp r1 =>
      run ci r1 s caps
        (fun s' caps' => k s' (caps' ++ [take (length s - length s') s]))
  end.

(** A match that starts at the first character of [s]: the captured groups
    and the input left after the match. *)
Definition exec (ci : bool) (r : re) (s : jsstring)
  : option (list jsstring * jsstring) :=
  run ci r s [] (fun s' caps => Some (caps, s')).

(** [$n] in a replacement string. *)
Definition group (n : nat) (caps : list jsstring) : jsstring :=
  nth (pred n) caps [].

(** [s.replace(/r/g, sub)]: scan from the left; at a match emit the
    replacement and resume after the match, else emit the character.
    [skip] counts the characters of the current match still to pass over.
    An empty match emits the replacement and moves on by one character. *)
Fixpoint replace_go (ci : bool) (r : re) (sub : list jsstring -> jsstring)
    (skip : nat) (s : jsstring) : jsstring :=
  match s with
  | [] =>
      match skip, exec ci r [] with
      | O, Some (caps, _) => sub caps
      | _, _ => []
      end
  | c :: s' =>
      match skip with
      | S n => replace_go ci r sub n s'
      | O =>
          match exec ci r s with
          | Some (caps, rest) =>
              if (length rest <? length s)%nat
              then sub caps ++ replace_go ci r sub (length s' - length rest) s'
              else sub caps ++ c :: replace_go ci r sub 0 s'
          | None => c :: replace_go ci r sub 0 s'
          end
      end
  end.

Definition replaceAll (ci : bool) (r : re) (sub : list jsstring -> jsstring)
    (s : jsstring) : jsstring :=
  replace_go ci r sub 0 s.

End Regex.

(** ** Markup cleaning, [cleanDescription] of [lib/vndb.ts] and
    [cleanVndbMarkup] of [lib/deepseek.ts] *)

Module Markup.
Import Regex.

Local Infix "⋅" := Cat (at level 60, right associativity).

(** [[^\]]], [[^\[]] and [[\s\S]]. *)
Definition not_rbracket (c : N) : bool := negb (c =? 93).
Definition not_lbracket (c : N) : bool := negb (c =? 91).
Definition any_char (c : N) : bool := true.

(** [/\[url=( [^\]]* )\]( [^\[]* )\[\/url\]/g] (the groups are spaced out here) *)
Definition re_url : re :=
  Lit (lit "[url=") ⋅ Grp (StarG not_rbracket) ⋅ Lit (lit "]")
    ⋅ Grp (StarG not_lbracket) ⋅ Lit (lit "[/url]").

(** [/\[spoiler\][\s\S]*?\[\/spoiler\]/g] *)
Definition re_spoiler : re :=
  Lit (lit "[spoiler]") ⋅ StarL any_char ⋅ Lit (lit "[/spoiler]").

(** [/\[raw\]( [\s\S]*? )\[\/raw\]/g] *)
Definition re_raw : re :=
  Lit (lit "[raw]") ⋅ Grp (StarL any_char) ⋅ Lit (lit "[/raw]").

(** [/\[code\]( [\s\S]*? )\[\/code\]/g] *)
Definition re_code : re :=
  Lit (lit "[code]") ⋅ Grp (StarL any_char) ⋅ Lit (lit "[/code]").

(** [/\[Edited from [^\]]*\]/gi] *)
Definition re_edited : re :=
  Lit (lit "[Edited from ") ⋅ StarG not_rbracket ⋅ Lit (lit "]").

(** [/\[From [^\]]*\]/gi] *)
Definition re_from : re :=
  Lit (lit "[From ") ⋅ StarG not_rbracket ⋅ Lit (lit "]").

(** The placeholder the display cleaner puts where a spoiler block was:
    an opening bracket, the seven ideographs U+5267 U+900F U+5185 U+5BB9
    U+5DF2 U+9690 U+85CF, a closing bracket. *)
Definition hidden_marker : jsstring :=
  [91; 21095; 36879; 20869; 23481; 24050; 38544; 34255; 93].

(** The chain of replacements both cleaners share; [spoiler] is what a
    spoiler block is replaced with. *)
Definition clean_with (spoiler : jsstring) (text : jsstring) : jsstring :=
  trim
    (replaceAll true re_from (fun _ => [])
      (replaceAll true re_edited (fun _ => [])
        (replaceAll false re_code (group 1)
          (replaceAll false re_raw (group 1)
            (replaceAll false re_spoiler (fun _ => spoiler)
              (replaceAll false re_url (group 2) text)))))).

(** [cleanDescription], the display cleaner of [lib/vndb.ts]. *)
Definition cleanDescription (desc : option jsstring) : jsstring :=
  match desc with
  | None | Some [] => []
  | Some d => clean_with hidden_marker d
  end.

(** [cleanVndbMarkup], the cleaner [translateDescription] runs before it
    sends a description to the translator. *)
Definition cleanVndbMarkup (text : jsstring) : jsstring :=
  clean_with [] text.

End Markup.

(** ** Shared types, [types/game.ts] *)

Module Game.

Inductive PlayStatus := unplayed | playing | finished | shelved.

Record DetectedGame := {
  d_title : jsstring;
  d_exe_path : jsstring;
  d_install_path : jsstring;
  d_engine : option jsstring
}.

(** [GameFormData].  The two fields the import dialog leaves out of the
    object it builds are optional here. *)
Record GameFormData := {
  title : jsstring;
  title_original : jsstring;
  vndb_id : jsstring;
  developer : jsstring;
  release_date : jsstring;
  exe_path : jsstring;
  install_path : jsstring;
  save_path : jsstring;
  cover_path : jsstring;
  screenshots : list jsstring;
  tags : list jsstring;
  play_status : PlayStatus;
  rating : Qc;
  vndb_rating : Qc;
  vndb_votecount : option Z;
  length_minutes : option Z;
  notes : jsstring;
  engine : jsstring
}.

(** The keys of [GameFormData], for [Partial<GameFormData>]. *)
Inductive FormKey :=
| k_title | k_title_original | k_vndb_id | k_developer | k_release_date
| k_exe_path | k_install_path | k_save_path | k_cover_path | k_screenshots
| k_tags | k_play_status | k_rating | k_vndb_rating | k_vndb_votecount
| k_length_minutes | k_notes | k_engine.

Definition key_name (k : FormKey) : string :=
  match k with
  | k_title => "title" | k_title_original => "title_original"
  | k_vndb_id => "vndb_id" | k_developer => "developer"
  | k_release_date => "release_date" | k_exe_path => "exe_path"
  | k_install_path => "install_path" | k_save_path => "save_path"
  | k_cover_path => "cover_path" | k_screenshots => "screenshots"
  | k_tags => "tags" | k_play_status => "play_status"
  | k_rating => "rating" | k_vndb_rating => "vndb_rating"
  | k_vndb_votecount => "vndb_votecount"
  | k_length_minutes => "length_minutes" | k_notes => "notes"
  | k_engine => "engine"
  end%string.

(** The value of one property of a form object. *)
Inductive FormValue :=
| FvUndefined
| FvStr (s : jsstring)
| FvNum (q : Qc)
| FvList (l : list jsstring).

Definition status_text (p : PlayStatus) : jsstring :=
  match p with
  | unplayed => lit "unplayed"
  | playing => lit "playing"
  | finished => lit "finished"
  | shelved => lit "shelved"
  end.

End Game.

(** ** The persistence layer, [lib/database.ts] *)

Module Database.
Import Game.

Inductive SqlValue :=
| SqlNull
| SqlInt (n : Z)
| SqlReal (q : Qc)
| SqlText (s : jsstring).

(** [a + b] of SQL on numeric values. *)
Definition sql_add (a b : SqlValue) : SqlValue :=
  match a, b with
  | SqlInt x, SqlInt y => SqlInt (x + y)
  | SqlInt x, SqlReal y => SqlReal (Qc_of_Z x + y)
  | SqlReal x, SqlInt y => SqlReal (x + Qc_of_Z y)
  | SqlReal x, SqlReal y => SqlReal (x + y)
  | _, _ => SqlNull
  end.

(** A row of [play_sessions]. *)
Record Session := {
  s_id : jsstring;
  s_game_id : jsstring;
  s_start_time : jsstring;
  s_end_time : jsstring;
  s_duration : Z
}.

(** The four tables.  A row of [games] maps a column name to its value;
    [games], [settings] and [tag_translations] are keyed by their primary
    key, and [play_sessions] lists its rows in insertion order. *)
Record Db := {
  games : gmap jsstring (gmap string SqlValue);
  play_sessions : list Session;
  settings : gmap jsstring jsstring;
  tag_translations : gmap jsstring jsstring
}.

Definition set_games (g : gmap jsstring (gmap string SqlValue)) (d : Db) : Db :=
  {| games := g; play_sessions := play_sessions d;
     settings := settings d; tag_translations := tag_translations d |}.

Definition set_play_sessions (p : list Session) (d : Db) : Db :=
  {| games := games d; play_sessions := p;
     settings := settings d; tag_translations := tag_translations d |}.

Definition set_tag_translations (t : gmap jsstring jsstring) (d : Db) : Db :=
  {| games := games d; play_sessions := play_sessions d;
     settings := settings d; tag_translations := t |}.

Section Games.
(** [JSON.stringify] on an array of strings. *)
Variable stringify : list jsstring -> jsstring.
(** Whether the connection enforces the foreign key of [play_sessions]
    ([PRAGMA foreign_keys]). *)
Variable foreign_keys : bool.

(** [addGame(data)] with the identifier [id] drawn by [generateId] and
    the clock reading [now].  The [INSERT] fails on a primary key that is
    taken, and the exception leaves the tables as they were. *)
Definition addGame (id now : jsstring) (data : GameFormData) (d : Db) : Db :=
  match games d !! id with
  | Some _ => d
  | None =>
      let row : gmap string SqlValue :=
        list_to_map
          [ ("id", SqlText id);
            ("title", SqlText (title data));
            ("title_original", SqlText (title_original data));
            ("vndb_id", SqlText (or_else (vndb_id data) []));
            ("developer", SqlText (developer data));
            ("release_date", SqlText (release_date data));
            ("exe_path", SqlText (exe_path data));
            ("install_path", SqlText (install_path data));
            ("save_path", SqlText (save_path data));
            ("cover_path", SqlText (cover_path data));
            ("screenshots", SqlText (stringify (screenshots data)));
            ("tags", SqlText (stringify (tags data)));
            ("play_status", SqlText (status_text (play_status data)));
            ("rating", SqlReal (rating data));
            ("vndb_rating", SqlReal (vndb_rating data));
            ("vndb_votecount", SqlInt (default 0%Z (vndb_votecount data)));
            ("length_minutes", SqlInt (default 0%Z (length_minutes data)));
            ("notes", SqlText (notes data));
            ("engine", SqlText (engine data));
            ("total_playtime", SqlInt 0);
            ("created_at", SqlText now);
            ("updated_at", SqlText now) ]%string
      in set_games (<[id := row]> (games d)) d
  end.

(** The value bound to a column by [updateGame]: the array-valued
    properties (under the typing of [GameFormData] these are exactly
    [tags] and [screenshots]) go through [JSON.stringify]. *)
Definition dbValue (k : FormKey) (v : FormValue) : SqlValue :=
  match v with
  | FvUndefined => SqlNull
  | FvStr s => SqlText s
  | FvNum q => SqlReal q
  | FvList l => SqlText (stringify l)
  end.

(** The [SET] list of [updateGame]: one assignment per property of
    [data] that is not [undefined], then [updated_at]. *)
Definition apply_sets (data : list (FormKey * FormValue)) (now : jsstring)
    (row : gmap string SqlValue) : gmap string SqlValue :=
  <["updated_at"%string := SqlText now]>
    (foldl (fun r kv =>
              match kv.2 with
              | FvUndefined => r
              | v => <[key_name kv.1 := dbValue kv.1 v]> r
              end) row data).

Definition updateGame (id : jsstring) (data : list (FormKey * FormValue))
    (now : jsstring) (d : Db) : Db :=
  match games d !! id with
  | Some row => set_games (<[id := apply_sets data now row]> (games d)) d
  | None => d
  end.

(** [deleteGame(id)]; the sessions of the game go with it when the
    foreign key is enforced ([ON DELETE CASCADE]). *)
Definition deleteGame (id : jsstring) (d : Db) : Db :=
  let d' := set_games (delete id (games d)) d in
  if foreign_keys
  then set_play_sessions
         (filter (fun s => s_game_id s ≠ id) (play_sessions d)) d'
  else d'.

(** [addPlaySession(gameId, startTime, endTime, duration)] with the row
    identifier [id] drawn by [crypto.randomUUID] and the clock reading
    [now]: the [INSERT], then the [UPDATE] of the owning game.  A failing
    [INSERT] (identifier taken, or no such game under an enforced foreign
    key) raises before the [UPDATE] is reached. *)
Definition addPlaySession (id now gameId startTime endTime : jsstring)
    (duration : Z) (d : Db) : Db :=
  if bool_decide (id ∈ s_id <$> play_sessions d)
     || (foreign_keys && bool_decide (games d !! gameId = None))
  then d
  else
    let d1 :=
      set_play_sessions
        (play_sessions d ++
           [{| s_id := id; s_game_id := gameId; s_start_time := startTime;
               s_end_time := endTime; s_duration := duration |}]) d in
    match games d1 !! gameId with
    | Some row =>
        let row' :=
          <["updated_at"%string := SqlText now]>
            (<["total_playtime"%string :=
                 sql_add (default SqlNull (row !! "total_playtime"%string))
                         (SqlInt duration)]> row) in
        set_games (<[gameId := row']> (games d1)) d1
    | None => d1
    end.

(** [rowToGame(row).total_playtime] of [getGameById(id)]. *)
Definition total_playtime (id : jsstring) (d : Db) : option SqlValue :=
  row ← games d !! id; row !! "total_playtime"%string.

End Games.

(** [getSetting(key)]. *)
Definition getSetting (key : jsstring) (d : Db) : jsstring :=
  default [] (settings d !! key).

(** [getTagTranslations(tags)]: the rows whose key is one of [tags], as a
    map. *)
Definition getTagTranslations (tags : list jsstring) (d : Db)
  : gmap jsstring jsstring :=
  match tags with
  | [] => ∅
  | _ => filter (fun kv => kv.1 ∈ tags) (tag_translations d)
  end.

(** [setTagTranslations(pairs)]: one upsert per pair, in order. *)
Definition setTagTranslations (pairs : list (jsstring * jsstring)) (d : Db) : Db :=
  set_tag_translations
    (foldl (fun t p => <[p.1 := p.2]> t) (tag_translations d) pairs) d.

End Database.

(** ** The translation gateway, [lib/deepseek.ts] *)

Module Deepseek.
Import Database.

(** What one call of [translateTags] returns and leaves behind: the
    returned array, the tables, and the batches it sent to the external
    translator. *)
Record Outcome := {
  returned : list jsstring;
  db_after : Db;
  calls : list (list jsstring)
}.

Section Gateway.
(** The backend command [deepseek_translate_tags], given the credential
    and the batch. *)
Variable translate : jsstring -> list jsstring -> Result (list jsstring).

(** [tags.map((t) => cached.get(t) || t)]. *)
Definition resolve (cached : gmap jsstring jsstring) (tags : list jsstring)
  : list jsstring :=
  (fun t => opt_or_else (cached !! t) t) <$> tags.

Definition translateTags (tags : list jsstring) (apiKey : jsstring) (d : Db)
  : Outcome :=
  match tags with
  | [] => {| returned := tags; db_after := d; calls := [] |}
  | _ =>
      let cached := getTagTranslations tags d in
      let uncached := filter (fun t => cached !! t = None) tags in
      if (0 <? length uncached)%nat && truthy (trim apiKey) then
        match translate apiKey uncached with
        | Ok translated =>
            if (length translated =? length uncached)%nat then
              let pairs := zip uncached translated in
              {| returned :=
                   resolve (foldl (fun m p => <[p.1 := p.2]> m) cached pairs) tags;
                 db_after := setTagTranslations pairs d;
                 calls := [uncached] |}
            else
              {| returned := resolve cached tags; db_after := d;
                 calls := [uncached] |}
        | Err _ =>
            {| returned := resolve cached tags; db_after := d;
               calls := [uncached] |}
        end
      else {| returned := resolve cached tags; db_after := d; calls := [] |}
  end.

End Gateway.

End Deepseek.

(** ** Enrichment steps shared by the dialogs *)

Module Enrich.
Import Vndb.

(** One settled promise of [Promise.allSettled]. *)
Inductive Settled (A : Type) : Type :=
| Fulfilled (value : A)
| Rejected (reason : jsstring).
Arguments Fulfilled {A} value.
Arguments Rejected {A} reason.

Definition allSettled {A} (ps : list (Result A)) : list (Settled A) :=
  (fun p => match p with Ok v => Fulfilled v | Err e => Rejected e end) <$> ps.

(** [results.filter((r) => r.status === "fulfilled").map((r) => r.value)]. *)
Definition fulfilled_values {A} (rs : list (Settled A)) : list A :=
  omap (fun r => match r with Fulfilled v => Some v | Rejected _ => None end) rs.

(** [s.sexual < 1 && s.violence < 1]. *)
Definition safe_image (s : VndbImage) : bool :=
  bool_decide (img_sexual s < 1)%Qc && bool_decide (img_violence s < 1)%Qc.

(** The screenshots a dialog tries to download. *)
Definition safe_screenshots (screenshots : list VndbImage) : list VndbImage :=
  slice0 4 (filter (fun s => safe_image s = true) screenshots).

(** [`${ss.id}.${ext}`] with [ext = ss.url.split(".").pop() || "jpg"]. *)
Definition image_filename (id url : jsstring) : jsstring :=
  id ++ lit "." ++ or_else (last_segment [] url) (lit "jpg").

Section Downloads.
(** The backend command [download_screenshot], given the url and the
    file name. *)
Variable download_screenshot : jsstring -> jsstring -> Result jsstring.

(** [screenshotsPromise], written the same way in [handleApply] of the
    match dialog and in [startMatching] and [pickCandidate] of the scan
    dialog.  Its outcome is the outcome of the async function. *)
Definition screenshotsPromise (screenshots : list VndbImage)
  : Result (list jsstring) :=
  match screenshots with
  | [] => Ok []
  | _ =>
      let safe := safe_screenshots screenshots in
      let results :=
        allSettled
          ((fun ss => download_screenshot (img_url ss)
                        (image_filename (img_id ss) (img_url ss))) <$> safe) in
      Ok (fulfilled_values results)
  end.
End Downloads.

End Enrich.

(** ** The scan/import dialog, [components/ScanDialog.tsx] *)

Module ScanDialog.
Import Vndb Game Markup Enrich.

Inductive Status := pending | matching | matched | failed | importing | done.

Record ImportItem := {
  detected : DetectedGame;
  vndb : option VndbVn;
  candidates : list VndbVn;
  coverPath : jsstring;
  screenshotPaths : list jsstring;
  translatedDesc : jsstring;
  translatedTags : list jsstring;
  status : Status;
  error : option jsstring
}.

(** The item a detected folder starts as, in [handleAddFolders]. *)
Definition new_item (g : DetectedGame) : ImportItem :=
  {| detected := g; vndb := None; candidates := []; coverPath := [];
     screenshotPaths := []; translatedDesc := []; translatedTags := [];
     status := pending; error := None |}.

(** What the dialog awaits while it processes one item. *)
Record Collab := {
  searchVn : jsstring -> Result (list VndbVn);
  getVnById : jsstring -> Result (option VndbVn);
  download_cover : jsstring -> jsstring -> Result jsstring;
  download_screenshot : jsstring -> jsstring -> Result jsstring;
  translateDescription : jsstring -> jsstring -> Result jsstring;
  translateTags : list jsstring -> jsstring -> Result (list jsstring)
}.

(** [prev.map((it, idx) => (idx === i ? f(it) : it))]. *)
Definition update_at (i : nat) (f : ImportItem -> ImportItem)
    (items : list ImportItem) : list ImportItem :=
  imap (fun idx it => if decide (idx = i) then f it else it) items.

Definition set_matching (it : ImportItem) : ImportItem :=
  {| detected := detected it; vndb := vndb it; candidates := candidates it;
     coverPath := coverPath it; screenshotPaths := screenshotPaths it;
     translatedDesc := translatedDesc it; translatedTags := translatedTags it;
     status := matching; error := error it |}.

(** The values one pass of the [try] block stores on its item. *)
Record Found := {
  f_vn : option VndbVn;
  f_candidates : list VndbVn;
  f_coverPath : jsstring;
  f_screenshotPaths : list jsstring;
  f_translatedDesc : jsstring;
  f_translatedTags : list jsstring
}.

(** ["VNDB " U+672A U+627E U+5230 U+5339 U+914D], the message of an item
    the catalog has no entry for. *)
Definition msg_no_match : jsstring :=
  lit "VNDB " ++ [26410; 25214; 21040; 21305; 37197].

(** [U+5339 U+914D U+5931 U+8D25 ": "], the prefix put before the text of
    a caught exception. *)
Definition msg_failed_prefix : jsstring :=
  [21305; 37197; 22833; 36133] ++ lit ": ".

(** [U+624B U+52A8 U+8DF3 U+8FC7], the message of a cleared match. *)
Definition msg_skipped : jsstring := [25163; 21160; 36339; 36807].

Definition store_found (f : Found) (it : ImportItem) : ImportItem :=
  {| detected := detected it; vndb := f_vn f; candidates := f_candidates f;
     coverPath := f_coverPath f; screenshotPaths := f_screenshotPaths f;
     translatedDesc := f_translatedDesc f;
     translatedTags := f_translatedTags f;
     status := match f_vn f with Some _ => matched | None => failed end;
     error := match f_vn f with Some _ => None | None => Some msg_no_match end |}.

Definition store_error (e : jsstring) (it : ImportItem) : ImportItem :=
  {| detected := detected it; vndb := vndb it; candidates := candidates it;
     coverPath := coverPath it; screenshotPaths := screenshotPaths it;
     translatedDesc := translatedDesc it; translatedTags := translatedTags it;
     status := failed; error := Some (msg_failed_prefix ++ e) |}.

Section Matching.
Variable apiKey : jsstring.

Definition coverPromise (c : Collab) (vn : option VndbVn) : jsstring :=
  match vn with
  | Some v =>
      match vn_image v with
      | Some img =>
          if truthy (img_url img) then
            match download_cover c (img_url img)
                    (vn_id v ++ lit "." ++ or_else (last_segment [] (img_url img)) (lit "jpg")) with
            | Ok path => path
            | Err _ => []
            end
          else []
      | None => []
      end
  | None => []
  end.

Definition descPromise (c : Collab) (vn : option VndbVn) : jsstring :=
  match vn with
  | Some v =>
      match vn_description v with
      | Some (ch :: rest) =>
          let description := ch :: rest in
          if truthy apiKey then
            match translateDescription c description apiKey with
            | Ok text => text
            | Err _ => cleanDescription (Some description)
            end
          else cleanDescription (Some description)
      | _ => []
      end
  | None => []
  end.

Definition tagsPromise (c : Collab) (vn : option VndbVn) : list jsstring :=
  match vn with
  | Some v =>
      let vndbTags := extractTags_default (vn_tags v) in
      if truthy apiKey && (0 <? length vndbTags)%nat then
        match translateTags c vndbTags apiKey with
        | Ok translated => translated
        | Err _ => vndbTags
        end
      else vndbTags
  | None => []
  end.

(** The [try] block of one iteration of [startMatching]: the values to
    store, or the text of the exception that left the block. *)
Definition try_match (c : Collab) (item : ImportItem) : Result Found :=
  match searchVn c (d_title (detected item)) with
  | Err e => Err e
  | Ok cands =>
      let fetched :=
        match cands with
        | [] => Ok None
        | top :: _ =>
            match getVnById c (vn_id top) with
            | Err e => Err e
            | Ok (Some full) => Ok (Some full)
            | Ok None => Ok (Some top)
            end
        end in
      match fetched with
      | Err e => Err e
      | Ok vn =>
          match
            screenshotsPromise (download_screenshot c)
              (match vn with Some v => vn_screenshots v | None => [] end)
          with
          | Err e => Err e
          | Ok shots =>
              Ok {| f_vn := vn; f_candidates := cands;
                    f_coverPath := coverPromise c vn;
                    f_screenshotPaths := shots;
                    f_translatedDesc := descPromise c vn;
                    f_translatedTags := tagsPromise c vn |}
          end
      end
  end.

(** What the dialog does that is visible from outside, in order: it
    starts on item [i], or it waits [ms] milliseconds. *)
Inductive Event :=
| EvMatch (i : nat)
| EvSleep (ms : Z).

(** One iteration of the loop of [startMatching] for index [i];
    [snapshot] is the array the handler closed over, [world i] what the
    collaborators answer while item [i] is processed. *)
Definition iteration (world : nat -> Collab) (snapshot : list ImportItem)
    (total i : nat) (st : list ImportItem * list Event)
  : list ImportItem * list Event :=
  match snapshot !! i with
  | None => st
  | Some item =>
      let items1 := update_at i set_matching st.1 in
      let items2 :=
        match try_match (world i) item with
        | Ok f => update_at i (store_found f) items1
        | Err e => update_at i (store_error e) items1
        end in
      let trace := st.2 ++ [EvMatch i] in
      if (i <? total - 1)%nat then (items2, trace ++ [EvSleep 500])
      else (items2, trace)
  end.

(** [for (let i = 0; i < total; i++)], by the number of iterations left. *)
Fixpoint loop (world : nat -> Collab) (snapshot : list ImportItem)
    (total left i : nat) (st : list ImportItem * list Event)
  : list ImportItem * list Event :=
  match left with
  | O => st
  | S left' =>
      loop world snapshot total left' (S i) (iteration world snapshot total i st)
  end.

Definition startMatching (world : nat -> Collab) (items : list ImportItem)
  : list ImportItem * list Event :=
  match items with
  | [] => (items, [])
  | _ =>
      let total := length items in
      loop world items total total 0 (items, [])
  end.

End Matching.

(** [clearMatch()] while item [activeIdx] is inspected. *)
Definition clear_item (it : ImportItem) : ImportItem :=
  {| detected := detected it; vndb := None; candidates := candidates it;
     coverPath := []; screenshotPaths := screenshotPaths it;
     translatedDesc := translatedDesc it; translatedTags := translatedTags it;
     status := failed; error := Some msg_skipped |}.

Definition clearMatch (activeIdx : option nat) (items : list ImportItem)
  : list ImportItem :=
  match activeIdx with
  | None => items
  | Some i => update_at i clear_item items
  end.

(** The record [handleImport] builds for one item. *)
Definition import_record (item : ImportItem) : GameFormData :=
  let vn := vndb item in
  let developer :=
    match vn with
    | Some v =>
        match vn_developers v with
        | [] => []
        | devs => join (lit ", ") (prod_name <$> devs)
        end
    | None => []
    end in
  let vndbTags :=
    match vn with
    | Some v => extractTags_default (vn_tags v)
    | None => []
    end in
  let allTags :=
    if (0 <? length (translatedTags item))%nat then translatedTags item
    else vndbTags in
  {| title := match vn with Some v => pickDisplayTitle v | None => d_title (detected item) end;
     title_original := match vn with Some v => pickOriginalTitle v | None => [] end;
     vndb_id := match vn with Some v => or_else (vn_id v) [] | None => [] end;
     Game.developer := developer;
     release_date := match vn with Some v => formatVndbDate (vn_released v) | None => [] end;
     exe_path := d_exe_path (detected item);
     install_path := d_install_path (detected item);
     save_path := [];
     cover_path := coverPath item;
     screenshots := screenshotPaths item;
     tags := allTags;
     play_status := unplayed;
     rating := 0%Qc;
     vndb_rating :=
       match vn with
       | Some v => default 0%Qc (vn_rating v)
       | None => 0%Qc
       end;
     vndb_votecount := None;
     length_minutes := None;
     notes :=
       or_else (translatedDesc item)
         (match vn with
          | Some v =>
              match vn_description v with
              | Some (ch :: rest) => cleanDescription (Some (ch :: rest))
              | _ => []
              end
          | None => []
          end);
     engine := opt_or_else (d_engine (detected item)) [] |}.

(** [handleImport]: the array handed to [onImport]. *)
Definition handleImport (items : list ImportItem) : list GameFormData :=
  import_record <$> items.

End ScanDialog.

(** * Further code of the cited files *)

(** ** More of JavaScript's strings and arrays *)

Module JsMore.

(** [s.split(sep)] for a separator of one code unit: the segments between
    the separators, at least one. *)
Fixpoint split_go (sep : N) (acc s : jsstring) : list jsstring :=
  match s with
  | [] => [acc]
  | c :: s' =>
      if c =? sep then acc :: split_go sep [] s' else split_go sep (acc ++ [c]) s'
  end.

Definition split (sep : N) (s : jsstring) : list jsstring := split_go sep [] s.

(** [[...new Set(xs)]]: the distinct elements in the order of their first
    occurrence; [seen] is the set so far, in insertion order. *)
Fixpoint set_add_all (seen xs : list jsstring) : list jsstring :=
  match xs with
  | [] => seen
  | x :: xs' =>
      if bool_decide (x ∈ seen) then set_add_all seen xs'
      else set_add_all (seen ++ [x]) xs'
  end.

Definition set_spread (xs : list jsstring) : list jsstring := set_add_all [] xs.

(** [xs.includes(x)] on an array of strings. *)
Definition includes (xs : list jsstring) (x : jsstring) : bool :=
  bool_decide (x ∈ xs).

(** [s.startsWith(p)]. *)
Fixpoint startsWith (s p : jsstring) : bool :=
  match p, s with
  | [], _ => true
  | a :: p', c :: s' => (a =? c) && startsWith s' p'
  | _ :: _, [] => false
  end.

End JsMore.

(** ** The rest of the persistence layer, [lib/database.ts] *)

Module DatabaseRest.
Import Game Database.

Definition set_settings (s : gmap jsstring jsstring) (d : Db) : Db :=
  {| games := games d; play_sessions := play_sessions d;
     settings := s; tag_translations := tag_translations d |}.

(** [setSetting(key, value)]: an upsert. *)
Definition setSetting (key value : jsstring) (d : Db) : Db :=
  set_settings (<[key := value]> (settings d)) d.

(** [getTagTranslation(en)]: the translation, or [null]. *)
Definition getTagTranslation (en : jsstring) (d : Db) : option jsstring :=
  tag_translations d !! en.

(** [setTagTranslation(en, zh)]: an upsert. *)
Definition setTagTranslation (en zh : jsstring) (d : Db) : Db :=
  set_tag_translations (<[en := zh]> (tag_translations d)) d.

(** [deleteTagTranslation(en)]. *)
Definition deleteTagTranslation (en : jsstring) (d : Db) : Db :=
  set_tag_translations (delete en (tag_translations d)) d.

(** The interface [Game] of [types/game.ts]; [play_status] is kept as the
    text the table stores. *)
Record Game := {
  g_id : jsstring;
  g_title : jsstring;
  g_title_original : jsstring;
  g_vndb_id : jsstring;
  g_developer : jsstring;
  g_release_date : jsstring;
  g_exe_path : jsstring;
  g_install_path : jsstring;
  g_save_path : jsstring;
  g_cover_path : jsstring;
  g_screenshots : list jsstring;
  g_tags : list jsstring;
  g_play_status : jsstring;
  g_rating : Qc;
  g_vndb_rating : Qc;
  g_vndb_votecount : Qc;
  g_length_minutes : Qc;
  g_notes : jsstring;
  g_engine : jsstring;
  g_total_playtime : Qc;
  g_created_at : jsstring;
  g_updated_at : jsstring
}.

(** [row.col as string] and [row.col as number] on a row of [games]; the
    columns are declared [NOT NULL] with a default of their type. *)
Definition col_text (row : gmap string SqlValue) (col : string) : jsstring :=
  match row !! col with
  | Some (SqlText s) => s
  | _ => []
  end.

Definition col_num (row : gmap string SqlValue) (col : string) : Qc :=
  match row !! col with
  | Some (SqlInt n) => Qc_of_Z n
  | Some (SqlReal q) => q
  | _ => 0%Qc
  end.

Section Rows.
(** [JSON.parse] on the text of an array of strings. *)
Variable parse : jsstring -> list jsstring.

Definition rowToGame (row : gmap string SqlValue) : Game :=
  {| g_id := col_text row "id";
     g_title := col_text row "title";
     g_title_original := col_text row "title_original";
     g_vndb_id := or_else (col_text row "vndb_id") [];
     g_developer := col_text row "developer";
     g_release_date := col_text row "release_date";
     g_exe_path := col_text row "exe_path";
     g_install_path := col_text row "install_path";
     g_save_path := col_text row "save_path";
     g_cover_path := col_text row "cover_path";
     g_screenshots := parse (or_else (col_text row "screenshots") (lit "[]"));
     g_tags := parse (or_else (col_text row "tags") (lit "[]"));
     g_play_status := col_text row "play_status";
     g_rating := col_num row "rating";
     g_vndb_rating := col_num row "vndb_rating";
     g_vndb_votecount := col_num row "vndb_votecount";
     g_length_minutes := col_num row "length_minutes";
     g_notes := col_text row "notes";
     g_engine := col_text row "engine";
     g_total_playtime := col_num row "total_playtime";
     g_created_at := col_text row "created_at";
     g_updated_at := col_text row "updated_at" |}.

(** [getGameById(id)]: the game, or [null]. *)
Definition getGameById (id : jsstring) (d : Db) : option Game :=
  rowToGame <$> games d !! id.

End Rows.

End DatabaseRest.

(** ** The rest of the translation module, [lib/deepseek.ts] *)

Module DeepseekRest.
Import Markup.

(** What a call of [translateDescription] settles to, and the texts it
    sent to the backend. *)
Record DescOutcome := {
  desc_returned : Result jsstring;
  desc_sent : list jsstring
}.

Section Description.
(** The backend command [deepseek_translate], given the credential and
    the text. *)
Variable translate_text : jsstring -> jsstring -> Result jsstring.

Definition translateDescription (text apiKey : jsstring) : DescOutcome :=
  if negb (truthy (trim text)) || negb (truthy (trim apiKey))
  then {| desc_returned := Ok text; desc_sent := [] |}
  else
    let cleaned := cleanVndbMarkup text in
    if negb (truthy cleaned)
    then {| desc_returned := Ok []; desc_sent := [] |}
    else
      let truncated :=
        if (3000 <? length cleaned)%nat then take 3000 cleaned ++ lit "..."
        else cleaned in
      {| desc_returned := translate_text apiKey truncated;
         desc_sent := [truncated] |}.

End Description.

End DeepseekRest.

(** ** The developer lookup of the catalog client, [lib/vndb.ts] *)

Module VndbRest.
Import Vndb.

(** A producer of a release as the catalog returns it. *)
Record RawProducer := {
  rp_id : jsstring;
  rp_name : jsstring;
  rp_original : option jsstring;
  rp_developer : bool
}.

Record RawRelease := { rel_producers : option (list RawProducer) }.

(** The response to the release query: [resp.ok] and the [results] of its
    body. *)
Record ReleaseResponse := {
  resp_ok : bool;
  resp_results : option (list RawRelease)
}.

(** [devMap], a [Map] in insertion order. *)
Definition devMap_has (m : list (jsstring * VndbProducer)) (id : jsstring) : bool :=
  bool_decide (id ∈ m.*1).

Definition add_producer (m : list (jsstring * VndbProducer)) (prod : RawProducer)
  : list (jsstring * VndbProducer) :=
  if rp_developer prod && negb (devMap_has m (rp_id prod))
  then m ++ [(rp_id prod,
              {| prod_id := rp_id prod; prod_name := rp_name prod;
                 prod_original := rp_original prod |})]
  else m.

Definition add_release (m : list (jsstring * VndbProducer)) (release : RawRelease)
  : list (jsstring * VndbProducer) :=
  foldl add_producer m (default [] (rel_producers release)).

(** [fetchDevelopers(vnId)] on what the request settled to: a failed
    request, a response that is not [ok] and any exception give the empty
    list. *)
Definition fetchDevelopers (response : Result ReleaseResponse) : list VndbProducer :=
  match response with
  | Err _ => []
  | Ok resp =>
      if negb (resp_ok resp) then []
      else (foldl add_release [] (default [] (resp_results resp))).*2
  end.

End VndbRest.

(** ** The rest of the scan dialog, [components/ScanDialog.tsx] *)

Module ScanDialogRest.
Import Vndb Game Enrich ScanDialog.

(** [handleAddFolders] once the folders are scanned: the detected games
    whose install path no item has yet are appended as new items. *)
Definition handleAddFolders (detected : list DetectedGame) (items : list ImportItem)
  : list ImportItem :=
  let existingPaths := (fun i => d_install_path (ScanDialog.detected i)) <$> items in
  let newItems :=
    new_item <$> filter (fun g => d_install_path g ∉ existingPaths) detected in
  items ++ newItems.

(** [prev.filter((_, i) => i !== index)]. *)
Definition without_index {A} (index : nat) (l : list A) : list A :=
  (filter (fun ix => ix.1 <> index) (imap (fun i x => (i, x)) l)).*2.

(** [removeItem(index)] on the items and the index of the inspected item. *)
Definition removeItem (index : nat) (st : list ImportItem * option nat)
  : list ImportItem * option nat :=
  (without_index index st.1,
   match st.2 with
   | Some a =>
       if decide (a = index) then None
       else if decide (index < a)%nat then Some (a - 1)%nat
       else Some a
   | None => None
   end).

(** What [pickCandidate] stores on the inspected item. *)
Definition store_pick (fullVn : VndbVn) (cover : jsstring) (shots : list jsstring)
    (desc : jsstring) (tags : list jsstring) (it : ImportItem) : ImportItem :=
  {| detected := detected it; vndb := Some fullVn; candidates := candidates it;
     coverPath := cover; screenshotPaths := shots; translatedDesc := desc;
     translatedTags := tags; status := matched; error := None |}.

(** [pickCandidate(vn)] with the credential read from the settings: the
    items after the update, or the exception of the detail request, which
    leaves the handler before it touches the items. *)
Definition pickCandidate (apiKey : jsstring) (c : Collab) (vn : VndbVn)
    (activeIdx : option nat) (items : list ImportItem) : Result (list ImportItem) :=
  match activeIdx with
  | None => Ok items
  | Some i =>
      match getVnById c (vn_id vn) with
      | Err e => Err e
      | Ok detail =>
          let fullVn := default vn detail in
          match screenshotsPromise (download_screenshot c) (vn_screenshots fullVn) with
          | Err e => Err e
          | Ok shots =>
              Ok (update_at i
                    (store_pick fullVn (coverPromise c (Some fullVn)) shots
                       (descPromise apiKey c (Some fullVn))
                       (tagsPromise apiKey c (Some fullVn)))
                    items)
          end
      end
  end.

End ScanDialogRest.

(** ** The match dialog of one game, [components/VndbMatchDialog.tsx] *)

Module VndbMatchDialog.
Import Vndb Game Markup Enrich ScanDialog DatabaseRest JsMore.

Section Apply.
Variable game : DatabaseRest.Game.
Variable apiKey : jsstring.
Variable c : Collab.

Definition coverPromise (vn : VndbVn) : jsstring :=
  match vn_image vn with
  | Some img =>
      if truthy (img_url img) then
        match download_cover c (img_url img)
                (vn_id vn ++ lit "." ++ or_else (last_segment [] (img_url img)) (lit "jpg")) with
        | Ok path => path
        | Err _ => g_cover_path game
        end
      else g_cover_path game
  | None => g_cover_path game
  end.

Definition descPromise (vn : VndbVn) : jsstring :=
  if truthy (g_notes game) then g_notes game
  else
    match vn_description vn with
    | Some (ch :: rest) =>
        let description := ch :: rest in
        if truthy apiKey then
          match translateDescription c description apiKey with
          | Ok text => text
          | Err _ => cleanDescription (Some description)
          end
        else cleanDescription (Some description)
    | _ => []
    end.

Definition tagsPromise (vn : VndbVn) : list jsstring :=
  let vndbTags := extractTags_default (vn_tags vn) in
  if truthy apiKey && (0 <? length vndbTags)%nat then
    match translateTags c vndbTags apiKey with
    | Ok translated => translated
    | Err _ => vndbTags
    end
  else vndbTags.

(** The paths [screenshotsPromise] resolves to. *)
Definition screenshotPaths (vn : VndbVn) : list jsstring :=
  match screenshotsPromise (download_screenshot c) (vn_screenshots vn) with
  | Ok paths => paths
  | Err _ => []
  end.

(** [handleApply]: the update handed to [onApply], property by property in
    the order of the source; nothing when no entry is selected. *)
Definition handleApply (selectedVn : option VndbVn)
  : option (list (FormKey * FormValue)) :=
  match selectedVn with
  | None => None
  | Some vn =>
      let developer :=
        match vn_developers vn with
        | [] => g_developer game
        | devs => join (lit ", ") (prod_name <$> devs)
        end in
      let shots := screenshotPaths vn in
      let mergedTags := set_spread (g_tags game ++ tagsPromise vn) in
      Some
        [ (k_title, FvStr (or_else (g_title game) (pickDisplayTitle vn)));
          (k_title_original,
           FvStr (or_else (pickOriginalTitle vn) (g_title_original game)));
          (k_vndb_id, FvStr (vn_id vn));
          (k_developer, FvStr developer);
          (k_release_date, FvStr (formatVndbDate (vn_released vn)));
          (k_cover_path, FvStr (coverPromise vn));
          (k_screenshots,
           FvList (if (0 <? length shots)%nat then shots else g_screenshots game));
          (k_tags, FvList mergedTags);
          (k_vndb_rating, FvNum (default 0%Qc (vn_rating vn)));
          (k_vndb_votecount, FvNum (Qc_of_Z (vn_votecount vn)));
          (k_length_minutes, FvNum (Qc_of_Z (default 0%Z (vn_length_minutes vn))));
          (k_notes, FvStr (descPromise vn)) ]
  end.

End Apply.

End VndbMatchDialog.

(** ** The entry form, [components/GameForm.tsx] *)

Module GameForm.
Import Game JsMore.

(** [{ ...prev, [key]: value }] for the keys the handlers below set. *)
Definition with_title (v : jsstring) (f : GameFormData) : GameFormData :=
  {| title := v; title_original := title_original f; vndb_id := vndb_id f;
     developer := developer f; release_date := release_date f;
     exe_path := exe_path f; install_path := install_path f;
     save_path := save_path f; cover_path := cover_path f;
     screenshots := screenshots f; tags := tags f; play_status := play_status f;
     rating := rating f; vndb_rating := vndb_rating f;
     vndb_votecount := vndb_votecount f; length_minutes := length_minutes f;
     notes := notes f; engine := engine f |}.

Definition with_exe_path (v : jsstring) (f : GameFormData) : GameFormData :=
  {| title := title f; title_original := title_original f; vndb_id := vndb_id f;
     developer := developer f; release_date := release_date f;
     exe_path := v; install_path := install_path f;
     save_path := save_path f; cover_path := cover_path f;
     screenshots := screenshots f; tags := tags f; play_status := play_status f;
     rating := rating f; vndb_rating := vndb_rating f;
     vndb_votecount := vndb_votecount f; length_minutes := length_minutes f;
     notes := notes f; engine := engine f |}.

Definition with_install_path (v : jsstring) (f : GameFormData) : GameFormData :=
  {| title := title f; title_original := title_original f; vndb_id := vndb_id f;
     developer := developer f; release_date := release_date f;
     exe_path := exe_path f; install_path := v;
     save_path := save_path f; cover_path := cover_path f;
     screenshots := screenshots f; tags := tags f; play_status := play_status f;
     rating := rating f; vndb_rating := vndb_rating f;
     vndb_votecount := vndb_votecount f; length_minutes := length_minutes f;
     notes := notes f; engine := engine f |}.

Definition with_tags (v : list jsstring) (f : GameFormData) : GameFormData :=
  {| title := title f; title_original := title_original f; vndb_id := vndb_id f;
     developer := developer f; release_date := release_date f;
     exe_path := exe_path f; install_path := install_path f;
     save_path := save_path f; cover_path := cover_path f;
     screenshots := screenshots f; tags := v; play_status := play_status f;
     rating := rating f; vndb_rating := vndb_rating f;
     vndb_votecount := vndb_votecount f; length_minutes := length_minutes f;
     notes := notes f; engine := engine f |}.

(** [addTag()] on the form and the text of the tag input; the input is
    emptied. *)
Definition addTag (st : GameFormData * jsstring) : GameFormData * jsstring :=
  let tag := trim st.2 in
  (if truthy tag && negb (includes (tags st.1) tag)
   then with_tags (tags st.1 ++ [tag]) st.1
   else st.1,
   []).

(** [removeTag(tag)]. *)
Definition removeTag (tag : jsstring) (f : GameFormData) : GameFormData :=
  with_tags (filter (fun t => t <> tag) (tags f)) f.

(** [handleSubmit()]: the form handed to [onSave], if any. *)
Definition handleSubmit (f : GameFormData) : option GameFormData :=
  if negb (truthy (trim (title f))) then None else Some f.

(** [path.replace(/\\/g, "/")]. *)
Definition slashes (path : jsstring) : jsstring :=
  (fun c => if c =? 92 then 47 else c) <$> path.

(** [parts] after [parts.pop()]. *)
Definition folder_parts (path : jsstring) : list jsstring :=
  removelast (split 47 (slashes path)).

(** [browseExe()] once the file dialog returned [result]: the executable
    is set, and the install path and the title are filled in from it where
    the form has none. *)
Definition browseExe (result : option jsstring) (f : GameFormData) : GameFormData :=
  match result with
  | Some (ch :: rest) =>
      let path := ch :: rest in
      let parts := folder_parts path in
      let installPath := join [92] parts in
      let f1 := with_exe_path path f in
      let f2 := if truthy (install_path f) then f1 else with_install_path installPath f1 in
      if truthy (title f) then f2
      else with_title (or_else (List.last parts []) []) f2
  | _ => f
  end.

End GameForm.

(** ** The library hook and the sidebar, [hooks/useGameLibrary.ts] and
    [components/Sidebar.tsx] *)

Module Library.
Import Game DatabaseRest JsMore.

Inductive SortField :=
| by_title | by_rating | by_created_at | by_release_date | by_total_playtime.

Inductive SortDirection := asc | desc.

(** [map.set(t, (map.get(t) || 0) + 1)] on a [Map] in insertion order. *)
Definition count_tag (m : list (jsstring * Z)) (t : jsstring) : list (jsstring * Z) :=
  if bool_decide (t ∈ m.*1)
  then (fun kv => if decide (kv.1 = t) then (kv.1, kv.2 + 1)%Z else kv) <$> m
  else m ++ [(t, 1%Z)].

(** [allTags]: every tag of the library with the number of its
    occurrences, the most frequent first. *)
Definition allTags (games : list Game) : list (jsstring * Z) :=
  Js.sort (fun a b => bool_decide (a.2 < b.2)%Z)
    (foldl (fun m g => foldl count_tag m (g_tags g)) [] games).

Section Filtered.
(** [a.localeCompare(b)]. *)
Variable localeCompare : jsstring -> jsstring -> Z.

Definition compare_by (field : SortField) (a b : Game) : Qc :=
  match field with
  | by_title => Qc_of_Z (localeCompare (g_title a) (g_title b))
  | by_rating => (g_vndb_rating a - g_vndb_rating b)%Qc
  | by_created_at => Qc_of_Z (localeCompare (g_created_at a) (g_created_at b))
  | by_release_date =>
      Qc_of_Z (localeCompare (or_else (g_release_date a) []) (or_else (g_release_date b) []))
  | by_total_playtime => (g_total_playtime a - g_total_playtime b)%Qc
  end.

(** The first filter: [filterStatus] is [None] for ["all"]. *)
Definition status_passes (filterStatus : option PlayStatus) (g : Game) : bool :=
  match filterStatus with
  | None => true
  | Some s => bool_decide (g_play_status g = status_text s)
  end.

(** The second filter. *)
Definition tags_pass (filterTags : list jsstring) (g : Game) : bool :=
  match filterTags with
  | [] => true
  | _ => forallb (fun t => includes (g_tags g) t) filterTags
  end.

Definition filteredGames (games : list Game) (filterStatus : option PlayStatus)
    (filterTags : list jsstring) (field : SortField) (direction : SortDirection)
  : list Game :=
  Js.sort
    (fun a b =>
       let cmp := compare_by field a b in
       bool_decide (0 < match direction with asc => cmp | desc => - cmp end)%Qc)
    (filter (fun g => tags_pass filterTags g = true)
       (filter (fun g => status_passes filterStatus g = true) games)).

End Filtered.

(** [toggleTag(tag)] of the sidebar: the new tag filter. *)
Definition toggleTag (tag : jsstring) (filterTags : list jsstring) : list jsstring :=
  if includes filterTags tag then filter (fun t => t <> tag) filterTags
  else filterTags ++ [tag].

End Library.

(** ** The tag table of the settings dialog, [components/SettingsDialog.tsx] *)

Module SettingsDialog.
Import Database DatabaseRest.

(** The dialog's view of the cache: the listed rows, and the edits not yet
    saved (a [Map] in insertion order). *)
Record TagView := {
  tagList : list (jsstring * jsstring);
  editedTags : list (jsstring * jsstring)
}.

(** [next.set(en, newZh)]. *)
Definition map_set (m : list (jsstring * jsstring)) (en zh : jsstring)
  : list (jsstring * jsstring) :=
  if bool_decide (en ∈ m.*1)
  then (fun kv => if decide (kv.1 = en) then (en, zh) else kv) <$> m
  else m ++ [(en, zh)].

(** [editedTags.get(en)]. *)
Definition map_get (m : list (jsstring * jsstring)) (en : jsstring) : option jsstring :=
  snd <$> List.find (fun kv => bool_decide (kv.1 = en)) m.

Definition handleTagEdit (en newZh : jsstring) (v : TagView) : TagView :=
  {| tagList := tagList v; editedTags := map_set (editedTags v) en newZh |}.

(** [handleTagSave()]: the edits go to the table and into the list. *)
Definition handleTagSave (st : TagView * Db) : TagView * Db :=
  match editedTags st.1 with
  | [] => st
  | pairs =>
      ({| tagList :=
            (fun t => match map_get pairs t.1 with
                      | Some zh => (t.1, zh)
                      | None => t
                      end) <$> tagList st.1;
          editedTags := [] |},
       setTagTranslations pairs st.2)
  end.

(** [handleTagDelete(en)]. *)
Definition handleTagDelete (en : jsstring) (st : TagView * Db) : TagView * Db :=
  ({| tagList := filter (fun t => t.1 <> en) (tagList st.1);
      editedTags := filter (fun kv => kv.1 <> en) (editedTags st.1) |},
   deleteTagTranslation en st.2).

(** [handleSave()]: the credential is stored trimmed. *)
Definition handleSave (deepseekKey : jsstring) (d : Db) : Db :=
  setSetting (lit "deepseek_api_key") (trim deepseekKey) d.

End SettingsDialog.

(** ** Display helpers, [lib/utils.ts] *)

Module Utils.

(** [Number.MAX_SAFE_INTEGER], 2^53 - 1. *)
Definition MAX_SAFE_INTEGER : Z := 9007199254740991.

(** A number [Number.isSafeInteger] accepts: an integer that a double
    holds exactly, together with its neighbours. *)
Record SafeInteger := {
  int_value : Z;
  int_safe : (- MAX_SAFE_INTEGER <= int_value <= MAX_SAFE_INTEGER)%Z
}.

(** [`${n}`] for an integer [n] below 10^21: its decimal digits. *)
Definition number_text (n : Z) : jsstring := lit (pretty n).

(** U+5206 U+949F, the word for minutes, and U+5C0F U+65F6, the word for
    hours. *)
Definition minutes_word : jsstring := [20998; 38047].
Definition hours_word : jsstring := [23567; 26102].

(** [formatPlaytime(seconds)] on a safe integer.  The source divides
    doubles: on a safe integer the quotient by 3600, rounded to the nearest
    double, lies at least 1/3600 below the next integer while the doubles
    of that size are less than 1/2000 apart, so [Math.floor] of it is the
    integer quotient; [%] is exact and is the remainder with the sign of
    the dividend; and the quotient of a number below 3600 by 60 is as far
    from the next integer.  Beyond the safe integers this no longer
    holds, and the function is not embedded there. *)
Definition formatPlaytime (seconds : SafeInteger) : jsstring :=
  let s := int_value seconds in
  if (s <? 60)%Z then lit "< 1 " ++ minutes_word
  else
    let hours := (s / 3600)%Z in
    let minutes := (Z.rem s 3600 / 60)%Z in
    if (hours =? 0)%Z then number_text minutes ++ lit " " ++ minutes_word
    else number_text hours ++ lit " " ++ hours_word ++ lit " "
           ++ number_text minutes ++ lit " " ++ minutes_word.

End Utils.

(** ** The session listener of the application, [App.tsx] *)

Module App.
Import Database.

(** The payload of a [playtime_session_ended] event. *)
Record SessionEnded := {
  p_game_id : jsstring;
  p_start_time : jsstring;
  p_end_time : jsstring;
  p_duration : Z
}.

Section Listener.
Variable foreign_keys : bool.

(** The listener on one event, with the row identifier and the clock
    reading [addPlaySession] draws: a session is recorded only when its
    duration is positive. *)
Definition on_session_ended (id now : jsstring) (e : SessionEnded) (d : Db) : Db :=
  if (0 <? p_duration e)%Z
  then addPlaySession foreign_keys id now (p_game_id e) (p_start_time e)
         (p_end_time e) (p_duration e) d
  else d.

End Listener.

End App.

(** * Properties *)

(** ** Lists the way JavaScript reads them *)

Section ListFacts.
Context {A : Type}.

(** [e] is the first element of [l] that satisfies [p]. *)
Definition first_with (p : A -> bool) (l : list A) (e : A) : Prop :=
  exists l1 l2, l = l1 ++ e :: l2 /\ p e = true /\ Forall (fun x => p x = false) l1.

(** No element of [l] satisfies [p]. *)
Definition none_with (p : A -> bool) (l : list A) : Prop :=
  Forall (fun x => p x = false) l.

Lemma find_first_with (p : A -> bool) (l : list A) (e : A) :
  Js.find p l = Some e <-> first_with p l e.
Proof.
  unfold Js.find, first_with. induction l as [|x l IH]; simpl.
  - split; [discriminate|]. intros (l1 & l2 & Hl & _). by destruct l1.
  - destruct (p x) eqn:Hx.
    + split.
      * intros [= ->]. exists [], l. by repeat split.
      * intros (l1 & l2 & Hl & He & Hall). destruct l1 as [|y l1]; simpl in Hl.
        -- by inversion Hl.
        -- inversion Hl; subst. inversion Hall; subst. congruence.
    + rewrite IH. split.
      * intros (l1 & l2 & -> & He & Hall). exists (x :: l1), l2.
        repeat split; auto.
      * intros (l1 & l2 & Hl & He & Hall). destruct l1 as [|y l1]; simpl in Hl.
        -- inversion Hl; subst. congruence.
        -- inversion Hl; subst. inversion Hall; subst. by exists l1, l2.
Qed.

Lemma find_none_with (p : A -> bool) (l : list A) :
  Js.find p l = None <-> none_with p l.
Proof.
  unfold Js.find, none_with. induction l as [|x l IH]; simpl.
  - split; auto.
  - destruct (p x) eqn:Hx.
    + split; [discriminate|]. intros H. inversion H; subst. congruence.
    + rewrite IH. split; [by constructor | by inversion 1].
Qed.

(** When all elements that satisfy [p] agree under [f], the first one
    does too; no matter where it stands. *)
Lemma find_all_agree {B} (p : A -> bool) (f : A -> B) (l : list A) (e : A) (b : B) :
  e ∈ l -> p e = true -> (forall x, x ∈ l -> p x = true -> f x = b) ->
  exists e', Js.find p l = Some e' /\ f e' = b.
Proof.
  intros Hin He Hall. unfold Js.find.
  destruct (List.find p l) as [e'|] eqn:Hf.
  - exists e'. split; [done|]. apply find_some in Hf as [Hin' Hp'].
    apply Hall; [by apply list_elem_of_In | done].
  - exfalso. apply list_elem_of_In in Hin.
    pose proof (find_none _ _ Hf e Hin). congruence.
Qed.

(** *** The stable sort *)

Section Sort.
Variable after : A -> A -> bool.
Variable R : relation A.
Hypothesis after_false : forall a b, after a b = false -> R a b.
Hypothesis after_true : forall a b, after a b = true -> R b a.

Lemma sort_insert_perm (x : A) (l : list A) : sort_insert after x l ≡ₚ x :: l.
Proof.
  induction l as [|y l IH]; simpl; [done|].
  destruct (after x y); [|done]. rewrite IH. apply Permutation_swap.
Qed.

Lemma sort_perm (l : list A) : Js.sort after l ≡ₚ l.
Proof.
  induction l as [|x l IH]; simpl; [done|].
  by rewrite sort_insert_perm, IH.
Qed.

Lemma sort_insert_hd (a x : A) (l : list A) :
  R a x -> HdRel R a l -> HdRel R a (sort_insert after x l).
Proof.
  intros Hax Hl. destruct l as [|y l]; simpl; [by constructor|].
  destruct (after x y); constructor; [by inversion Hl | done].
Qed.

Lemma sort_insert_sorted (x : A) (l : list A) :
  Sorted R l -> Sorted R (sort_insert after x l).
Proof.
  induction 1 as [|y l Hs IH Hhd]; simpl.
  - by repeat constructor.
  - destruct (after x y) eqn:Hxy.
    + constructor; [done|]. apply sort_insert_hd; auto.
    + constructor; [by constructor|]. constructor. auto.
Qed.

Lemma sort_sorted (l : list A) : Sorted R (Js.sort after l).
Proof.
  induction l as [|x l IH]; simpl; [constructor|].
  by apply sort_insert_sorted.
Qed.
End Sort.

Lemma slice0_take (n : nat) (l : list A) : slice0 (Z.of_nat n) l = take n l.
Proof.
  unfold slice0. destruct (Z.ltb_spec (Z.of_nat n) 0); [lia|].
  by rewrite Nat2Z.id.
Qed.

End ListFacts.

(** ** Catalog client: title selection *)

Section Titles.
Import Vndb.

Definition has_lang (l : jsstring) (t : VndbTitle) : bool := str_eqb (t_lang t) l.

Definition zh_Hans : jsstring := lit "zh-Hans".
Definition zh_Hant : jsstring := lit "zh-Hant".
Definition zh : jsstring := lit "zh".
Definition ja : jsstring := lit "ja".

(** The entry the priority rule selects: the first Simplified-Chinese
    entry; without one the first Traditional-Chinese entry; without either
    the first generic-Chinese entry. *)
Definition preferred (titles : list VndbTitle) (e : VndbTitle) : Prop :=
  first_with (has_lang zh_Hans) titles e
  \/ (none_with (has_lang zh_Hans) titles /\ first_with (has_lang zh_Hant) titles e)
  \/ (none_with (has_lang zh_Hans) titles /\ none_with (has_lang zh_Hant) titles
      /\ first_with (has_lang zh) titles e).

Definition no_chinese (titles : list VndbTitle) : Prop :=
  none_with (has_lang zh_Hans) titles /\ none_with (has_lang zh_Hant) titles
  /\ none_with (has_lang zh) titles.

Lemma pickChineseTitle_preferred titles e :
  preferred titles e -> pickChineseTitle titles = Some (t_title e).
Proof.
  unfold pickChineseTitle, LANG_PRIORITY, pickTitleIn.
  intros [H | [(N1 & H) | (N1 & N2 & H)]].
  - apply find_first_with in H. unfold has_lang, zh_Hans in H. by rewrite H.
  - apply find_none_with in N1. apply find_first_with in H.
    unfold has_lang, zh_Hans, zh_Hant in *. by rewrite N1, H.
  - apply find_none_with in N1, N2. apply find_first_with in H.
    unfold has_lang, zh_Hans, zh_Hant, zh in *. by rewrite N1, N2, H.
Qed.

Lemma pickChineseTitle_none titles :
  no_chinese titles -> pickChineseTitle titles = None.
Proof.
  intros (N1 & N2 & N3). apply find_none_with in N1, N2, N3.
  unfold pickChineseTitle, LANG_PRIORITY, pickTitleIn.
  unfold has_lang, zh_Hans, zh_Hant, zh in *. by rewrite N1, N2, N3.
Qed.

(** U+6E38 U+620F "A" and U+30B2 U+30FC U+30E0 "A". *)
Definition youxi_A : jsstring := [28216; 25103; 65].
Definition geemu_A : jsstring := [12466; 12540; 12512; 65].

Definition mk_title (l t : jsstring) : VndbTitle :=
  {| t_lang := l; t_title := t; t_latin := None; t_official := true; t_main := false |}.

Definition mk_vn (default : jsstring) (alt : option jsstring) (titles : list VndbTitle) : VndbVn :=
  {| vn_id := lit "v1"; vn_title := default; vn_alttitle := alt; vn_titles := titles;
     vn_released := None; vn_image := None; vn_screenshots := [];
     vn_olang := lit "ja"; vn_languages := []; vn_platforms := [];
     vn_rating := None; vn_votecount := 0; vn_length_minutes := None;
     vn_description := None; vn_tags := []; vn_developers := [] |}.

End Titles.

Section TitleSelection.
Import Vndb.

Definition vn_blank_zh : VndbVn :=
  mk_vn (lit "Default") None [mk_title zh_Hans []].

Definition vn_two_zh : VndbVn :=
  mk_vn (lit "Default") None
    [mk_title zh_Hans (lit "B"); mk_title zh_Hans youxi_A; mk_title ja geemu_A].

Definition vn_ja_first : VndbVn :=
  mk_vn (lit "Default") None [mk_title ja geemu_A; mk_title zh_Hans youxi_A].

(** C5, as stated, fails.  A record whose only Chinese entry has an empty
    text selects that entry, yet [pickDisplayTitle] returns the default
    title and not the entry's (empty) text, because of [||].  And a record
    that contains the Simplified-Chinese entry U+6E38 U+620F "A" behind
    another Simplified-Chinese entry shows the other entry's text. *)
Lemma title_selection_counterexample :
  (preferred (vn_titles vn_blank_zh) (mk_title zh_Hans [])
   /\ pickDisplayTitle vn_blank_zh <> t_title (mk_title zh_Hans [])
   /\ pickDisplayTitle vn_blank_zh = lit "Default")
  /\ (mk_title zh_Hans youxi_A ∈ vn_titles vn_two_zh
      /\ mk_title ja geemu_A ∈ vn_titles vn_two_zh
      /\ pickDisplayTitle vn_two_zh <> youxi_A).
Proof.
  split; [split; [|split] | split; [|split]].
  - left. exists [], []. by repeat split.
  - vm_compute. discriminate.
  - reflexivity.
  - simpl. apply list_elem_of_In. simpl. tauto.
  - simpl. apply list_elem_of_In. simpl. tauto.
  - vm_compute. discriminate.
Qed.

(** C5, amended.  [pickDisplayTitle] returns the text of the entry the
    priority rule selects (Simplified-Chinese, then Traditional-Chinese,
    then generic Chinese; the first entry of the language) when that text
    is not empty, and the record's default title when the text is empty or
    no entry is Chinese.  [pickOriginalTitle] returns the text of the first
    Japanese entry; without one the alternate title when it is present and
    not empty; else the text of the first entry flagged primary; else the
    empty string.  In particular, when the titles contain a
    Simplified-Chinese entry and a Japanese entry, and every
    Simplified-Chinese entry reads U+6E38 U+620F "A" and every Japanese
    entry reads U+30B2 U+30FC U+30E0 "A", the two functions return these
    two texts, wherever the entries stand in the array. *)
Theorem title_selection (vn : VndbVn) :
  (forall e, preferred (vn_titles vn) e -> t_title e <> [] ->
             pickDisplayTitle vn = t_title e)
  /\ (forall e, preferred (vn_titles vn) e -> t_title e = [] ->
                pickDisplayTitle vn = vn_title vn)
  /\ (no_chinese (vn_titles vn) -> pickDisplayTitle vn = vn_title vn)
  /\ (forall e, first_with (has_lang ja) (vn_titles vn) e ->
                pickOriginalTitle vn = t_title e)
  /\ (forall alt, none_with (has_lang ja) (vn_titles vn) ->
                  vn_alttitle vn = Some alt -> alt <> [] ->
                  pickOriginalTitle vn = alt)
  /\ (forall e, none_with (has_lang ja) (vn_titles vn) ->
                vn_alttitle vn = None \/ vn_alttitle vn = Some [] ->
                first_with t_main (vn_titles vn) e ->
                pickOriginalTitle vn = t_title e)
  /\ (none_with (has_lang ja) (vn_titles vn) ->
      vn_alttitle vn = None \/ vn_alttitle vn = Some [] ->
      none_with t_main (vn_titles vn) ->
      pickOriginalTitle vn = [])
  /\ (forall e_zh e_ja,
        e_zh ∈ vn_titles vn -> e_ja ∈ vn_titles vn ->
        has_lang zh_Hans e_zh = true -> has_lang ja e_ja = true ->
        (forall x, x ∈ vn_titles vn -> has_lang zh_Hans x = true -> t_title x = youxi_A) ->
        (forall x, x ∈ vn_titles vn -> has_lang ja x = true -> t_title x = geemu_A) ->
        pickDisplayTitle vn = youxi_A /\ pickOriginalTitle vn = geemu_A).
Proof.
  repeat apply conj.
  - intros e He Hne. unfold pickDisplayTitle.
    rewrite (pickChineseTitle_preferred _ _ He). simpl.
    unfold or_else. by destruct (t_title e).
  - intros e He Hempty. unfold pickDisplayTitle.
    rewrite (pickChineseTitle_preferred _ _ He). simpl.
    unfold or_else. by rewrite Hempty.
  - intros Hn. unfold pickDisplayTitle. by rewrite (pickChineseTitle_none _ Hn).
  - intros e He. apply find_first_with in He. unfold pickOriginalTitle.
    unfold has_lang, ja in He. by rewrite He.
  - intros alt Hn Halt Hne. apply find_none_with in Hn. unfold pickOriginalTitle.
    unfold has_lang, ja in Hn. rewrite Hn, Halt. by destruct alt.
  - intros e Hn Halt He. apply find_none_with in Hn. apply find_first_with in He.
    unfold pickOriginalTitle. unfold has_lang, ja in Hn. rewrite Hn, He.
    by destruct Halt as [-> | ->].
  - intros Hn Halt Hm. apply find_none_with in Hn, Hm.
    unfold pickOriginalTitle. unfold has_lang, ja in Hn. rewrite Hn, Hm.
    by destruct Halt as [-> | ->].
  - intros e_zh e_ja Hzh Hja Lzh Lja Azh Aja. split.
    + destruct (find_all_agree (has_lang zh_Hans) t_title _ e_zh youxi_A Hzh Lzh Azh)
        as (e' & Hfind & Htitle).
      unfold pickDisplayTitle, pickChineseTitle, LANG_PRIORITY, pickTitleIn.
      unfold has_lang, zh_Hans in Hfind. by rewrite Hfind, Htitle.
    + destruct (find_all_agree (has_lang ja) t_title _ e_ja geemu_A Hja Lja Aja)
        as (e' & Hfind & Htitle).
      unfold pickOriginalTitle. unfold has_lang, ja in Hfind. by rewrite Hfind.
Qed.

(** The theorem at the record of the specification's scenario, with the
    Japanese entry first. *)
Lemma title_selection_witness :
  pickDisplayTitle vn_ja_first = youxi_A /\ pickOriginalTitle vn_ja_first = geemu_A.
Proof.
  destruct (title_selection vn_ja_first) as (_ & _ & _ & _ & _ & _ & _ & H).
  apply (H (mk_title zh_Hans youxi_A) (mk_title ja geemu_A)).
  - apply list_elem_of_In. simpl. tauto.
  - apply list_elem_of_In. simpl. tauto.
  - reflexivity.
  - reflexivity.
  - intros x Hx Hl. apply list_elem_of_In in Hx. simpl in Hx.
    destruct Hx as [<- | [<- | []]]; [discriminate Hl | reflexivity].
  - intros x Hx Hl. apply list_elem_of_In in Hx. simpl in Hx.
    destruct Hx as [<- | [<- | []]]; [reflexivity | discriminate Hl].
Defined.

End TitleSelection.

(** ** Catalog client: tag extraction *)

Section TagExtraction.
Import Vndb.

(** The tag passes the default filter: no spoiler, not of the category the
    catalog codes ["ero"] (its adult category), rated 1.5 or more. *)
Definition qualifies (t : VndbTag) : Prop :=
  (tag_spoiler t ≤ Q2Qc 0)%Qc /\ tag_category t <> lit "ero"
  /\ (Q2Qc (3 # 2) ≤ tag_rating t)%Qc.

Definition rating_desc (a b : VndbTag) : Prop := (tag_rating b ≤ tag_rating a)%Qc.

Lemma tag_kept_qualifies t : tag_kept (Q2Qc 0) t = true <-> qualifies t.
Proof.
  unfold tag_kept, qualifies, str_eqb.
  rewrite !andb_true_iff, negb_true_iff, !bool_decide_eq_true, bool_decide_eq_false.
  tauto.
Qed.

Lemma rating_after_false a b : rating_after a b = false -> rating_desc a b.
Proof.
  unfold rating_after, rating_desc. rewrite bool_decide_eq_false.
  apply Qcnot_lt_le.
Qed.

Lemma rating_after_true a b : rating_after a b = true -> rating_desc b a.
Proof.
  unfold rating_after, rating_desc. rewrite bool_decide_eq_true.
  apply Qclt_le_weak.
Qed.

Global Instance rating_desc_trans : Transitive rating_desc.
Proof. intros a b c Hab Hbc. unfold rating_desc in *. by eapply Qcle_trans. Qed.

Definition mk_tag (name : string) (rating spoiler : Q) (category : string) : VndbTag :=
  {| tag_id := lit "g" ++ lit name; tag_name := lit name;
     tag_rating := Q2Qc rating; tag_spoiler := Q2Qc spoiler;
     tag_category := lit category |}.

(** The filter as the specification words it, with the category text
    ["adult"]. *)
Definition qualifies_as_stated (t : VndbTag) : Prop :=
  (tag_spoiler t ≤ Q2Qc 0)%Qc /\ tag_category t <> lit "adult"
  /\ (Q2Qc (3 # 2) ≤ tag_rating t)%Qc.

(** Two tags without spoiler, rated 2 and 2.5; the first carries the
    catalog's category code ["ero"], the second the text ["adult"]. *)
Definition two_tags : list VndbTag :=
  [mk_tag "Nudity" 2 0 "ero"; mk_tag "Mature" (5 # 2) 0 "adult"].

(** C4, as stated, fails.  The source compares the category with ["ero"],
    the code the catalog gives its adult category, not with ["adult"]: of
    the two tags the code returns the second alone, where the filter as
    stated keeps the first alone. *)
Lemma extractTags_default_counterexample :
  extractTags_default two_tags = [lit "Mature"]
  /\ filter qualifies_as_stated two_tags = [mk_tag "Nudity" 2 0 "ero"]
  /\ ~ (exists kept : list VndbTag,
          kept ≡ₚ filter qualifies_as_stated two_tags
          /\ extractTags_default two_tags = tag_name <$> take 8 kept).
Proof.
  assert (H1 : extractTags_default two_tags = [lit "Mature"])
    by (vm_compute; reflexivity).
  assert (H2 : filter qualifies_as_stated two_tags = [mk_tag "Nudity" 2 0 "ero"])
    by (vm_compute; reflexivity).
  split; [exact H1|]. split; [exact H2|].
  intros (kept & Hperm & Hres). rewrite H2 in Hperm.
  apply Permutation_singleton_r in Hperm as ->.
  rewrite H1 in Hres. vm_compute in Hres. discriminate Hres.
Qed.

(** Ten qualifying tags rated 1.5, 1.6, ..., 2.4 and one spoiler: the eight
    best rated come back, best first. *)
Example extractTags_default_ten :
  extractTags_default
    [mk_tag "t15" (15 # 10) 0 "cont"; mk_tag "t16" (16 # 10) 0 "cont";
     mk_tag "t17" (17 # 10) 0 "cont"; mk_tag "t18" (18 # 10) 0 "tech";
     mk_tag "t19" (19 # 10) 0 "cont"; mk_tag "t20" (20 # 10) 0 "cont";
     mk_tag "spoiler" 3 1 "cont";
     mk_tag "t21" (21 # 10) 0 "cont"; mk_tag "t22" (22 # 10) 0 "cont";
     mk_tag "t23" (23 # 10) 0 "cont"; mk_tag "t24" (24 # 10) 0 "cont"]
  = lit <$> ["t24"; "t23"; "t22"; "t21"; "t20"; "t19"; "t18"; "t17"]%string.
Proof. vm_compute. reflexivity. Qed.

(** C4, amended.  With the default arguments, [extractTags] returns the
    names of the first eight entries of a list [kept] that holds exactly the
    tags with spoiler level at most 0, a category other than ["ero"] (the
    catalog's code for its adult category) and a rating of at least 1.5
    (each as often as in the input), in descending order of rating; so it
    returns at most eight names. *)
Theorem extractTags_default_spec (tags : list VndbTag) :
  exists kept : list VndbTag,
    kept ≡ₚ filter qualifies tags
    /\ StronglySorted rating_desc kept
    /\ extractTags_default tags = tag_name <$> take 8 kept
    /\ (length (extractTags_default tags) <= 8)%nat.
Proof.
  exists (Js.sort rating_after (filter (fun t => tag_kept (Q2Qc 0) t = true) tags)).
  assert (Hres : extractTags_default tags =
                 tag_name <$> take 8 (Js.sort rating_after
                   (filter (fun t => tag_kept (Q2Qc 0) t = true) tags))).
  { unfold extractTags_default, extractTags. by rewrite (slice0_take 8). }
  repeat apply conj.
  - rewrite (sort_perm rating_after).
    rewrite (list_filter_iff _ qualifies); [done|]. apply tag_kept_qualifies.
  - apply Sorted_StronglySorted; [apply _|].
    apply (sort_sorted rating_after rating_desc);
      [apply rating_after_false | apply rating_after_true].
  - exact Hres.
  - rewrite Hres, length_fmap, length_take. lia.
Qed.

End TagExtraction.

(** ** Translation gateway *)

Section GatewayFacts.
Import Database Deepseek.

Implicit Types (tags : list jsstring) (d : Db) (m : gmap jsstring jsstring).

Definition upserts m (pairs : list (jsstring * jsstring)) : gmap jsstring jsstring :=
  foldl (fun t p => <[p.1 := p.2]> t) m pairs.

(** The tags of the request the cache has no row for. *)
Definition misses tags d : list jsstring :=
  filter (fun t => tag_translations d !! t = None) tags.

Lemma filter_ext_elem {A} (P Q : A -> Prop) `{!forall x, Decision (P x)}
    `{!forall x, Decision (Q x)} (l : list A) :
  (forall x, x ∈ l -> P x <-> Q x) -> filter P l = filter Q l.
Proof.
  induction l as [|x l IH]; intros Hext; [done|].
  rewrite !filter_cons.
  assert (Hx : P x <-> Q x) by (apply Hext; left).
  assert (Hl : filter P l = filter Q l).
  { apply IH. intros y Hy. apply Hext. by right. }
  destruct (decide (P x)), (decide (Q x)); try tauto; by rewrite Hl.
Qed.

Lemma getTagTranslations_lookup tags d t :
  t ∈ tags -> getTagTranslations tags d !! t = tag_translations d !! t.
Proof.
  intros Hin. unfold getTagTranslations. destruct tags as [|t0 tags']; [by inversion Hin|].
  destruct (tag_translations d !! t) as [v|] eqn:Hv.
  - by apply map_lookup_filter_Some.
  - apply map_lookup_filter_None. left. done.
Qed.

Lemma getTagTranslations_Some tags d t v :
  getTagTranslations tags d !! t = Some v -> tag_translations d !! t = Some v.
Proof.
  unfold getTagTranslations. destruct tags; [by rewrite lookup_empty|].
  intros H. by apply map_lookup_filter_Some in H as [H' _].
Qed.

Lemma uncached_misses tags d :
  filter (fun t => getTagTranslations tags d !! t = None) tags = misses tags d.
Proof.
  apply filter_ext_elem. intros t Ht. by rewrite getTagTranslations_lookup.
Qed.

Lemma upserts_agree m1 m2 pairs k :
  m1 !! k = m2 !! k -> upserts m1 pairs !! k = upserts m2 pairs !! k.
Proof.
  unfold upserts. revert m1 m2. induction pairs as [|[a b] pairs IH]; intros m1 m2 H; [done|].
  simpl. apply IH. destruct (decide (a = k)) as [->|Hne].
  - by rewrite !lookup_insert_eq.
  - by rewrite !lookup_insert_ne.
Qed.

Lemma upserts_keeps m pairs k : is_Some (m !! k) -> is_Some (upserts m pairs !! k).
Proof.
  unfold upserts. revert m. induction pairs as [|[a b] pairs IH]; intros m H; [done|].
  simpl. apply IH. destruct (decide (a = k)) as [->|Hne].
  - rewrite lookup_insert_eq. eauto.
  - by rewrite lookup_insert_ne.
Qed.

Lemma upserts_covers m pairs k : k ∈ pairs.*1 -> is_Some (upserts m pairs !! k).
Proof.
  unfold upserts. revert m. induction pairs as [|[a b] pairs IH]; intros m H.
  - by inversion H.
  - simpl in *. apply elem_of_cons in H as [->|H].
    + apply upserts_keeps. rewrite lookup_insert_eq. eauto.
    + by apply IH.
Qed.

(** A value read after the upserts was there before or is one of the
    pairs. *)
Lemma upserts_Some m pairs k v :
  upserts m pairs !! k = Some v -> m !! k = Some v \/ (k, v) ∈ pairs.
Proof.
  unfold upserts. revert m. induction pairs as [|[a b] pairs IH]; intros m H; [by left|].
  simpl in H. apply IH in H as [H|H].
  - destruct (decide (a = k)) as [->|Hne].
    + rewrite lookup_insert_eq in H. injection H as ->. right. left.
    + rewrite lookup_insert_ne in H by done. by left.
  - right. by right.
Qed.

Lemma resolve_agree m1 m2 tags :
  (forall t, t ∈ tags -> m1 !! t = m2 !! t) -> resolve m1 tags = resolve m2 tags.
Proof.
  intros H. unfold resolve. apply list_eq. intros i.
  rewrite !list_lookup_fmap. destruct (tags !! i) as [t|] eqn:Ht; [simpl|done].
  rewrite H; [done|]. by eapply list_elem_of_lookup_2.
Qed.

Lemma resolve_lookup m tags i t :
  tags !! i = Some t -> resolve m tags !! i = Some (opt_or_else (m !! t) t).
Proof. intros H. unfold resolve. by rewrite list_lookup_fmap, H. Qed.

Lemma length_resolve m tags : length (resolve m tags) = length tags.
Proof. unfold resolve. by rewrite length_fmap. Qed.

(** The value a position resolves to is the tag itself or the map's value
    for that tag. *)
Lemma opt_or_else_cases (o : option jsstring) (t : jsstring) :
  opt_or_else o t = t \/ o = Some (opt_or_else o t).
Proof.
  destruct o as [[|c s]|]; simpl; auto.
Qed.

(** The five ways [translateTags] ends, by what the translator did. *)
Inductive Ending (translate : jsstring -> list jsstring -> Result (list jsstring))
    tags (apiKey : jsstring) d : Outcome -> Prop :=
| end_empty :
    tags = [] ->
    Ending translate tags apiKey d
      {| returned := []; db_after := d; calls := [] |}
| end_no_call :
    tags <> [] ->
    misses tags d = [] \/ truthy (trim apiKey) = false ->
    Ending translate tags apiKey d
      {| returned := resolve (getTagTranslations tags d) tags;
         db_after := d; calls := [] |}
| end_stored translated :
    tags <> [] -> misses tags d <> [] -> truthy (trim apiKey) = true ->
    translate apiKey (misses tags d) = Ok translated ->
    length translated = length (misses tags d) ->
    Ending translate tags apiKey d
      {| returned :=
           resolve (upserts (getTagTranslations tags d)
                      (zip (misses tags d) translated)) tags;
         db_after := setTagTranslations (zip (misses tags d) translated) d;
         calls := [misses tags d] |}
| end_mismatch translated :
    tags <> [] -> misses tags d <> [] -> truthy (trim apiKey) = true ->
    translate apiKey (misses tags d) = Ok translated ->
    length translated <> length (misses tags d) ->
    Ending translate tags apiKey d
      {| returned := resolve (getTagTranslations tags d) tags;
         db_after := d; calls := [misses tags d] |}
| end_failed e :
    tags <> [] -> misses tags d <> [] -> truthy (trim apiKey) = true ->
    translate apiKey (misses tags d) = Err e ->
    Ending translate tags apiKey d
      {| returned := resolve (getTagTranslations tags d) tags;
         db_after := d; calls := [misses tags d] |}.

Lemma translateTags_nonempty translate tags apiKey d :
  tags <> [] ->
  translateTags translate tags apiKey d =
    let cached := getTagTranslations tags d in
    let uncached := misses tags d in
    if (0 <? length uncached)%nat && truthy (trim apiKey) then
      match translate apiKey uncached with
      | Ok translated =>
          if (length translated =? length uncached)%nat then
            {| returned := resolve (upserts cached (zip uncached translated)) tags;
               db_after := setTagTranslations (zip uncached translated) d;
               calls := [uncached] |}
          else {| returned := resolve cached tags; db_after := d; calls := [uncached] |}
      | Err _ => {| returned := resolve cached tags; db_after := d; calls := [uncached] |}
      end
    else {| returned := resolve cached tags; db_after := d; calls := [] |}.
Proof.
  intros Hne. destruct tags as [|t0 tags']; [done|].
  unfold translateTags. by rewrite uncached_misses.
Qed.

Lemma translateTags_ending translate tags apiKey d :
  Ending translate tags apiKey d (translateTags translate tags apiKey d).
Proof.
  destruct (decide (tags = [])) as [->|Hne]; [by constructor|].
  rewrite translateTags_nonempty by done. cbv zeta.
  destruct (Nat.ltb_spec 0 (length (misses tags d))) as [Hlen|Hlen].
  - assert (Hmiss : misses tags d <> []) by (intros E; rewrite E in Hlen; simpl in Hlen; lia).
    destruct (truthy (trim apiKey)) eqn:Hkey; cbn [andb].
    + destruct (translate apiKey (misses tags d)) as [translated|e] eqn:Htr.
      * destruct (Nat.eqb_spec (length translated) (length (misses tags d))).
        -- by apply end_stored.
        -- by apply end_mismatch with translated.
      * by apply end_failed with e.
    + apply end_no_call; [done|]. by right.
  - cbn [andb]. apply end_no_call; [done|]. left.
    destruct (misses tags d); [done|simpl in Hlen; lia].
Qed.

End GatewayFacts.

Section GatewayClaims.
Import Database Deepseek.

Implicit Types (tags : list jsstring) (d : Db).

Lemma translateTags_all_cached translate tags apiKey d :
  misses tags d = [] ->
  translateTags translate tags apiKey d =
    {| returned := resolve (getTagTranslations tags d) tags;
       db_after := d; calls := [] |}.
Proof.
  intros Hm. destruct (decide (tags = [])) as [->|Hne]; [done|].
  rewrite translateTags_nonempty by done. cbv zeta. by rewrite Hm.
Qed.

Lemma misses_nil tags d :
  (forall t, t ∈ tags -> is_Some (tag_translations d !! t)) -> misses tags d = [].
Proof.
  intros H. unfold misses. induction tags as [|t tags IH]; [done|].
  rewrite filter_cons. destruct (decide (tag_translations d !! t = None)) as [E|_].
  - destruct (H t) as [v Hv]; [left|]. congruence.
  - apply IH. intros t' Ht'. apply H. by right.
Qed.

Lemma misses_nil_inv tags d t :
  misses tags d = [] -> t ∈ tags -> is_Some (tag_translations d !! t).
Proof.
  intros Hm Ht. destruct (tag_translations d !! t) eqn:E; [eauto|].
  exfalso. by eapply (filter_nil_not_elem_of _ tags t Hm).
Qed.

Definition empty_db : Db :=
  {| games := ∅; play_sessions := []; settings := ∅; tag_translations := ∅ |}.

(** A translator that is down. *)
Definition failing_translator (apiKey : jsstring) (batch : list jsstring)
  : Result (list jsstring) := Err (lit "Error: request failed").

Definition cute_girls : list jsstring := [lit "cute girls"].

Definition first_failed : Outcome :=
  translateTags failing_translator cute_girls (lit "sk-1") empty_db.

Definition second_failed : Outcome :=
  translateTags failing_translator cute_girls (lit "sk-1") (db_after first_failed).

(** C2, as stated, fails.  When the translator fails on the first call,
    nothing is stored, and the second call with the same tag and a
    non-blank credential asks the translator again: two external calls. *)
Lemma translateTags_twice_counterexample :
  truthy (trim (lit "sk-1")) = true
  /\ calls first_failed = [cute_girls]
  /\ calls second_failed = [cute_girls]
  /\ ~ (length (calls first_failed ++ calls second_failed) <= 1)%nat.
Proof.
  assert (H1 : calls first_failed = [cute_girls]) by (vm_compute; reflexivity).
  assert (H2 : calls second_failed = [cute_girls]) by (vm_compute; reflexivity).
  split; [reflexivity|]. split; [exact H1|]. split; [exact H2|].
  rewrite H1, H2. simpl. lia.
Qed.

(** C2, amended.  Take two calls of [translateTags] in sequence with the
    same tags and a non-blank credential, the second on the tables the
    first left.  If the first call either issued no external call or its
    external call returned a list as long as the batch, then after the
    first call every tag has a row in the cache, the second call issues no
    external call, leaves the tables alone and returns the list the first
    call returned; in total at most one external call was issued.  If
    instead some tag has no cache row and the external call of the first
    call throws or returns a list of another length, then the first call
    issued that call and left the tables as they were, and the second call
    issues the external call again, for the same batch, whatever its
    translator does: two external calls in total. *)
Theorem translateTags_twice translate1 translate2 tags apiKey d :
  let first := translateTags translate1 tags apiKey d in
  let second := translateTags translate2 tags apiKey (db_after first) in
  truthy (trim apiKey) = true ->
  ((calls first = []
    \/ exists translated, translate1 apiKey (misses tags d) = Ok translated
                          /\ length translated = length (misses tags d)) ->
   (forall t, t ∈ tags -> is_Some (tag_translations (db_after first) !! t))
   /\ calls second = []
   /\ db_after second = db_after first
   /\ returned second = returned first
   /\ (length (calls first ++ calls second) <= 1)%nat)
  /\ (misses tags d <> [] ->
      ((exists e, translate1 apiKey (misses tags d) = Err e)
       \/ exists translated, translate1 apiKey (misses tags d) = Ok translated
                             /\ length translated <> length (misses tags d)) ->
      calls first = [misses tags d]
      /\ db_after first = d
      /\ calls second = [misses tags d]
      /\ length (calls first ++ calls second) = 2%nat).
Proof.
  intros first second Hkey. subst second first. split.
  - intros Hok.
    destruct (translateTags_ending translate1 tags apiKey d)
      as [-> | Hne [Hm|Hk] | translated Hne Hm _ Htr Hlen
          | translated Hne Hm _ Htr Hlen | e Hne Hm _ Htr]; simpl in *.
    + repeat split; auto. intros t Ht. by inversion Ht.
    + rewrite (translateTags_all_cached translate2 tags apiKey d Hm). simpl.
      repeat split; auto. intros t Ht. by apply misses_nil_inv with tags.
    + congruence.
    + set (pairs := zip (misses tags d) translated).
      assert (Hall : forall t, t ∈ tags ->
                is_Some (tag_translations (setTagTranslations pairs d) !! t)).
      { intros t Ht. simpl. fold (upserts (tag_translations d) pairs).
        destruct (tag_translations d !! t) as [v|] eqn:Hv.
        - apply upserts_keeps. rewrite Hv. eauto.
        - apply upserts_covers. subst pairs. rewrite fst_zip by lia.
          apply list_elem_of_filter. done. }
      rewrite (translateTags_all_cached translate2 tags apiKey _ (misses_nil _ _ Hall)).
      simpl. repeat split; auto.
      apply resolve_agree. intros t Ht.
      rewrite getTagTranslations_lookup by done. simpl.
      fold (upserts (tag_translations d) pairs). fold pairs.
      apply upserts_agree. symmetry. by apply getTagTranslations_lookup.
    + destruct Hok as [Hc | (tr & Htr' & Hlen')]; [done|]. congruence.
    + destruct Hok as [Hc | (tr & Htr' & Hlen')]; [done|]. congruence.
  - intros Hmiss Hfail.
    assert (Hne : tags <> []) by (intros ->; by apply Hmiss).
    assert (Hagain : calls (translateTags translate2 tags apiKey d) = [misses tags d]).
    { destruct (translateTags_ending translate2 tags apiKey d)
        as [-> | _ [Hm|Hk] | translated _ _ _ _ _
            | translated _ _ _ _ _ | e _ _ _ _]; simpl; try done; congruence. }
    destruct (translateTags_ending translate1 tags apiKey d)
      as [-> | _ [Hm|Hk] | translated _ _ _ Htr Hlen
          | translated _ _ _ Htr Hlen | e _ _ _ Htr]; simpl; try done; try congruence.
    + exfalso. destruct Hfail as [(e & He) | (tr & Htr' & Hlen')]; congruence.
    + by rewrite Hagain.
    + by rewrite Hagain.
Qed.

(** A translator that answers the batch ["cute girls"] with one
    translation (U+840C U+59B9). *)
Definition moe_translator (apiKey : jsstring) (batch : list jsstring)
  : Result (list jsstring) := Ok [[33804; 22969]].

(** A translator that answers every batch with two translations. *)
Definition long_translator (apiKey : jsstring) (batch : list jsstring)
  : Result (list jsstring) := Ok [[33804; 22969]; [33804]].

(** The theorem at the specification's scenario (one tag, an empty cache):
    with a translator that answers, the second call is served from the
    cache; with a translator that answers with a list of another length,
    the second call asks again. *)
Lemma translateTags_twice_witness :
  (calls (translateTags failing_translator cute_girls (lit "sk-1")
            (db_after (translateTags moe_translator cute_girls (lit "sk-1") empty_db))) = []
   /\ returned (translateTags failing_translator cute_girls (lit "sk-1")
            (db_after (translateTags moe_translator cute_girls (lit "sk-1") empty_db)))
      = [[33804; 22969]])
  /\ (db_after (translateTags long_translator cute_girls (lit "sk-1") empty_db) = empty_db
      /\ calls (translateTags moe_translator cute_girls (lit "sk-1")
               (db_after (translateTags long_translator cute_girls (lit "sk-1") empty_db)))
         = [cute_girls]).
Proof.
  split.
  - destruct (translateTags_twice moe_translator failing_translator cute_girls
                (lit "sk-1") empty_db eq_refl) as [Hserved _].
    destruct Hserved as (_ & Hcalls & _ & Hret & _).
    + right. exists [[33804; 22969]]. split; [reflexivity | vm_compute; reflexivity].
    + split; [exact Hcalls|]. rewrite Hret. vm_compute. reflexivity.
  - destruct (translateTags_twice long_translator moe_translator cute_girls
                (lit "sk-1") empty_db eq_refl) as [_ Hagain].
    destruct Hagain as (_ & Hsame & Hcalls & _).
    + discriminate.
    + right. exists [[33804; 22969]; [33804]]. split; [reflexivity | vm_compute; lia].
    + split; [exact Hsame | exact Hcalls].
Defined.

(** C3.  Whatever the translator does, [translateTags] returns a list as
    long as its input, and the value at each position belongs to the tag
    at that position: it is that tag itself, or the cached translation of
    that tag, or the translation the translator returned at the index that
    tag has in the batch. *)
Theorem translateTags_order translate tags apiKey d :
  let out := translateTags translate tags apiKey d in
  length (returned out) = length tags
  /\ forall i t, tags !! i = Some t ->
       exists v, returned out !! i = Some v
         /\ (v = t
             \/ tag_translations d !! t = Some v
             \/ exists translated j,
                  calls out = [misses tags d]
                  /\ translate apiKey (misses tags d) = Ok translated
                  /\ misses tags d !! j = Some t /\ translated !! j = Some v).
Proof.
  intros out. subst out.
  assert (Hcached : forall i t, tags !! i = Some t ->
            exists v, resolve (getTagTranslations tags d) tags !! i = Some v
              /\ (v = t \/ tag_translations d !! t = Some v)).
  { intros i t Ht. eexists. split; [by apply resolve_lookup|].
    destruct (opt_or_else_cases (getTagTranslations tags d !! t) t) as [E|E]; [by left|].
    right. by apply getTagTranslations_Some in E. }
  destruct (translateTags_ending translate tags apiKey d)
    as [-> | Hne _ | translated Hne Hm _ Htr Hlen
        | translated Hne Hm _ Htr Hlen | e Hne Hm _ Htr]; simpl.
  - split; [done|]. intros i t Ht. by rewrite lookup_nil in Ht.
  - split; [apply length_resolve|]. intros i t Ht.
    destruct (Hcached i t Ht) as (v & Hv & Hc). exists v. tauto.
  - split; [apply length_resolve|]. intros i t Ht.
    eexists. split; [by apply resolve_lookup|].
    set (m := upserts _ _).
    destruct (opt_or_else_cases (m !! t) t) as [E|E]; [by left|].
    right. subst m. apply upserts_Some in E as [E|E].
    + left. by apply getTagTranslations_Some in E.
    + right. apply list_elem_of_lookup in E as [j Hj].
      apply lookup_zip_with_Some in Hj as (x & y & Hxy & Hx & Hy).
      inversion Hxy; subst. exists translated, j. by repeat split.
  - split; [apply length_resolve|]. intros i t Ht.
    destruct (Hcached i t Ht) as (v & Hv & Hc). exists v. tauto.
  - split; [apply length_resolve|]. intros i t Ht.
    destruct (Hcached i t Ht) as (v & Hv & Hc). exists v. tauto.
Qed.

Definition abc : list jsstring := [lit "a"; lit "b"; lit "c"].

(** A cache that knows ["b"] only. *)
Definition db_b : Db :=
  {| games := ∅; play_sessions := []; settings := ∅;
     tag_translations := {[ lit "b" := lit "B" ]} |}.

Definition upper_translator (apiKey : jsstring) (batch : list jsstring)
  : Result (list jsstring) := Ok [lit "A"; lit "C"].

(** The theorem at the specification's scenario, for the cached tag in
    the middle. *)
Lemma translateTags_order_witness :
  returned (translateTags upper_translator abc (lit "sk-1") db_b)
    = [lit "A"; lit "B"; lit "C"]
  /\ exists v, returned (translateTags upper_translator abc (lit "sk-1") db_b) !! 1%nat = Some v
       /\ (v = lit "b"
           \/ tag_translations db_b !! lit "b" = Some v
           \/ exists translated j,
                calls (translateTags upper_translator abc (lit "sk-1") db_b) = [misses abc db_b]
                /\ upper_translator (lit "sk-1") (misses abc db_b) = Ok translated
                /\ misses abc db_b !! j = Some (lit "b") /\ translated !! j = Some v).
Proof.
  split; [vm_compute; reflexivity|].
  apply (proj2 (translateTags_order upper_translator abc (lit "sk-1") db_b) 1%nat (lit "b")).
  reflexivity.
Defined.

(** A translator that returns one translation whatever the batch. *)
Definition short_translator (apiKey : jsstring) (batch : list jsstring)
  : Result (list jsstring) := Ok [lit "A"].

(** C10.  If the translator returns a list whose length differs from the
    length of the uncached batch, the tables are left as they were and
    every tag without a cache row comes back as its own text.  Conversely
    the tables or the result differ from the cache-only answer only if the
    translator returned a list of exactly the length of the batch, and
    then the tables hold the upserts of the batch zipped with that list. *)
Theorem translateTags_length_guard translate tags apiKey d :
  let out := translateTags translate tags apiKey d in
  (forall translated,
      translate apiKey (misses tags d) = Ok translated ->
      length translated <> length (misses tags d) ->
      db_after out = d
      /\ forall i t, tags !! i = Some t -> tag_translations d !! t = None ->
                     returned out !! i = Some t)
  /\ (db_after out <> d
      \/ returned out <> resolve (getTagTranslations tags d) tags ->
      exists translated,
        translate apiKey (misses tags d) = Ok translated
        /\ length translated = length (misses tags d)
        /\ db_after out = setTagTranslations (zip (misses tags d) translated) d).
Proof.
  intros out. subst out.
  assert (Hpass : forall i t, tags !! i = Some t -> tag_translations d !! t = None ->
            resolve (getTagTranslations tags d) tags !! i = Some t).
  { intros i t Ht Hnone. rewrite (resolve_lookup _ _ _ _ Ht).
    rewrite getTagTranslations_lookup by (by eapply list_elem_of_lookup_2).
    by rewrite Hnone. }
  destruct (translateTags_ending translate tags apiKey d)
    as [-> | Hne _ | translated Hne Hm _ Htr Hlen
        | translated Hne Hm _ Htr Hlen | e Hne Hm _ Htr]; simpl.
  - split.
    + intros _ _ _. split; [done|]. intros i t Ht. by rewrite lookup_nil in Ht.
    + intros [H|H]; by destruct H.
  - split; [by intros _ _ _ | intros [H|H]; by destruct H].
  - split.
    + intros tr Htr' Hlen'. congruence.
    + intros _. by exists translated.
  - split; [by intros _ _ _ | intros [H|H]; by destruct H].
  - split; [by intros _ _ _ | intros [H|H]; by destruct H].
Qed.

(** The theorem with a translator that returns one translation for the
    batch of two uncached tags ["a"] and ["c"]. *)
Lemma translateTags_length_guard_witness :
  db_after (translateTags short_translator abc (lit "sk-1") db_b) = db_b
  /\ forall i t, abc !! i = Some t -> tag_translations db_b !! t = None ->
       returned (translateTags short_translator abc (lit "sk-1") db_b) !! i = Some t.
Proof.
  apply (proj1 (translateTags_length_guard short_translator abc (lit "sk-1") db_b)
           [lit "A"]).
  - reflexivity.
  - vm_compute. discriminate.
Defined.

End GatewayClaims.

(** ** Screenshot downloads *)

Section Screenshots.
Import Vndb Enrich.

Variable download : jsstring -> jsstring -> Result jsstring.

(** The download of one screenshot, as the dialogs issue it. *)
Definition fetch (s : VndbImage) : Result jsstring :=
  download (img_url s) (image_filename (img_id s) (img_url s)).

Definition fetched (s : VndbImage) : option jsstring :=
  match fetch s with Ok p => Some p | Err _ => None end.

Definition is_safe (s : VndbImage) : Prop :=
  (img_sexual s < 1)%Qc /\ (img_violence s < 1)%Qc.

Lemma safe_image_is_safe s : safe_image s = true <-> is_safe s.
Proof.
  unfold safe_image, is_safe. by rewrite andb_true_iff, !bool_decide_eq_true.
Qed.

Lemma safe_screenshots_take screenshots :
  safe_screenshots screenshots = take 4 (filter is_safe screenshots).
Proof.
  unfold safe_screenshots. rewrite (slice0_take 4).
  f_equal. apply list_filter_iff, safe_image_is_safe.
Qed.

Lemma settled_fetched (l : list VndbImage) :
  fulfilled_values (allSettled (fetch <$> l)) = omap fetched l.
Proof.
  induction l as [|s l IH]; [done|].
  unfold fulfilled_values, allSettled in *. rewrite !fmap_cons.
  cbn [omap list_omap]. rewrite IH. unfold fetched.
  by destruct (fetch s).
Qed.

Lemma screenshotsPromise_eq screenshots :
  screenshotsPromise download screenshots
  = Ok (omap fetched (take 4 (filter is_safe screenshots))).
Proof.
  unfold screenshotsPromise. destruct screenshots as [|s0 l]; [done|].
  by rewrite settled_fetched, safe_screenshots_take.
Qed.

Lemma omap_all_fetched (l : list VndbImage) (ps : list jsstring) :
  Forall2 (fun s p => fetch s = Ok p) l ps -> omap fetched l = ps.
Proof.
  induction 1 as [|s p l ps Hs _ IH]; [done|].
  assert (Hp : fetched s = Some p) by (unfold fetched; by rewrite Hs).
  cbn [omap list_omap]. by rewrite Hp, IH.
Qed.

(** C8.  The enrichment tries the first four screenshots (at most) among
    those rated below 1 on both scales; it always returns, and it returns
    exactly the paths of the downloads that succeeded, in order.  So when
    one attempted download throws and the others succeed, it returns the
    paths of the others: three paths when four were attempted. *)
Theorem screenshots_resilient (screenshots : list VndbImage) :
  let attempted := take 4 (filter is_safe screenshots) in
  (length attempted <= 4)%nat
  /\ (forall s, s ∈ attempted -> is_safe s /\ s ∈ screenshots)
  /\ exists paths,
       screenshotsPromise download screenshots = Ok paths
       /\ (forall p, p ∈ paths <-> exists s, s ∈ attempted /\ fetch s = Ok p)
       /\ (forall pre s post e ps,
             attempted = pre ++ s :: post ->
             fetch s = Err e ->
             Forall2 (fun x p => fetch x = Ok p) (pre ++ post) ps ->
             paths = ps /\ S (length paths) = length attempted).
Proof.
  intros attempted. split; [|split].
  - subst attempted. rewrite length_take. lia.
  - intros s Hs. apply subseteq_take in Hs.
    apply list_elem_of_filter in Hs. tauto.
  - exists (omap fetched attempted). split; [apply screenshotsPromise_eq|]. split.
    + intros p. rewrite list_elem_of_omap. unfold fetched.
      split; intros (s & Hs & Hp); exists s; (split; [done|]).
      * by destruct (fetch s) as [q|]; inversion Hp.
      * by rewrite Hp.
    + intros pre s post e ps Hatt Hs Hrest. rewrite Hatt.
      apply Forall2_app_inv_l in Hrest as (ps1 & ps2 & H1 & H2 & ->).
      assert (Hnone : fetched s = None) by (unfold fetched; by rewrite Hs).
      rewrite omap_app. cbn [omap list_omap]. rewrite Hnone.
      rewrite (omap_all_fetched _ _ H1), (omap_all_fetched _ _ H2).
      split; [done|]. rewrite !length_app. simpl.
      apply Forall2_length in H1, H2. lia.
Qed.

End Screenshots.

Section ScreenshotsExample.
Import Vndb Enrich.

Definition shot (n : string) (sexual violence : Q) : VndbImage :=
  {| img_id := lit "sf" ++ lit n;
     img_url := lit "https://t.vndb.org/sf/" ++ lit n ++ lit ".jpg";
     img_dims := (1280, 720)%Z;
     img_sexual := Q2Qc sexual; img_violence := Q2Qc violence |}.

(** Six screenshots: the second is rated 1.2 for sexual content, and four
    of the other five are tried. *)
Definition six_shots : list VndbImage :=
  [shot "1" 0 0; shot "2" (12 # 10) 0; shot "3" (1 # 2) 0; shot "4" 0 (9 # 10);
   shot "5" 0 0; shot "6" 0 0].

(** A backend that fails on screenshot 4 and stores every other file
    under its name. *)
Definition flaky_download (url filename : jsstring) : Result jsstring :=
  if bool_decide (filename = lit "sf4.jpg") then Err (lit "connection reset")
  else Ok (lit "/shots/" ++ filename).

(** The theorem where exactly one of the four attempted downloads throws. *)
Lemma screenshots_resilient_witness :
  screenshotsPromise flaky_download six_shots
  = Ok [lit "/shots/sf1.jpg"; lit "/shots/sf3.jpg"; lit "/shots/sf5.jpg"].
Proof.
  destruct (screenshots_resilient flaky_download six_shots)
    as (_ & _ & paths & Hok & _ & Hone).
  rewrite Hok. f_equal.
  apply (Hone [shot "1" 0 0; shot "3" (1 # 2) 0] (shot "4" 0 (9 # 10)) [shot "5" 0 0]
           (lit "connection reset")).
  - vm_compute. reflexivity.
  - reflexivity.
  - repeat constructor.
Defined.

End ScreenshotsExample.

(** ** Bulk matching *)

Section BulkMatching.
Import Vndb Game ScanDialog.

Variable apiKey : jsstring.
Variable world : nat -> Collab.

(** [sep] between each two neighbours of [l]. *)
Fixpoint intersperse {A} (sep : A) (l : list A) : list A :=
  match l with
  | [] => []
  | x :: l' =>
      match l' with
      | [] => [x]
      | _ :: _ => x :: sep :: intersperse sep l'
      end
  end.

(** What item [i] ends as, from what its own processing did. *)
Definition settled (i : nat) (it : ImportItem) : ImportItem :=
  match try_match apiKey (world i) it with
  | Ok f => store_found f (set_matching it)
  | Err e => store_error e (set_matching it)
  end.

(** The items once the indices below [k] are processed. *)
Definition processed (k : nat) (items : list ImportItem) : list ImportItem :=
  imap (fun j it => if decide (j < k)%nat then settled j it else it) items.

(** The events of the iterations [i], ..., [i + left - 1]. *)
Fixpoint segment (total i left : nat) : list (Event) :=
  match left with
  | O => []
  | S left' =>
      (EvMatch i :: if (i <? total - 1)%nat then [EvSleep 500] else [])
      ++ segment total (S i) left'
  end.

Lemma update_at_lookup i f (items : list ImportItem) j :
  update_at i f items !! j
  = (fun it => if decide (j = i) then f it else it) <$> items !! j.
Proof. unfold update_at. by rewrite list_lookup_imap. Qed.

Lemma processed_0 items : processed 0 items = items.
Proof.
  apply list_eq. intros j. unfold processed. rewrite list_lookup_imap.
  destruct (items !! j); [simpl|done]. by destruct (decide (j < 0)%nat); [lia|].
Qed.

Lemma iteration_step items i tr :
  (i < length items)%nat ->
  iteration apiKey world items (length items) i (processed i items, tr)
  = (processed (S i) items,
     tr ++ (EvMatch i :: if (i <? length items - 1)%nat then [EvSleep 500] else [])).
Proof.
  intros Hi. unfold iteration.
  destruct (lookup_lt_is_Some_2 items i Hi) as [item Hitem]. rewrite Hitem.
  assert (Hitems :
    match try_match apiKey (world i) item with
    | Ok f => update_at i (store_found f) (update_at i set_matching (processed i items))
    | Err e => update_at i (store_error e) (update_at i set_matching (processed i items))
    end = processed (S i) items).
  { apply list_eq. intros j.
    assert (Hj : processed (S i) items !! j
                 = (fun it => if decide (j < S i)%nat then settled j it else it) <$> items !! j)
      by (unfold processed; by rewrite list_lookup_imap).
    assert (Hj' : processed i items !! j
                 = (fun it => if decide (j < i)%nat then settled j it else it) <$> items !! j)
      by (unfold processed; by rewrite list_lookup_imap).
    rewrite Hj.
    destruct (try_match apiKey (world i) item) as [f|e] eqn:Htry;
      rewrite !update_at_lookup, Hj';
      (destruct (items !! j) as [it|] eqn:Hit; [simpl|done]);
      (destruct (decide (j = i)) as [->|Hne];
       [ assert (it = item) as -> by congruence;
         destruct (decide (i < i)%nat); [lia|];
         destruct (decide (i < S i)%nat); [|lia];
         unfold settled; by rewrite Htry
       | destruct (decide (j < i)%nat), (decide (j < S i)%nat); try lia; done ]). }
  simpl. destruct (i <? length items - 1)%nat eqn:Hlt.
  - rewrite Hitems. f_equal. by rewrite <- app_assoc.
  - by rewrite Hitems.
Qed.

Lemma loop_spec items left : forall i tr,
  (i + left = length items)%nat ->
  loop apiKey world items (length items) left i (processed i items, tr)
  = (processed (length items) items, tr ++ segment (length items) i left).
Proof.
  induction left as [|left IH]; intros i tr Hlen; cbn [loop segment].
  - rewrite app_nil_r. do 2 f_equal. lia.
  - rewrite iteration_step by lia. rewrite IH by lia.
    f_equal. by rewrite <- app_assoc.
Qed.

Lemma segment_intersperse left : forall i total,
  (i + left = total)%nat ->
  segment total i left = intersperse (EvSleep 500) (EvMatch <$> seq i left).
Proof.
  induction left as [|left IH]; intros i total Hlen; [done|].
  cbn [segment seq fmap list_fmap intersperse].
  rewrite (IH (S i) total) by lia.
  destruct left as [|left'].
  - simpl. destruct (Nat.ltb_spec i (total - 1)); [lia|done].
  - destruct (Nat.ltb_spec i (total - 1)); [done|lia].
Qed.

Lemma startMatching_closed items :
  startMatching apiKey world items
  = (processed (length items) items,
     intersperse (EvSleep 500) (EvMatch <$> seq 0 (length items))).
Proof.
  unfold startMatching. destruct items as [|it0 items'].
  - done.
  - set (items := it0 :: items').
    pose proof (loop_spec items (length items) 0 []) as H.
    rewrite processed_0 in H. rewrite H by lia.
    by rewrite (segment_intersperse _ 0 (length items)).
Qed.

End BulkMatching.

Section BulkMatchingClaim.
Import Vndb Game ScanDialog.

(** The item after an exception with text [e]: marked failed, carrying
    the prefixed text, everything else as it was. *)
Definition failed_with (e : jsstring) (it : ImportItem) : ImportItem :=
  {| detected := detected it; vndb := vndb it; candidates := candidates it;
     coverPath := coverPath it; screenshotPaths := screenshotPaths it;
     translatedDesc := translatedDesc it; translatedTags := translatedTags it;
     status := failed; error := Some (msg_failed_prefix ++ e) |}.

(** C7.  [startMatching] starts on the items one after the other, in
    order, and waits 500 ms between each two of them (not after the last).
    Every item ends up matched or failed.  An item whose processing throws
    ends up failed with the text of the exception, its other fields
    untouched; an item whose processing returns ends up with what was
    found.  What the collaborators do while one item is processed has no
    effect on what any other item ends as. *)
Theorem startMatching_batch (apiKey : jsstring) (world : nat -> Collab)
    (items : list ImportItem) :
  let final := (startMatching apiKey world items).1 in
  let trace := (startMatching apiKey world items).2 in
  trace = intersperse (EvSleep 500) (EvMatch <$> seq 0 (length items))
  /\ length final = length items
  /\ (forall i it, final !! i = Some it -> status it = matched \/ status it = failed)
  /\ (forall i it e, items !! i = Some it ->
        try_match apiKey (world i) it = Err e ->
        final !! i = Some (failed_with e it))
  /\ (forall i it f, items !! i = Some it ->
        try_match apiKey (world i) it = Ok f ->
        final !! i = Some (store_found f it))
  /\ (forall world' i,
        (forall j, j <> i -> world' j = world j) ->
        forall j, j <> i ->
          (startMatching apiKey world' items).1 !! j = final !! j).
Proof.
  intros final trace. subst final trace. rewrite startMatching_closed. simpl.
  assert (Hlook : forall w i, processed apiKey w (length items) items !! i
                          = settled apiKey w i <$> items !! i).
  { intros w i. unfold processed. rewrite list_lookup_imap.
    destruct (items !! i) as [it|] eqn:Hit; [simpl|done].
    apply lookup_lt_Some in Hit. by destruct (decide (i < length items)%nat); [|lia]. }
  repeat apply conj.
  - done.
  - unfold processed. by rewrite length_imap.
  - intros i it. rewrite Hlook. destruct (items !! i) as [it0|]; [simpl|done].
    intros [= <-]. unfold settled.
    destruct (try_match apiKey (world i) it0) as [f|e]; simpl; [|by right].
    destruct (f_vn f); auto.
  - intros i it e Hit Htry. rewrite Hlook, Hit. simpl. unfold settled. by rewrite Htry.
  - intros i it f Hit Htry. rewrite Hlook, Hit. simpl. unfold settled. by rewrite Htry.
  - intros world' i Hsame j Hj. rewrite startMatching_closed. simpl.
    rewrite !Hlook. unfold settled. by rewrite Hsame.
Qed.

End BulkMatchingClaim.

(** ** A worked batch: one folder without a catalog entry, one whose search
    throws, one that matches *)

Section Batch.
Import Vndb Game Enrich ScanDialog.

Definition folder (name : string) : DetectedGame :=
  {| d_title := lit name;
     d_exe_path := lit "D:\games\" ++ lit name ++ lit "\game.exe";
     d_install_path := lit "D:\games\" ++ lit name;
     d_engine := Some (lit "KiriKiri") |}.

Definition game_a : VndbVn :=
  {| vn_id := lit "v17"; vn_title := lit "Game A";
     vn_alttitle := Some geemu_A;
     vn_titles := [mk_title ja geemu_A; mk_title zh_Hans youxi_A];
     vn_released := Some (lit "2010-04-30");
     vn_image := Some (shot "0" 0 0);
     vn_screenshots := [shot "1" 0 0; shot "2" 2 0];
     vn_olang := lit "ja"; vn_languages := [lit "ja"]; vn_platforms := [lit "win"];
     vn_rating := Some (Q2Qc 78); vn_votecount := 1200;
     vn_length_minutes := Some 600%Z;
     vn_description := Some (lit "A story. [From Wikipedia]");
     vn_tags := [mk_tag "Drama" 2 1 "cont"; mk_tag "Romance" (5 # 2) 0 "cont";
                 mk_tag "Nudity" 3 0 "ero"; mk_tag "ADV" (8 # 5) 0 "tech";
                 mk_tag "Maid" 1 0 "cont"];
     vn_developers :=
       [{| prod_id := lit "p1"; prod_name := lit "Studio"; prod_original := None |}] |}.

(** The collaborators of the worked batch. *)
Definition demo : Collab :=
  {| searchVn q :=
       if bool_decide (q = lit "Broken") then Err (lit "Error: VNDB API error (500): down")
       else if bool_decide (q = lit "GameA") then Ok [game_a]
       else Ok [];
     getVnById id := Ok None;
     download_cover url filename := Ok (lit "/covers/" ++ filename);
     download_screenshot url filename := Ok (lit "/shots/" ++ filename);
     translateDescription text key := Ok (lit "<zh> A story.");
     translateTags tags key := Ok ((fun t => lit "<zh> " ++ t) <$> tags) |}.

Definition demo_items : list ImportItem :=
  new_item <$> [folder "UnknownGameXYZ"; folder "Broken"; folder "GameA"].

Definition demo_matched : list ImportItem :=
  (startMatching (lit "sk-1") (fun _ => demo) demo_items).1.

Example demo_statuses :
  status <$> demo_matched = [failed; failed; matched]
  /\ error <$> demo_matched
     = [Some msg_no_match;
        Some (msg_failed_prefix ++ lit "Error: VNDB API error (500): down");
        None].
Proof. split; vm_compute; reflexivity. Qed.

(** C7 on the worked batch: the search for the second folder throws. *)
Lemma startMatching_batch_witness :
  demo_matched !! 1%nat
  = Some (failed_with (lit "Error: VNDB API error (500): down")
            (new_item (folder "Broken"))).
Proof.
  destruct (startMatching_batch (lit "sk-1") (fun _ => demo) demo_items)
    as (_ & _ & _ & Hthrow & _).
  apply (Hthrow 1%nat (new_item (folder "Broken"))
           (lit "Error: VNDB API error (500): down")).
  - reflexivity.
  - reflexivity.
Defined.

End Batch.

(** ** Commit *)

Section Commit.
Import Vndb Game Markup ScanDialog.

Lemma handleImport_one_per_item (items : list ImportItem) :
  length (handleImport items) = length items
  /\ forall i it, items !! i = Some it ->
       handleImport items !! i = Some (import_record it).
Proof.
  unfold handleImport. split; [by rewrite length_fmap|].
  intros i it Hit. by rewrite list_lookup_fmap, Hit.
Qed.

(** The record of a folder alone: nothing but what the scan detected. *)
Definition folder_record (g : DetectedGame) : GameFormData :=
  {| title := d_title g; title_original := []; vndb_id := []; developer := [];
     release_date := []; exe_path := d_exe_path g;
     install_path := d_install_path g; save_path := []; cover_path := [];
     screenshots := []; tags := []; play_status := unplayed; rating := 0%Qc;
     vndb_rating := 0%Qc; vndb_votecount := None; length_minutes := None;
     notes := []; engine := opt_or_else (d_engine g) [] |}.

(** An item the catalog never matched (new, or searched without result)
    is imported from the folder alone. *)
Lemma import_record_never_matched (it : ImportItem) :
  vndb it = None -> coverPath it = [] -> screenshotPaths it = [] ->
  translatedDesc it = [] -> translatedTags it = [] ->
  import_record it = folder_record (detected it).
Proof.
  intros Hv Hc Hs Hd Ht. unfold import_record, folder_record.
  by rewrite Hv, Hc, Hs, Hd, Ht.
Qed.

(** A search that returns no candidate leaves an item of that kind. *)
Lemma no_candidate_import apiKey (c : Collab) (it : ImportItem) :
  searchVn c (d_title (detected it)) = Ok [] ->
  exists f, try_match apiKey c it = Ok f
    /\ status (store_found f it) = failed
    /\ error (store_found f it) = Some msg_no_match
    /\ import_record (store_found f it) = folder_record (detected it).
Proof.
  intros Hs. unfold try_match. rewrite Hs. simpl. eexists. split; [reflexivity|].
  by repeat split.
Qed.

(** A matched item: the tag field is the translated list when it is not
    empty, else the extracted tags. *)
Lemma import_record_tags (it : ImportItem) (vn : VndbVn) :
  vndb it = Some vn ->
  tags (import_record it)
  = match translatedTags it with
    | [] => extractTags_default (vn_tags vn)
    | _ :: _ => translatedTags it
    end.
Proof.
  intros Hv. unfold import_record. rewrite Hv. simpl.
  by destruct (translatedTags it).
Qed.

(** What [clearMatch] leaves of a match and what the commit makes of it:
    the catalog fields read from the record are gone, the screenshot
    paths, the description and the tags of the cleared match stay. *)
Lemma import_record_cleared (it : ImportItem) :
  import_record (clear_item it)
  = {| title := d_title (detected it); title_original := []; vndb_id := [];
       developer := []; release_date := [];
       exe_path := d_exe_path (detected it);
       install_path := d_install_path (detected it); save_path := [];
       cover_path := [];
       screenshots := screenshotPaths it;
       tags := translatedTags it;
       play_status := unplayed; rating := 0%Qc; vndb_rating := 0%Qc;
       vndb_votecount := None; length_minutes := None;
       notes := translatedDesc it;
       engine := opt_or_else (d_engine (detected it)) [] |}.
Proof.
  unfold import_record, clear_item. simpl. f_equal.
  - by destruct (translatedTags it).
  - unfold or_else. by destruct (translatedDesc it).
Qed.

(** The worked batch after the user clears the match of its third item. *)
Definition demo_cleared : list ImportItem := clearMatch (Some 2%nat) demo_matched.

(** C1 at the failing input.  The third folder of the worked batch was
    matched and then cleared by hand; its item has no catalog record and
    status failed, yet the record the commit builds for it still carries
    the screenshot path, the translated tags and the translated
    description of the cleared match. *)
Theorem cleared_match_imports_stale_enrichment :
  (vndb <$> demo_cleared !! 2%nat) = Some None
  /\ (status <$> demo_cleared !! 2%nat) = Some failed
  /\ (error <$> demo_cleared !! 2%nat) = Some (Some msg_skipped)
  /\ (vndb_id <$> handleImport demo_cleared !! 2%nat) = Some []
  /\ (cover_path <$> handleImport demo_cleared !! 2%nat) = Some []
  /\ (screenshots <$> handleImport demo_cleared !! 2%nat)
     = Some [lit "/shots/sf1.jpg"]
  /\ (tags <$> handleImport demo_cleared !! 2%nat)
     = Some [lit "<zh> Romance"; lit "<zh> ADV"]
  /\ (notes <$> handleImport demo_cleared !! 2%nat) = Some (lit "<zh> A story.")
  /\ handleImport demo_cleared !! 2%nat <> Some (folder_record (folder "GameA")).
Proof.
  repeat apply conj; try (vm_compute; reflexivity).
  vm_compute. discriminate.
Qed.

End Commit.

(** ** Play time *)

Section Playtime.
Import Game Database.

Variable stringify : list jsstring -> jsstring.
Variable foreign_keys : bool.

(** The calls that change the tables. *)
Inductive Op :=
| OpAddGame (id now : jsstring) (data : GameFormData)
| OpUpdateGame (id : jsstring) (data : list (FormKey * FormValue)) (now : jsstring)
| OpDeleteGame (id : jsstring)
| OpAddPlaySession (id now gameId startTime endTime : jsstring) (duration : Z).

Definition run_op (op : Op) (d : Db) : Db :=
  match op with
  | OpAddGame id now data => addGame stringify id now data d
  | OpUpdateGame id data now => updateGame stringify id data now d
  | OpDeleteGame id => deleteGame foreign_keys id d
  | OpAddPlaySession id now gameId startTime endTime duration =>
      addPlaySession foreign_keys id now gameId startTime endTime duration d
  end.

Definition run (ops : list Op) (d : Db) : Db :=
  foldl (fun d op => run_op op d) d ops.

(** The rows of [play_sessions] that belong to game [gid]. *)
Definition sessions_of (gid : jsstring) (d : Db) : list Session :=
  filter (fun s => s_game_id s = gid) (play_sessions d).

Definition sum_durations (rows : list Session) : Z :=
  foldr (fun s acc => s_duration s + acc)%Z 0%Z rows.

(** The identifiers the session inserts of [ops] draw. *)
Definition session_ids (ops : list Op) : list jsstring :=
  omap (fun op => match op with
                  | OpAddPlaySession id _ _ _ _ _ => Some id
                  | _ => None
                  end) ops.

(** The rows the session inserts of [ops] for game [gid] write, in order. *)
Definition row_for (gid : jsstring) (op : Op) : option Session :=
  match op with
  | OpAddPlaySession id _ gameId startTime endTime duration =>
      if decide (gameId = gid)
      then Some {| s_id := id; s_game_id := gameId; s_start_time := startTime;
                   s_end_time := endTime; s_duration := duration |}
      else None
  | _ => None
  end.

Definition rows_for (gid : jsstring) (ops : list Op) : list Session :=
  omap (row_for gid) ops.

Lemma sum_durations_app rows1 rows2 :
  sum_durations (rows1 ++ rows2) = (sum_durations rows1 + sum_durations rows2)%Z.
Proof.
  unfold sum_durations. induction rows1 as [|s rows1 IH]; simpl; [done|].
  rewrite IH. lia.
Qed.

Lemma key_name_not_total (k : FormKey) : key_name k <> "total_playtime"%string.
Proof. by destruct k. Qed.

Lemma apply_sets_total data now (row : gmap string SqlValue) :
  apply_sets stringify data now row !! "total_playtime"%string
  = row !! "total_playtime"%string.
Proof.
  unfold apply_sets. rewrite lookup_insert_ne by done.
  revert row. induction data as [|[k v] data IH]; intros row; [done|].
  simpl. rewrite IH. destruct v; try done;
    by rewrite lookup_insert_ne by apply key_name_not_total.
Qed.

(** Game [gid] has a row, its total is [n], and its sessions are [rows]. *)
Definition tracks (gid : jsstring) (d : Db) (n : Z) (rows : list Session) : Prop :=
  total_playtime gid d = Some (SqlInt n) /\ sessions_of gid d = rows.

Lemma total_playtime_Some gid d n :
  total_playtime gid d = Some (SqlInt n) ->
  exists row, games d !! gid = Some row
              /\ row !! "total_playtime"%string = Some (SqlInt n).
Proof.
  unfold total_playtime. destruct (games d !! gid) as [row|]; [|done].
  simpl. eauto.
Qed.

Lemma addGame_tracks gid now data d :
  games d !! gid = None -> sessions_of gid d = [] ->
  tracks gid (addGame stringify gid now data d) 0 [].
Proof.
  intros Hfresh Hnone. unfold tracks, addGame. rewrite Hfresh. split; [|done].
  unfold total_playtime. cbn [games set_games]. rewrite lookup_insert_eq.
  cbn [mbind option_bind list_to_map foldr fst snd curry uncurry].
  repeat (rewrite lookup_insert_ne by discriminate).
  by rewrite lookup_insert_eq.
Qed.

(** One call other than the deletion of [gid]: the total of [gid] grows by
    the duration of the call when it is a session insert for [gid], and
    stays as it is otherwise. *)
Lemma run_op_tracks gid d n rows op :
  tracks gid d n rows ->
  op <> OpDeleteGame gid ->
  (forall sid, sid ∈ session_ids [op] -> sid ∉ s_id <$> play_sessions d) ->
  tracks gid (run_op op d)
    (n + sum_durations (rows_for gid [op])) (rows ++ rows_for gid [op]).
Proof.
  intros [Htot Hrows] Hdel Hfresh.
  destruct (total_playtime_Some _ _ _ Htot) as (row & Hrow & Hn).
  destruct op as [id now data | id data now | id | id now g st en dur];
    unfold rows_for; cbn [run_op omap list_omap row_for].
  - (* addGame *)
    rewrite Z.add_0_r, app_nil_r. unfold addGame.
    destruct (games d !! id) eqn:Hid; [done|].
    assert (id <> gid) by congruence.
    split; [|done]. unfold total_playtime. cbn [games set_games].
    rewrite lookup_insert_ne by done. by rewrite Hrow.
  - (* updateGame *)
    rewrite Z.add_0_r, app_nil_r. unfold updateGame.
    destruct (games d !! id) as [r|] eqn:Hid; [|done].
    split; [|done]. unfold total_playtime. simpl.
    destruct (decide (id = gid)) as [->|Hne].
    + rewrite lookup_insert_eq. simpl. rewrite apply_sets_total.
      assert (r = row) as -> by congruence. done.
    + rewrite lookup_insert_ne by done. by rewrite Hrow.
  - (* deleteGame of another game *)
    rewrite Z.add_0_r, app_nil_r. assert (id <> gid) by congruence.
    unfold deleteGame. split.
    + unfold total_playtime.
      destruct foreign_keys; simpl; rewrite lookup_delete_ne by done; by rewrite Hrow.
    + destruct foreign_keys; [|done]. unfold sessions_of in *. simpl.
      rewrite <- Hrows. rewrite list_filter_filter.
      apply list_filter_iff. intros s. split; [tauto|]. intros E. split; congruence.
  - (* addPlaySession *)
    unfold addPlaySession.
    assert (Hid : bool_decide (id ∈ s_id <$> play_sessions d) = false).
    { apply bool_decide_eq_false. apply Hfresh. simpl. left. }
    rewrite Hid. simpl.
    destruct (decide (g = gid)) as [->|Hne].
    + assert (Hex : bool_decide (games d !! gid = None) = false)
        by (apply bool_decide_eq_false; congruence).
      rewrite Hex, andb_false_r, Hrow. split.
      * unfold total_playtime. simpl. rewrite lookup_insert_eq. simpl.
        rewrite lookup_insert_ne by done. rewrite lookup_insert_eq.
        rewrite Hn. simpl. do 3 f_equal. unfold sum_durations. simpl. lia.
      * unfold sessions_of in *. simpl. rewrite filter_app, Hrows. f_equal.
        rewrite filter_cons. simpl. by destruct (decide (gid = gid)).
    + rewrite Z.add_0_r, app_nil_r.
      destruct (foreign_keys && bool_decide (games d !! g = None)); [done|].
      assert (Hs : sessions_of gid
                (set_play_sessions
                   (play_sessions d ++
                      [{| s_id := id; s_game_id := g; s_start_time := st;
                          s_end_time := en; s_duration := dur |}]) d) = rows).
      { unfold sessions_of in *. simpl. rewrite filter_app, Hrows.
        rewrite filter_cons. simpl. destruct (decide (g = gid)); [done|].
        by rewrite filter_nil, app_nil_r. }
      destruct (games d !! g) as [r|] eqn:Hg.
      * split; [|exact Hs]. unfold total_playtime. simpl.
        rewrite lookup_insert_ne by done. by rewrite Hrow.
      * split; [|exact Hs]. unfold total_playtime. simpl. by rewrite Hrow.
Qed.

(** The identifiers in [play_sessions] after a call were there before or
    are the one the call drew. *)
Lemma run_op_ids op d sid :
  sid ∈ s_id <$> play_sessions (run_op op d) ->
  sid ∈ s_id <$> play_sessions d \/ sid ∈ session_ids [op].
Proof.
  destruct op as [id now data | id data now | id | id now g st en dur]; simpl.
  - unfold addGame. destruct (games d !! id); auto.
  - unfold updateGame. destruct (games d !! id); auto.
  - unfold deleteGame. destruct foreign_keys; simpl; [|auto].
    intros H. left. apply list_elem_of_fmap in H as (s & -> & Hs).
    apply list_elem_of_filter in Hs as [_ Hs]. apply list_elem_of_fmap. eauto.
  - unfold addPlaySession.
    destruct (bool_decide (id ∈ s_id <$> play_sessions d)
              || foreign_keys && bool_decide (games d !! g = None)); [auto|].
    assert (Hps : forall d', play_sessions d' = play_sessions d ++
               [{| s_id := id; s_game_id := g; s_start_time := st;
                   s_end_time := en; s_duration := dur |}] ->
             sid ∈ s_id <$> play_sessions d' ->
             sid ∈ s_id <$> play_sessions d \/ sid ∈ [id]).
    { intros d' -> H. rewrite fmap_app in H. apply elem_of_app in H as [H|H]; auto. }
    destruct (games _ !! g); apply Hps; done.
Qed.

Lemma session_ids_cons op ops :
  session_ids (op :: ops) = session_ids [op] ++ session_ids ops.
Proof. unfold session_ids. apply (omap_app _ [op] ops). Qed.

Lemma rows_for_cons gid op ops :
  rows_for gid (op :: ops) = rows_for gid [op] ++ rows_for gid ops.
Proof. unfold rows_for. apply (omap_app _ [op] ops). Qed.

Lemma run_tracks gid ops : forall d n rows,
  tracks gid d n rows ->
  Forall (fun op => op <> OpDeleteGame gid) ops ->
  NoDup (session_ids ops) ->
  (forall sid, sid ∈ session_ids ops -> sid ∉ s_id <$> play_sessions d) ->
  tracks gid (run ops d)
    (n + sum_durations (rows_for gid ops)) (rows ++ rows_for gid ops).
Proof.
  induction ops as [|op ops IH]; intros d n rows Ht Hdel Hnd Hfresh.
  - simpl. by rewrite Z.add_0_r, app_nil_r.
  - rewrite session_ids_cons in Hnd, Hfresh. rewrite rows_for_cons.
    apply NoDup_app in Hnd as (Hnd1 & Hdisj & Hnd2).
    inversion Hdel as [|? ? Hdel1 Hdel2]; subst.
    rewrite sum_durations_app, Z.add_assoc, app_assoc.
    change (run (op :: ops) d) with (run ops (run_op op d)).
    apply IH; auto.
    + apply run_op_tracks; auto.
      intros sid Hsid. apply Hfresh. apply elem_of_app. by left.
    + intros sid Hsid Hin. apply run_op_ids in Hin as [Hin|Hin].
      * eapply Hfresh; [|exact Hin]. apply elem_of_app. by right.
      * by apply (Hdisj sid).
Qed.

(** C9.  Create game [gid], then run any calls against the tables that do
    not delete it (session inserts for it and for other games, additions,
    updates and deletions of games), each session insert with an
    identifier of its own.  The game starts with total 0; afterwards its
    sessions are exactly the rows the session inserts for it wrote, and
    its total is the sum of their durations. *)
Theorem playtime_total (d0 : Db) (gid now : jsstring) (data : GameFormData)
    (ops : list Op) :
  games d0 !! gid = None ->
  sessions_of gid d0 = [] ->
  Forall (fun op => op <> OpDeleteGame gid) ops ->
  NoDup (session_ids ops) ->
  (forall sid, sid ∈ session_ids ops -> sid ∉ s_id <$> play_sessions d0) ->
  let d1 := addGame stringify gid now data d0 in
  total_playtime gid d1 = Some (SqlInt 0)
  /\ sessions_of gid (run ops d1) = rows_for gid ops
  /\ total_playtime gid (run ops d1)
     = Some (SqlInt (sum_durations (rows_for gid ops))).
Proof.
  intros Hfresh Hnone Hdel Hnd Hids d1.
  pose proof (addGame_tracks gid now data d0 Hfresh Hnone) as Ht.
  fold d1 in Ht. split; [apply Ht|].
  assert (Hps : play_sessions d1 = play_sessions d0).
  { subst d1. unfold addGame. by rewrite Hfresh. }
  destruct (run_tracks gid ops d1 0 [] Ht Hdel Hnd) as [Htot Hrows].
  { intros sid Hsid. rewrite Hps. by apply Hids. }
  by split.
Qed.

End Playtime.

Section PlaytimeExample.
Import Game Database.

(** A stand-in for [JSON.stringify] on arrays of strings. *)
Definition demo_stringify (l : list jsstring) : jsstring :=
  lit "[" ++ join (lit ",") l ++ lit "]".

Definition blank_form (name : string) : GameFormData :=
  {| title := lit name; title_original := []; vndb_id := []; developer := [];
     release_date := []; exe_path := []; install_path := []; save_path := [];
     cover_path := []; screenshots := []; tags := []; play_status := unplayed;
     rating := 0%Qc; vndb_rating := 0%Qc; vndb_votecount := None;
     length_minutes := None; notes := []; engine := [] |}.

Definition t0 : jsstring := lit "2026-01-01T10:00:00.000Z".
Definition t1 : jsstring := lit "2026-01-01T11:00:00.000Z".

(** Two sessions of game [g1] (60 s and 90 s) among an edit of [g1] and
    the life of another game with a session of its own. *)
Definition demo_ops : list Op :=
  [ OpAddPlaySession (lit "s1") t1 (lit "g1") t0 t1 60;
    OpUpdateGame (lit "g1") [(k_title, FvStr (lit "New title")); (k_rating, FvNum (Q2Qc 8))] t1;
    OpAddGame (lit "g2") t1 (blank_form "Other");
    OpAddPlaySession (lit "s2") t1 (lit "g2") t0 t1 1000;
    OpAddPlaySession (lit "s3") t1 (lit "g1") t0 t1 90;
    OpDeleteGame (lit "g2") ].

(** C9 on these calls: the total of [g1] is 60 + 90. *)
Lemma playtime_total_witness :
  total_playtime (lit "g1")
    (run demo_stringify true demo_ops
       (addGame demo_stringify (lit "g1") t0 (blank_form "Mine") empty_db))
  = Some (SqlInt 150).
Proof.
  destruct (playtime_total demo_stringify true empty_db (lit "g1") t0
              (blank_form "Mine") demo_ops) as (_ & _ & Htotal).
  - reflexivity.
  - reflexivity.
  - repeat constructor; discriminate.
  - apply (bool_decide_unpack (NoDup (session_ids demo_ops))). vm_compute. exact I.
  - intros sid _ Hin. simpl in Hin. inversion Hin.
  - rewrite Htotal. vm_compute. reflexivity.
Defined.

End PlaytimeExample.

(** ** Markup cleaning *)

Section RegexFacts.
Import Regex.

Implicit Types (s rest : jsstring) (c : N).

(** The same text up to the case of ASCII letters. *)
Definition same_fold (p l : jsstring) : Prop :=
  Forall2 (fun a c => canon a = canon c) p l.

Lemma canon_bracket c : canon c = 91 -> c = 91.
Proof.
  unfold canon. destruct (N.leb_spec 97 c), (N.leb_spec c 122); simpl; lia.
Qed.

Lemma canon_letter c v :
  canon c = v -> 65 <= v <= 90 -> c = v \/ c = v + 32.
Proof.
  unfold canon. destruct (N.leb_spec 97 c), (N.leb_spec c 122); simpl; lia.
Qed.

Lemma canon_other c v : canon c = v -> (v < 65 \/ 90 < v) -> c = v.
Proof.
  unfold canon. destruct (N.leb_spec 97 c), (N.leb_spec c 122); simpl; lia.
Qed.

Lemma m_lit_exact p rest : m_lit false p (p ++ rest) = Some rest.
Proof.
  induction p as [|a p IH]; [done|]. simpl. by rewrite N.eqb_refl.
Qed.

Lemma m_lit_fold p l rest : same_fold p l -> m_lit true p (l ++ rest) = Some rest.
Proof.
  induction 1 as [|a c p l Hac _ IH]; [done|]. simpl.
  unfold chr_eqb. rewrite Hac, N.eqb_refl. exact IH.
Qed.

(** A greedy star stops where the class stops, when the continuation
    succeeds there. *)
Lemma m_starG_stop {R} (cls : N -> bool) (x rest : jsstring)
    (k : jsstring -> option R) (r : R) :
  Forall (fun c => cls c = true) x ->
  match rest with c :: _ => cls c = false | [] => True end ->
  k rest = Some r ->
  m_starG cls (x ++ rest) k = Some r.
Proof.
  intros Hx Hrest Hk. induction Hx as [|c x Hc _ IH].
  - destruct rest as [|c rest']; simpl; [done|]. by rewrite Hrest.
  - simpl. by rewrite Hc, IH.
Qed.

(** A lazy star walks over the characters at which the continuation
    fails, up to the first place where it succeeds. *)
Lemma m_starL_stop {R} (cls : N -> bool) (b rest : jsstring)
    (k : jsstring -> option R) (r : R) :
  Forall (fun c => cls c = true) b ->
  (forall b1 c b2, b = b1 ++ c :: b2 -> k (c :: b2 ++ rest) = None) ->
  k rest = Some r ->
  m_starL cls (b ++ rest) k = Some r.
Proof.
  intros Hb. revert k. induction Hb as [|c b Hc _ IH]; intros k Hfail Hk.
  - destruct rest; simpl; by rewrite Hk.
  - simpl. rewrite (Hfail [] c b eq_refl), Hc. apply IH; [|done].
    intros b1 c' b2 ->. apply (Hfail (c :: b1) c' b2). done.
Qed.

Lemma take_captured (x rest : jsstring) :
  take (length (x ++ rest) - length rest) (x ++ rest) = x.
Proof.
  rewrite length_app. replace (length x + length rest - length rest)%nat
    with (length x) by lia. by rewrite take_app_length.
Qed.

Section Replace.
Variables (ci : bool) (r : re) (sub : list jsstring -> jsstring).

Lemma replace_go_skip (m rest : jsstring) :
  replace_go ci r sub (length m) (m ++ rest) = replace_go ci r sub 0 rest.
Proof. induction m as [|c m IH]; [done|]. exact IH. Qed.

(** A match at the front is replaced, and the scan resumes behind it. *)
Lemma replace_go_match (m rest : jsstring) (caps : list jsstring) :
  m <> [] ->
  exec ci r (m ++ rest) = Some (caps, rest) ->
  replace_go ci r sub 0 (m ++ rest) = sub caps ++ replace_go ci r sub 0 rest.
Proof.
  intros Hm Hexec. destruct m as [|c m]; [done|].
  change ((c :: m) ++ rest) with (c :: (m ++ rest)) in *.
  cbn [replace_go]. rewrite Hexec.
  assert (Hlt : (length rest <? length (c :: m ++ rest))%nat = true).
  { apply Nat.ltb_lt. simpl. rewrite length_app. lia. }
  rewrite Hlt. f_equal.
  replace (length (m ++ rest) - length rest)%nat with (length m)
    by (rewrite length_app; lia).
  apply replace_go_skip.
Qed.

(** The patterns of the cleaners start with an opening bracket and a
    second literal character [h2]. *)
Variable h2 : N.
Hypothesis headed : exists p r', r = Cat (Lit (91 :: h2 :: p)) r'.

Lemma exec_nil : exec ci r [] = None.
Proof. destruct headed as (p & r' & ->). done. Qed.

Lemma exec_not_bracket c s : c <> 91 -> exec ci r (c :: s) = None.
Proof.
  intros Hc. destruct headed as (p & r' & ->). unfold exec. simpl.
  assert (chr_eqb ci 91 c = false) as ->; [|done].
  unfold chr_eqb. destruct ci; apply N.eqb_neq; [|done].
  intros E. apply Hc. symmetry in E. by apply canon_bracket.
Qed.

Lemma exec_other_tag c2 s :
  chr_eqb ci h2 c2 = false -> exec ci r (91 :: c2 :: s) = None.
Proof.
  intros Hc. destruct headed as (p & r' & ->). unfold exec. simpl.
  rewrite Hc. by destruct (chr_eqb ci 91 91).
Qed.

(** No match of the pattern starts inside [s]: every opening bracket of
    [s] is followed, in [s], by a character other than [h2]. *)
Fixpoint quiet (s : jsstring) : Prop :=
  match s with
  | [] => True
  | c :: s' =>
      (c = 91 -> match s' with
                 | c2 :: _ => chr_eqb ci h2 c2 = false
                 | [] => False
                 end)
      /\ quiet s'
  end.

Lemma quiet_app s1 s2 : quiet s1 -> quiet s2 -> quiet (s1 ++ s2).
Proof.
  induction s1 as [|c s1 IH]; [done|]. intros [Hc H1] H2. split; [|by apply IH].
  intros E. specialize (Hc E). by destruct s1.
Qed.

Lemma quiet_copy s rest :
  quiet s -> replace_go ci r sub 0 (s ++ rest) = s ++ replace_go ci r sub 0 rest.
Proof.
  induction s as [|c s IH]; [done|]. intros [Hc Hs].
  change ((c :: s) ++ rest) with (c :: (s ++ rest)).
  cbn [replace_go]. destruct (decide (c = 91)) as [->|Hne].
  - specialize (Hc eq_refl). destruct s as [|c2 s]; [done|].
    change (91 :: (c2 :: s) ++ rest) with (91 :: c2 :: (s ++ rest)).
    rewrite exec_other_tag by done.
    change (c2 :: s ++ rest) with ((c2 :: s) ++ rest). by rewrite IH.
  - rewrite exec_not_bracket by done. by rewrite IH.
Qed.

End Replace.

End RegexFacts.

Section Pieces.
Import Regex Markup.

(** A description as a sequence of plain text and markup elements. *)
Inductive Piece :=
| Text (s : jsstring)
| Url (x y : jsstring)
| Spoiler (b : jsstring)
| Raw (b : jsstring)
| Code (b : jsstring)
| Edited (l x : jsstring)
| From (l x : jsstring).

(** The text of a piece in the description; [l] is the opening of an
    annotation as it is spelled there. *)
Definition render (p : Piece) : jsstring :=
  match p with
  | Text s => s
  | Url x y => lit "[url=" ++ x ++ lit "]" ++ y ++ lit "[/url]"
  | Spoiler b => lit "[spoiler]" ++ b ++ lit "[/spoiler]"
  | Raw b => lit "[raw]" ++ b ++ lit "[/raw]"
  | Code b => lit "[code]" ++ b ++ lit "[/code]"
  | Edited l x => l ++ x ++ lit "]"
  | From l x => l ++ x ++ lit "]"
  end.

Definition source (ps : list Piece) : jsstring := concat (render <$> ps).

(** What a cleaner that puts [spoiler] in place of spoiler blocks makes of
    a piece. *)
Definition image (spoiler : jsstring) (p : Piece) : jsstring :=
  match p with
  | Text s => s
  | Url _ y => y
  | Spoiler _ => spoiler
  | Raw b => b
  | Code b => b
  | Edited _ _ => []
  | From _ _ => []
  end.

(** No opening bracket; no closing bracket. *)
Definition plainb (s : jsstring) : bool := forallb (fun c => negb (c =? 91)) s.
Definition no_rbb (s : jsstring) : bool := forallb (fun c => negb (c =? 93)) s.

(** The characters that follow the opening bracket in the six patterns:
    u, s, r, c, and E, F in either case. *)
Definition tag_start (c : N) : bool :=
  existsb (N.eqb c) [117; 115; 114; 99; 69; 101; 70; 102].

(** Every opening bracket is followed by a character that starts none of
    the six tags: text none of the patterns can match in. *)
Fixpoint inertb (s : jsstring) : bool :=
  match s with
  | [] => true
  | c :: s' =>
      (if c =? 91
       then match s' with c2 :: _ => negb (tag_start c2) | [] => false end
       else true)
      && inertb s'
  end.

Fixpoint same_foldb (p l : jsstring) : bool :=
  match p, l with
  | [], [] => true
  | a :: p', c :: l' => (canon a =? canon c) && same_foldb p' l'
  | _, _ => false
  end.

(** The pieces the theorem covers: text without a tag opening; a link
    whose target has no bracket and whose label has no opening bracket; a
    spoiler, raw or code block whose body has no opening bracket; an
    annotation spelled in any case whose body has no bracket. *)
Definition well_formed (p : Piece) : bool :=
  match p with
  | Text s => inertb s
  | Url x y => plainb x && no_rbb x && plainb y
  | Spoiler b | Raw b | Code b => plainb b
  | Edited l x => same_foldb (lit "[Edited from ") l && plainb x && no_rbb x
  | From l x => same_foldb (lit "[From ") l && plainb x && no_rbb x
  end.

Fixpoint quietb (ci : bool) (h2 : N) (s : jsstring) : bool :=
  match s with
  | [] => true
  | c :: s' =>
      (if c =? 91
       then match s' with c2 :: _ => negb (chr_eqb ci h2 c2) | [] => false end
       else true)
      && quietb ci h2 s'
  end.

Lemma quietb_quiet ci h2 s : quietb ci h2 s = true -> quiet ci h2 s.
Proof.
  induction s as [|c s IH]; [done|]. simpl. intros [Hc Hs]%andb_true_iff.
  split; [|by apply IH]. intros ->. simpl in Hc.
  destruct s as [|c2 s]; [done|]. by apply negb_true_iff.
Qed.

Lemma plainb_Forall s : plainb s = true -> Forall (fun c => c <> 91) s.
Proof.
  unfold plainb. rewrite forallb_forall. intros H. apply Forall_forall.
  intros c Hc%list_elem_of_In%H. by apply negb_true_iff, N.eqb_neq in Hc.
Qed.

Lemma no_rbb_Forall s : no_rbb s = true -> Forall (fun c => not_rbracket c = true) s.
Proof.
  unfold no_rbb. rewrite forallb_forall. intros H. apply Forall_forall.
  intros c Hc%list_elem_of_In%H. done.
Qed.

Lemma plainb_not_lbracket s :
  plainb s = true -> Forall (fun c => not_lbracket c = true) s.
Proof.
  unfold plainb. rewrite forallb_forall. intros H. apply Forall_forall.
  intros c Hc%list_elem_of_In%H. done.
Qed.

Lemma plain_quiet ci h2 s : plainb s = true -> quiet ci h2 s.
Proof.
  intros H%plainb_Forall. induction H as [|c s Hc _ IH]; [done|].
  split; [done|exact IH].
Qed.

Lemma plain_inert s : plainb s = true -> inertb s = true.
Proof.
  induction s as [|c s IH]; [done|]. simpl. intros [Hc Hs]%andb_true_iff.
  apply negb_true_iff in Hc. rewrite Hc. simpl. by apply IH.
Qed.

(** The six heads: case-sensitive u, s, r, c; case-insensitive E, F. *)
Definition is_head (ci : bool) (h2 : N) : Prop :=
  (ci = false /\ (h2 = 117 \/ h2 = 115 \/ h2 = 114 \/ h2 = 99))
  \/ (ci = true /\ (h2 = 69 \/ h2 = 70)).

Lemma head_not_tag_start ci h2 c :
  is_head ci h2 -> tag_start c = false -> chr_eqb ci h2 c = false.
Proof.
  intros Hh Hc. unfold tag_start in Hc. simpl in Hc.
  repeat (apply orb_false_iff in Hc as [?%N.eqb_neq Hc]).
  destruct Hh as [[-> Hh] | [-> Hh]]; unfold chr_eqb.
  - apply N.eqb_neq. intros <-. destruct Hh as [?|[?|[?|?]]]; done.
  - apply N.eqb_neq. intros E.
    destruct Hh as [-> | ->];
      [change (canon 69) with 69 in E | change (canon 70) with 70 in E];
      symmetry in E; apply canon_letter in E; lia.
Qed.

Lemma inert_quiet ci h2 s : is_head ci h2 -> inertb s = true -> quiet ci h2 s.
Proof.
  intros Hh. induction s as [|c s IH]; [done|]. simpl.
  intros [Hc Hs]%andb_true_iff. split; [|by apply IH]. intros ->. simpl in Hc.
  destruct s as [|c2 s]; [done|]. apply negb_true_iff in Hc.
  by apply head_not_tag_start.
Qed.

Lemma same_foldb_fold p l : same_foldb p l = true -> same_fold p l.
Proof.
  revert l. induction p as [|a p IH]; intros [|c l]; simpl; try done.
  - constructor.
  - intros [Hac Hl]%andb_true_iff. constructor; [by apply N.eqb_eq|by apply IH].
Qed.

(** The opening of an annotation, in any spelling, is quiet for every
    pattern whose second character differs from its own up to case. *)
Lemma fold_quiet ci h2 a1 p l :
  same_fold (91 :: a1 :: p) l ->
  Forall (fun a => canon a <> 91) (a1 :: p) ->
  (forall c, canon a1 = canon c -> chr_eqb ci h2 c = false) ->
  quiet ci h2 l.
Proof.
  intros Hl Hp Hh. inversion Hl as [|? c0 ? l0 H0 Hl0]; subst.
  assert (c0 = 91) as -> by (apply canon_bracket; by rewrite <- H0).
  assert (Hrest : forall q l', same_fold q l' -> Forall (fun a => canon a <> 91) q ->
                               quiet ci h2 l').
  { clear. intros q l' H. induction H as [|a c q l' Hac _ IH]; [done|].
    intros Hq. apply Forall_cons in Hq as [Ha Hq]. split; [|by apply IH].
    intros ->. exfalso. apply Ha. exact Hac. }
  split; [|by apply (Hrest (a1 :: p))].
  intros _. inversion Hl0; subst. by apply Hh.
Qed.

End Pieces.

Section Patterns.
Import Regex Markup.

Lemma exec_url x y rest :
  no_rbb x = true -> plainb y = true ->
  exec false re_url (render (Url x y) ++ rest) = Some ([x; y], rest).
Proof.
  intros Hx Hy. unfold exec, re_url, render. rewrite <- !app_assoc.
  cbn [run]. rewrite m_lit_exact.
  apply m_starG_stop; [by apply no_rbb_Forall | done |].
  rewrite m_lit_exact, take_captured.
  apply m_starG_stop; [by apply plainb_not_lbracket | done |].
  by rewrite m_lit_exact, take_captured.
Qed.

(** A closing tag fails to match where the text starts with a character
    other than an opening bracket. *)
Lemma m_lit_plain_head (p s : jsstring) c :
  c <> 91 -> m_lit false (91 :: p) (c :: s) = None.
Proof.
  intros Hc. cbn [m_lit]. unfold chr_eqb.
  assert ((91 =? c) = false) as -> by (apply N.eqb_neq; congruence). done.
Qed.

Lemma lazy_body {R} (b rest : jsstring) (close : jsstring)
    (k : jsstring -> jsstring -> option R) (r : R) :
  plainb b = true -> k ((91 :: close) ++ rest) rest = Some r ->
  m_starL any_char (b ++ (91 :: close) ++ rest)
    (fun s' => match m_lit false (91 :: close) s' with
               | Some s'' => k s' s''
               | None => None
               end) = Some r.
Proof.
  intros Hb Hk. apply m_starL_stop.
  - apply Forall_forall. done.
  - intros b1 c b2 ->. apply plainb_Forall in Hb.
    apply Forall_app in Hb as [_ Hb]. apply Forall_cons in Hb as [Hc _].
    by rewrite m_lit_plain_head.
  - by rewrite m_lit_exact.
Qed.

Lemma exec_spoiler b rest :
  plainb b = true ->
  exec false re_spoiler (render (Spoiler b) ++ rest) = Some ([], rest).
Proof.
  intros Hb. unfold exec, re_spoiler, render. rewrite <- !app_assoc.
  cbn [run]. rewrite m_lit_exact.
  change (lit "[/spoiler]") with (91 :: lit "/spoiler]").
  by apply (lazy_body b rest (lit "/spoiler]") (fun _ s'' => Some ([], s''))).
Qed.

Lemma exec_raw b rest :
  plainb b = true ->
  exec false re_raw (render (Raw b) ++ rest) = Some ([b], rest).
Proof.
  intros Hb. unfold exec, re_raw, render. rewrite <- !app_assoc.
  cbn [run]. rewrite m_lit_exact.
  change (lit "[/raw]") with (91 :: lit "/raw]").
  apply (lazy_body b rest (lit "/raw]")
           (fun s' s'' => Some ([] ++ [take (length (b ++ (91 :: lit "/raw]") ++ rest)
                                             - length s')
                                        (b ++ (91 :: lit "/raw]") ++ rest)], s''))); [done|].
  by rewrite take_captured.
Qed.

Lemma exec_code b rest :
  plainb b = true ->
  exec false re_code (render (Code b) ++ rest) = Some ([b], rest).
Proof.
  intros Hb. unfold exec, re_code, render. rewrite <- !app_assoc.
  cbn [run]. rewrite m_lit_exact.
  change (lit "[/code]") with (91 :: lit "/code]").
  apply (lazy_body b rest (lit "/code]")
           (fun s' s'' => Some ([] ++ [take (length (b ++ (91 :: lit "/code]") ++ rest)
                                             - length s')
                                        (b ++ (91 :: lit "/code]") ++ rest)], s''))); [done|].
  by rewrite take_captured.
Qed.

Lemma exec_edited l x rest :
  same_foldb (lit "[Edited from ") l = true -> no_rbb x = true ->
  exec true re_edited (render (Edited l x) ++ rest) = Some ([], rest).
Proof.
  intros Hl Hx. unfold exec, re_edited, render. rewrite <- !app_assoc.
  cbn [run]. rewrite m_lit_fold by (by apply same_foldb_fold).
  apply m_starG_stop; [by apply no_rbb_Forall | done |].
  by rewrite (m_lit_fold (lit "]") (lit "]")) by (by repeat constructor).
Qed.

Lemma exec_from l x rest :
  same_foldb (lit "[From ") l = true -> no_rbb x = true ->
  exec true re_from (render (From l x) ++ rest) = Some ([], rest).
Proof.
  intros Hl Hx. unfold exec, re_from, render. rewrite <- !app_assoc.
  cbn [run]. rewrite m_lit_fold by (by apply same_foldb_fold).
  apply m_starG_stop; [by apply no_rbb_Forall | done |].
  by rewrite (m_lit_fold (lit "]") (lit "]")) by (by repeat constructor).
Qed.

End Patterns.

Section Passes.
Import Regex Markup.

Definition all_well_formed (ps : list Piece) : Prop :=
  Forall (fun p => well_formed p = true) ps.

(** One pass [s.replace(/r/g, sub)] over a description given as pieces:
    [own] tells which pieces the pass replaces and by what. *)
Section Pass.
Variables (ci : bool) (r : re) (sub : list jsstring -> jsstring) (h2 : N).
Variable own : Piece -> option jsstring.
Hypothesis headed : exists p r', r = Cat (Lit (91 :: h2 :: p)) r'.
Hypothesis own_match : forall p rep rest,
  well_formed p = true -> own p = Some rep ->
  render p <> []
  /\ exists caps, exec ci r (render p ++ rest) = Some (caps, rest) /\ sub caps = rep.
Hypothesis own_inert : forall p rep,
  well_formed p = true -> own p = Some rep -> inertb rep = true.
Hypothesis others_quiet : forall p,
  well_formed p = true -> own p = None -> quiet ci h2 (render p).

Definition step (p : Piece) : Piece :=
  match own p with Some rep => Text rep | None => p end.

Lemma pass_source ps :
  all_well_formed ps -> replaceAll ci r sub (source ps) = source (step <$> ps).
Proof.
  unfold replaceAll, source. induction 1 as [|p ps Hp _ IH].
  - simpl. by rewrite (exec_nil ci r h2 headed).
  - rewrite !fmap_cons. cbn [concat]. unfold step at 1.
    destruct (own p) as [rep|] eqn:Hown.
    + destruct (own_match p rep (concat (render <$> ps)) Hp Hown)
        as (Hne & caps & Hexec & <-).
      rewrite (replace_go_match ci r sub _ _ caps Hne Hexec). by rewrite IH.
    + rewrite (quiet_copy ci r sub h2 headed) by (by apply others_quiet).
      by rewrite IH.
Qed.

Lemma pass_well_formed ps : all_well_formed ps -> all_well_formed (step <$> ps).
Proof.
  unfold all_well_formed. induction 1 as [|p ps Hp _ IH]; [constructor|].
  rewrite fmap_cons. constructor; [|exact IH]. unfold step.
  destruct (own p) as [rep|] eqn:Hown; [|exact Hp].
  exact (own_inert p rep Hp Hown).
Qed.
End Pass.

(** A letter [v] in upper case is not what the head [h2] matches. *)
Lemma letter_mismatch (ci : bool) (h2 v : N) :
  65 <= v <= 90 ->
  (if ci then canon h2 <> v else h2 <> v /\ h2 <> v + 32) ->
  forall c, v = canon c -> chr_eqb ci h2 c = false.
Proof.
  intros Hv Hh c Hc. symmetry in Hc. unfold chr_eqb. destruct ci.
  - apply N.eqb_neq. congruence.
  - apply N.eqb_neq. apply canon_letter in Hc; [|done]. lia.
Qed.

Lemma edited_opening_quiet (ci : bool) (h2 : N) (l : jsstring) :
  (if ci then canon h2 <> 69 else h2 <> 69 /\ h2 <> 101) ->
  same_foldb (lit "[Edited from ") l = true -> quiet ci h2 l.
Proof.
  intros Hh Hl%same_foldb_fold.
  apply (fold_quiet ci h2 69 (lit "dited from ") l Hl).
  - apply Forall_forall. intros a Ha. apply list_elem_of_In in Ha. simpl in Ha.
    repeat (destruct Ha as [<- | Ha]; [done|]). done.
  - by apply (letter_mismatch ci h2 69).
Qed.

Lemma from_opening_quiet (ci : bool) (h2 : N) (l : jsstring) :
  (if ci then canon h2 <> 70 else h2 <> 70 /\ h2 <> 102) ->
  same_foldb (lit "[From ") l = true -> quiet ci h2 l.
Proof.
  intros Hh Hl%same_foldb_fold.
  apply (fold_quiet ci h2 70 (lit "rom ") l Hl).
  - apply Forall_forall. intros a Ha. apply list_elem_of_In in Ha. simpl in Ha.
    repeat (destruct Ha as [<- | Ha]; [done|]). done.
  - by apply (letter_mismatch ci h2 70).
Qed.

Ltac split_wf :=
  repeat match goal with
         | H : (_ && _) = true |- _ => apply andb_true_iff in H as [? ?]
         end.

Ltac nonempty :=
  let E := fresh in
  intros E; apply (f_equal length) in E; unfold render in E;
  rewrite ?length_app in E; simpl in E; lia.

(** Quietness of the text of a piece, part by part. *)
Ltac quiet_parts Hhead :=
  unfold render; repeat apply quiet_app;
  first [ by (apply quietb_quiet; reflexivity)
        | by apply plain_quiet
        | by (apply inert_quiet; [exact Hhead | done])
        | by (apply edited_opening_quiet; [simpl; lia || done | done])
        | by (apply from_opening_quiet; [simpl; lia || done | done]) ].

Definition own_url (p : Piece) : option jsstring :=
  match p with Url _ y => Some y | _ => None end.
Definition own_spoiler (sp : jsstring) (p : Piece) : option jsstring :=
  match p with Spoiler _ => Some sp | _ => None end.
Definition own_raw (p : Piece) : option jsstring :=
  match p with Raw b => Some b | _ => None end.
Definition own_code (p : Piece) : option jsstring :=
  match p with Code b => Some b | _ => None end.
Definition own_edited (p : Piece) : option jsstring :=
  match p with Edited _ _ => Some [] | _ => None end.
Definition own_from (p : Piece) : option jsstring :=
  match p with From _ _ => Some [] | _ => None end.

Lemma head_u : is_head false 117. Proof. left. tauto. Qed.
Lemma head_s : is_head false 115. Proof. left. tauto. Qed.
Lemma head_r : is_head false 114. Proof. left. tauto. Qed.
Lemma head_c : is_head false 99. Proof. left. tauto. Qed.
Lemma head_E : is_head true 69. Proof. right. tauto. Qed.
Lemma head_F : is_head true 70. Proof. right. tauto. Qed.

Lemma pass_url ps :
  all_well_formed ps ->
  replaceAll false re_url (group 2) (source ps) = source (step own_url <$> ps)
  /\ all_well_formed (step own_url <$> ps).
Proof.
  intros Hps. split.
  - apply (pass_source false re_url (group 2) 117 own_url); [by eexists _, _ | | | done].
    + intros [] rep rest Hwf [= <-]. simpl in Hwf. split_wf. split; [nonempty|].
      eexists. split; [by apply exec_url|done].
    + intros [] Hwf Hown; try done; simpl in Hwf; split_wf; quiet_parts head_u.
  - apply pass_well_formed; [|done].
    intros [] rep Hwf [= <-]. simpl in Hwf. split_wf. by apply plain_inert.
Qed.

Lemma pass_spoiler sp ps :
  inertb sp = true -> all_well_formed ps ->
  replaceAll false re_spoiler (fun _ => sp) (source ps)
    = source (step (own_spoiler sp) <$> ps)
  /\ all_well_formed (step (own_spoiler sp) <$> ps).
Proof.
  intros Hsp Hps. split.
  - apply (pass_source false re_spoiler _ 115 (own_spoiler sp)); [by eexists _, _ | | | done].
    + intros [] rep rest Hwf [= <-]. simpl in Hwf. split; [nonempty|].
      eexists. split; [by apply exec_spoiler|done].
    + intros [] Hwf Hown; try done; simpl in Hwf; split_wf; quiet_parts head_s.
  - apply pass_well_formed; [|done].
    intros [] rep Hwf [= <-]. done.
Qed.

Lemma pass_raw ps :
  all_well_formed ps ->
  replaceAll false re_raw (group 1) (source ps) = source (step own_raw <$> ps)
  /\ all_well_formed (step own_raw <$> ps).
Proof.
  intros Hps. split.
  - apply (pass_source false re_raw (group 1) 114 own_raw); [by eexists _, _ | | | done].
    + intros [] rep rest Hwf [= <-]. simpl in Hwf. split; [nonempty|].
      eexists. split; [by apply exec_raw|done].
    + intros [] Hwf Hown; try done; simpl in Hwf; split_wf; quiet_parts head_r.
  - apply pass_well_formed; [|done].
    intros [] rep Hwf [= <-]. by apply plain_inert.
Qed.

Lemma pass_code ps :
  all_well_formed ps ->
  replaceAll false re_code (group 1) (source ps) = source (step own_code <$> ps)
  /\ all_well_formed (step own_code <$> ps).
Proof.
  intros Hps. split.
  - apply (pass_source false re_code (group 1) 99 own_code); [by eexists _, _ | | | done].
    + intros [] rep rest Hwf [= <-]. simpl in Hwf. split; [nonempty|].
      eexists. split; [by apply exec_code|done].
    + intros [] Hwf Hown; try done; simpl in Hwf; split_wf; quiet_parts head_c.
  - apply pass_well_formed; [|done].
    intros [] rep Hwf [= <-]. by apply plain_inert.
Qed.

Lemma pass_edited ps :
  all_well_formed ps ->
  replaceAll true re_edited (fun _ => []) (source ps) = source (step own_edited <$> ps)
  /\ all_well_formed (step own_edited <$> ps).
Proof.
  intros Hps. split.
  - apply (pass_source true re_edited _ 69 own_edited); [by eexists _, _ | | | done].
    + intros [] rep rest Hwf [= <-]. simpl in Hwf. split_wf. split; [nonempty|].
      eexists. split; [by apply exec_edited|done].
    + intros [] Hwf Hown; try done; simpl in Hwf; split_wf; quiet_parts head_E.
  - apply pass_well_formed; [|done].
    intros [] rep Hwf [= <-]. done.
Qed.

Lemma pass_from ps :
  all_well_formed ps ->
  replaceAll true re_from (fun _ => []) (source ps) = source (step own_from <$> ps)
  /\ all_well_formed (step own_from <$> ps).
Proof.
  intros Hps. split.
  - apply (pass_source true re_from _ 70 own_from); [by eexists _, _ | | | done].
    + intros [] rep rest Hwf [= <-]. simpl in Hwf. split_wf. split; [nonempty|].
      eexists. split; [by apply exec_from|done].
    + intros [] Hwf Hown; try done; simpl in Hwf; split_wf; quiet_parts head_F.
  - apply pass_well_formed; [|done].
    intros [] rep Hwf [= <-]. done.
Qed.

(** The six passes and the trim, on a description given as pieces. *)
Lemma clean_with_pieces sp ps :
  inertb sp = true -> all_well_formed ps ->
  clean_with sp (source ps) = trim (concat (image sp <$> ps)).
Proof.
  intros Hsp H0. unfold clean_with.
  destruct (pass_url ps H0) as [-> H1].
  destruct (pass_spoiler sp _ Hsp H1) as [-> H2].
  destruct (pass_raw _ H2) as [-> H3].
  destruct (pass_code _ H3) as [-> H4].
  destruct (pass_edited _ H4) as [-> H5].
  destruct (pass_from _ H5) as [-> _].
  f_equal. unfold source. rewrite <- !list_fmap_compose. f_equal.
  apply list_fmap_ext. intros _ p _. by destruct p.
Qed.

End Passes.

Section Trim.

Definition white (c : N) : Prop := is_white c = true.

(** [s] neither starts nor ends with white space. *)
Definition tight (s : jsstring) : Prop :=
  match s with
  | [] => True
  | c :: _ => is_white c = false
  end
  /\ match rev s with
     | [] => True
     | c :: _ => is_white c = false
     end.

Lemma trimStart_split s :
  exists pre, s = pre ++ trimStart s /\ Forall white pre
              /\ match trimStart s with [] => True | c :: _ => is_white c = false end.
Proof.
  induction s as [|c s (pre & Hs & Hpre & Hhead)]; [by exists []|].
  simpl. destruct (is_white c) eqn:Hc.
  - exists (c :: pre). repeat split; [by rewrite Hs at 1 | by constructor | done].
  - exists []. by repeat split.
Qed.

(** [trim] takes white space off both ends and nothing else. *)
Lemma trim_split s :
  exists pre post, s = pre ++ trim s ++ post
                   /\ Forall white pre /\ Forall white post /\ tight (trim s).
Proof.
  destruct (trimStart_split s) as (pre & Hs & Hpre & Hhead).
  destruct (trimStart_split (rev (trimStart s))) as (tsop & Hr & Htsop & Hlast).
  exists pre, (rev tsop). unfold trim, trimEnd.
  assert (Hmid : trimStart s = rev (trimStart (rev (trimStart s))) ++ rev tsop).
  { rewrite <- rev_app_distr, <- Hr. by rewrite rev_involutive. }
  repeat split.
  - by rewrite <- Hmid.
  - done.
  - apply Forall_forall. intros c Hc. rewrite Forall_forall in Htsop.
    apply Htsop. apply list_elem_of_In. apply list_elem_of_In in Hc. by apply in_rev.
  - rewrite Hmid in Hhead.
    destruct (rev (trimStart (rev (trimStart s)))) as [|c m] eqn:Hm; [done|].
    exact Hhead.
  - by rewrite rev_involutive.
Qed.

End Trim.

(** ** Markup cleaning, for text that holds brackets *)

Section Calm.
Import Regex.

Implicit Types (p s rest : jsstring).

(** The literal [p] and the text [s] differ at a place both have. *)
Fixpoint clash (ci : bool) p s : bool :=
  match p, s with
  | a :: p', c :: s' => if chr_eqb ci a c then clash ci p' s' else true
  | _, _ => false
  end.

(** The literal [p] begins nowhere in [s]: it differs from every
    non-empty end of [s] at a place both have.  So [p] does not occur in
    [s], and [s] does not end in a beginning of [p]. *)
Fixpoint calmb (ci : bool) p s : bool :=
  match s with
  | [] => true
  | _ :: s' => clash ci p s && calmb ci p s'
  end.

Lemma clash_m_lit ci p s rest : clash ci p s = true -> m_lit ci p (s ++ rest) = None.
Proof.
  revert s. induction p as [|a p IH]; intros [|c s]; simpl; try done.
  destruct (chr_eqb ci a c); [apply IH | done].
Qed.

Lemma clash_app ci p s s2 : clash ci p s = true -> clash ci p (s ++ s2) = true.
Proof.
  revert s. induction p as [|a p IH]; intros [|c s]; simpl; try done.
  destruct (chr_eqb ci a c); [apply IH | done].
Qed.

Lemma calmb_app ci p s1 s2 :
  calmb ci p s1 = true -> calmb ci p s2 = true -> calmb ci p (s1 ++ s2) = true.
Proof.
  intros H1 H2. induction s1 as [|c s1 IH]; [done|].
  cbn [calmb] in H1. apply andb_true_iff in H1 as [Hc H1].
  change ((c :: s1) ++ s2) with (c :: (s1 ++ s2)). cbn [calmb].
  apply andb_true_iff. split; [|by apply IH].
  by apply (clash_app ci p (c :: s1) s2).
Qed.

Lemma calmb_end ci p b1 b2 : calmb ci p (b1 ++ b2) = true -> calmb ci p b2 = true.
Proof.
  induction b1 as [|c b1 IH]; [done|].
  change ((c :: b1) ++ b2) with (c :: (b1 ++ b2)). cbn [calmb].
  intros [_ H]%andb_true_iff. by apply IH.
Qed.

(** Text in which no opening bracket is followed by the second character
    of a literal is calm for that literal. *)
Lemma quiet_calm ci h2 q s : quiet ci h2 s -> calmb ci (91 :: h2 :: q) s = true.
Proof.
  induction s as [|c s IH]; [done|]. intros [Hc Hs].
  cbn [calmb]. apply andb_true_iff. split; [|by apply IH].
  cbn [clash]. destruct (chr_eqb ci 91 c) eqn:E; [|done].
  assert (c = 91) as ->.
  { unfold chr_eqb in E. destruct ci; apply N.eqb_eq in E; [|done].
    symmetry in E. by apply canon_bracket. }
  specialize (Hc eq_refl). destruct s as [|c2 s]; [done|]. by rewrite Hc.
Qed.

Section CalmReplace.
Variables (ci : bool) (r : re) (sub : list jsstring -> jsstring) (p : jsstring).
Hypothesis headed : exists a p' r', p = a :: p' /\ r = Cat (Lit p) r'.

Lemma exec_calm_nil : exec ci r [] = None.
Proof. destruct headed as (a & p' & r' & -> & ->). done. Qed.

Lemma exec_clash s rest : clash ci p s = true -> exec ci r (s ++ rest) = None.
Proof.
  intros Hc. destruct headed as (a & p' & r' & Hp & ->). unfold exec. cbn [run].
  by rewrite clash_m_lit.
Qed.

(** A pass copies text the head of its pattern is calm in. *)
Lemma calm_copy s rest :
  calmb ci p s = true ->
  replace_go ci r sub 0 (s ++ rest) = s ++ replace_go ci r sub 0 rest.
Proof.
  induction s as [|c s IH]; [done|]. cbn [calmb]. intros [Hc Hs]%andb_true_iff.
  change ((c :: s) ++ rest) with (c :: (s ++ rest)). cbn [replace_go].
  change (c :: (s ++ rest)) with ((c :: s) ++ rest).
  rewrite exec_clash by done. by rewrite IH.
Qed.

End CalmReplace.

End Calm.

Section Admissible.
Import Regex Markup.

(** The openings of the six patterns, with their case flag. *)
Definition openings : list (bool * jsstring) :=
  [ (false, lit "[url="); (false, lit "[spoiler]"); (false, lit "[raw]");
    (false, lit "[code]"); (true, lit "[Edited from "); (true, lit "[From ") ].

(** Text free of markup: none of the six openings begins in it. *)
Definition markup_free (s : jsstring) : bool :=
  forallb (fun o => calmb o.1 o.2 s) openings.

(** The pieces the cleaners treat as the rules say: text free of markup;
    a link whose target is free of markup and has no closing bracket and
    whose label has no opening bracket; a spoiler, raw or code block whose
    body is free of markup and in which its own closing tag does not
    begin; an annotation, its opening spelled in any case, whose body is
    free of markup and has no closing bracket. *)
Definition admissible (p : Piece) : bool :=
  match p with
  | Text s => markup_free s
  | Url x y => markup_free x && no_rbb x && plainb y
  | Spoiler b => markup_free b && calmb false (lit "[/spoiler]") b
  | Raw b => markup_free b && calmb false (lit "[/raw]") b
  | Code b => markup_free b && calmb false (lit "[/code]") b
  | Edited l x => same_foldb (lit "[Edited from ") l && markup_free x && no_rbb x
  | From l x => same_foldb (lit "[From ") l && markup_free x && no_rbb x
  end.

Definition all_admissible (ps : list Piece) : Prop :=
  Forall (fun p => admissible p = true) ps.

Lemma markup_free_calm (s : jsstring) (ci : bool) (p : jsstring) :
  markup_free s = true -> In (ci, p) openings -> calmb ci p s = true.
Proof.
  unfold markup_free. rewrite forallb_forall. intros H Hin. exact (H _ Hin).
Qed.

Lemma plain_calm ci h2 q s : plainb s = true -> calmb ci (91 :: h2 :: q) s = true.
Proof. intros H. by apply quiet_calm, plain_quiet. Qed.

Lemma plain_markup_free s : plainb s = true -> markup_free s = true.
Proof.
  intros H. unfold markup_free. apply forallb_forall. intros [ci p] Hin.
  simpl in Hin. repeat (destruct Hin as [[= <- <-] | Hin]; [by apply plain_calm|]).
  done.
Qed.

(** The lazy star of a block stops at the closing tag that ends the
    piece, when that tag does not begin in the body. *)
Lemma lazy_body_calm {R} (b rest : jsstring) (close : jsstring)
    (k : jsstring -> jsstring -> option R) (r : R) :
  calmb false (91 :: close) b = true ->
  k ((91 :: close) ++ rest) rest = Some r ->
  m_starL any_char (b ++ (91 :: close) ++ rest)
    (fun s' => match m_lit false (91 :: close) s' with
               | Some s'' => k s' s''
               | None => None
               end) = Some r.
Proof.
  intros Hb Hk. apply m_starL_stop.
  - apply Forall_forall. done.
  - intros b1 c b2 ->. apply calmb_end in Hb. cbn [calmb] in Hb.
    apply andb_true_iff in Hb as [Hc _].
    change (c :: b2 ++ (91 :: close) ++ rest) with ((c :: b2) ++ (91 :: close) ++ rest).
    by rewrite clash_m_lit.
  - by rewrite m_lit_exact.
Qed.

Lemma exec_spoiler_calm b rest :
  calmb false (lit "[/spoiler]") b = true ->
  exec false re_spoiler (render (Spoiler b) ++ rest) = Some ([], rest).
Proof.
  intros Hb. unfold exec, re_spoiler, render. rewrite <- !app_assoc.
  cbn [run]. rewrite m_lit_exact.
  change (lit "[/spoiler]") with (91 :: lit "/spoiler]") in *.
  by apply (lazy_body_calm b rest (lit "/spoiler]") (fun _ s'' => Some ([], s''))).
Qed.

Lemma exec_raw_calm b rest :
  calmb false (lit "[/raw]") b = true ->
  exec false re_raw (render (Raw b) ++ rest) = Some ([b], rest).
Proof.
  intros Hb. unfold exec, re_raw, render. rewrite <- !app_assoc.
  cbn [run]. rewrite m_lit_exact.
  change (lit "[/raw]") with (91 :: lit "/raw]") in *.
  apply (lazy_body_calm b rest (lit "/raw]")
           (fun s' s'' => Some ([] ++ [take (length (b ++ (91 :: lit "/raw]") ++ rest)
                                             - length s')
                                        (b ++ (91 :: lit "/raw]") ++ rest)], s''))); [done|].
  by rewrite take_captured.
Qed.

Lemma exec_code_calm b rest :
  calmb false (lit "[/code]") b = true ->
  exec false re_code (render (Code b) ++ rest) = Some ([b], rest).
Proof.
  intros Hb. unfold exec, re_code, render. rewrite <- !app_assoc.
  cbn [run]. rewrite m_lit_exact.
  change (lit "[/code]") with (91 :: lit "/code]") in *.
  apply (lazy_body_calm b rest (lit "/code]")
           (fun s' s'' => Some ([] ++ [take (length (b ++ (91 :: lit "/code]") ++ rest)
                                             - length s')
                                        (b ++ (91 :: lit "/code]") ++ rest)], s''))); [done|].
  by rewrite take_captured.
Qed.

(** One pass over a description of admissible pieces. *)
Section CalmPass.
Variables (ci : bool) (r : re) (sub : list jsstring -> jsstring) (p : jsstring).
Variable own : Piece -> option jsstring.
Hypothesis headed : exists a p' r', p = a :: p' /\ r = Cat (Lit p) r'.
Hypothesis own_match : forall q rep rest,
  admissible q = true -> own q = Some rep ->
  render q <> []
  /\ exists caps, exec ci r (render q ++ rest) = Some (caps, rest) /\ sub caps = rep.
Hypothesis own_free : forall q rep,
  admissible q = true -> own q = Some rep -> markup_free rep = true.
Hypothesis others_calm : forall q,
  admissible q = true -> own q = None -> calmb ci p (render q) = true.

Lemma calm_pass ps :
  all_admissible ps ->
  replaceAll ci r sub (source ps) = source (step own <$> ps)
  /\ all_admissible (step own <$> ps).
Proof.
  unfold replaceAll, source, all_admissible. induction 1 as [|q ps Hq _ [IH1 IH2]].
  - split; [|constructor]. simpl. by rewrite (exec_calm_nil ci r p headed).
  - rewrite !fmap_cons. cbn [concat]. unfold step at 1 3.
    destruct (own q) as [rep|] eqn:Hown.
    + destruct (own_match q rep (concat (render <$> ps)) Hq Hown)
        as (Hne & caps & Hexec & <-).
      rewrite (replace_go_match ci r sub _ _ caps Hne Hexec), IH1.
      split; [done|]. constructor; [|done]. exact (own_free q _ Hq Hown).
    + rewrite (calm_copy ci r sub p headed) by (by apply others_calm).
      rewrite IH1. split; [done|]. by constructor.
Qed.
End CalmPass.

Ltac split_parts :=
  repeat match goal with
         | H : (_ && _) = true |- _ => apply andb_true_iff in H as [? ?]
         end.

Ltac piece_nonempty :=
  let E := fresh in
  intros E; apply (f_equal length) in E; unfold render in E;
  rewrite ?length_app in E; simpl in E; lia.

(** The opening of an annotation, in any spelling, is calm for the
    heads of the other patterns. *)
Lemma edited_opening_calm (ci : bool) (h2 : N) (q l : jsstring) :
  (if ci then canon h2 <> 69 else h2 <> 69 /\ h2 <> 101) ->
  same_foldb (lit "[Edited from ") l = true -> calmb ci (91 :: h2 :: q) l = true.
Proof. intros Hh Hl. by apply quiet_calm, edited_opening_quiet. Qed.

Lemma from_opening_calm (ci : bool) (h2 : N) (q l : jsstring) :
  (if ci then canon h2 <> 70 else h2 <> 70 /\ h2 <> 102) ->
  same_foldb (lit "[From ") l = true -> calmb ci (91 :: h2 :: q) l = true.
Proof. intros Hh Hl. by apply quiet_calm, from_opening_quiet. Qed.

(** Calm of the text of a piece, part by part. *)
Ltac calm_parts :=
  unfold render; repeat apply calmb_app;
  first [ by (vm_compute; reflexivity)
        | by (apply markup_free_calm; [done | simpl; tauto])
        | by (apply plain_calm)
        | by (apply edited_opening_calm; [simpl; lia || done | done])
        | by (apply from_opening_calm; [simpl; lia || done | done]) ].

Ltac headed_by := eexists _, _, _; split; reflexivity.

Lemma calm_url ps :
  all_admissible ps ->
  replaceAll false re_url (group 2) (source ps) = source (step own_url <$> ps)
  /\ all_admissible (step own_url <$> ps).
Proof.
  apply (calm_pass false re_url (group 2) (lit "[url=") own_url); [headed_by | | | ].
  - intros [] rep rest Hwf [= <-]. simpl in Hwf. split_parts. split; [piece_nonempty|].
    eexists. split; [by apply exec_url|done].
  - intros [] rep Hwf [= <-]. simpl in Hwf. split_parts. by apply plain_markup_free.
  - intros [] Hwf Hown; try done; simpl in Hwf; split_parts; calm_parts.
Qed.

Lemma calm_spoiler sp ps :
  markup_free sp = true -> all_admissible ps ->
  replaceAll false re_spoiler (fun _ => sp) (source ps)
    = source (step (own_spoiler sp) <$> ps)
  /\ all_admissible (step (own_spoiler sp) <$> ps).
Proof.
  intros Hsp.
  apply (calm_pass false re_spoiler _ (lit "[spoiler]") (own_spoiler sp)); [headed_by | | | ].
  - intros [] rep rest Hwf [= <-]. simpl in Hwf. split_parts. split; [piece_nonempty|].
    eexists. split; [by apply exec_spoiler_calm|done].
  - intros [] rep Hwf [= <-]. done.
  - intros [] Hwf Hown; try done; simpl in Hwf; split_parts; calm_parts.
Qed.

Lemma calm_raw ps :
  all_admissible ps ->
  replaceAll false re_raw (group 1) (source ps) = source (step own_raw <$> ps)
  /\ all_admissible (step own_raw <$> ps).
Proof.
  apply (calm_pass false re_raw (group 1) (lit "[raw]") own_raw); [headed_by | | | ].
  - intros [] rep rest Hwf [= <-]. simpl in Hwf. split_parts. split; [piece_nonempty|].
    eexists. split; [by apply exec_raw_calm|done].
  - intros [] rep Hwf [= <-]. simpl in Hwf. by split_parts.
  - intros [] Hwf Hown; try done; simpl in Hwf; split_parts; calm_parts.
Qed.

Lemma calm_code ps :
  all_admissible ps ->
  replaceAll false re_code (group 1) (source ps) = source (step own_code <$> ps)
  /\ all_admissible (step own_code <$> ps).
Proof.
  apply (calm_pass false re_code (group 1) (lit "[code]") own_code); [headed_by | | | ].
  - intros [] rep rest Hwf [= <-]. simpl in Hwf. split_parts. split; [piece_nonempty|].
    eexists. split; [by apply exec_code_calm|done].
  - intros [] rep Hwf [= <-]. simpl in Hwf. by split_parts.
  - intros [] Hwf Hown; try done; simpl in Hwf; split_parts; calm_parts.
Qed.

Lemma calm_edited ps :
  all_admissible ps ->
  replaceAll true re_edited (fun _ => []) (source ps) = source (step own_edited <$> ps)
  /\ all_admissible (step own_edited <$> ps).
Proof.
  apply (calm_pass true re_edited _ (lit "[Edited from ") own_edited); [headed_by | | | ].
  - intros [] rep rest Hwf [= <-]. simpl in Hwf. split_parts. split; [piece_nonempty|].
    eexists. split; [by apply exec_edited|done].
  - intros [] rep Hwf [= <-]. done.
  - intros [] Hwf Hown; try done; simpl in Hwf; split_parts; calm_parts.
Qed.

Lemma calm_from ps :
  all_admissible ps ->
  replaceAll true re_from (fun _ => []) (source ps) = source (step own_from <$> ps)
  /\ all_admissible (step own_from <$> ps).
Proof.
  apply (calm_pass true re_from _ (lit "[From ") own_from); [headed_by | | | ].
  - intros [] rep rest Hwf [= <-]. simpl in Hwf. split_parts. split; [piece_nonempty|].
    eexists. split; [by apply exec_from|done].
  - intros [] rep Hwf [= <-]. done.
  - intros [] Hwf Hown; try done; simpl in Hwf; split_parts; calm_parts.
Qed.

(** The six passes and the trim, on a description of admissible pieces. *)
Lemma clean_with_admissible sp ps :
  markup_free sp = true -> all_admissible ps ->
  clean_with sp (source ps) = trim (concat (image sp <$> ps)).
Proof.
  intros Hsp H0. unfold clean_with.
  destruct (calm_url ps H0) as [-> H1].
  destruct (calm_spoiler sp _ Hsp H1) as [-> H2].
  destruct (calm_raw _ H2) as [-> H3].
  destruct (calm_code _ H3) as [-> H4].
  destruct (calm_edited _ H4) as [-> H5].
  destruct (calm_from _ H5) as [-> _].
  f_equal. unfold source. rewrite <- !list_fmap_compose. f_equal.
  apply list_fmap_ext. intros _ q _. by destruct q.
Qed.

Lemma inert_markup_free s : inertb s = true -> markup_free s = true.
Proof.
  intros H. unfold markup_free. apply forallb_forall. intros [ci p] Hin.
  simpl in Hin.
  repeat (destruct Hin as [[= <- <-] | Hin];
          [apply quiet_calm, inert_quiet; [vm_compute; tauto | done]|]).
  done.
Qed.

(** The well-formed pieces are admissible. *)
Lemma well_formed_admissible p : well_formed p = true -> admissible p = true.
Proof.
  destruct p; cbn [well_formed admissible]; intros H;
    repeat match goal with
           | H : (_ && _) = true |- _ => apply andb_true_iff in H as [? ?]
           end;
    rewrite ?andb_true_iff; repeat split;
    first [ done | by apply inert_markup_free | by apply plain_markup_free
          | by apply plain_calm ].
Qed.

End Admissible.

Section MarkupClaim.
Import Regex Markup.

Lemma cleanDescription_clean_with d :
  cleanDescription (Some d) = clean_with hidden_marker d.
Proof. destruct d; [vm_compute; reflexivity | reflexivity]. Qed.

(** The description of the specification's scenario. *)
Definition hello : jsstring :=
  lit "Hello [url=http://x]world[/url] [spoiler]secret[/spoiler] [From Wikipedia]".

Definition hello_pieces : list Piece :=
  [Text (lit "Hello "); Url (lit "http://x") (lit "world"); Text (lit " ");
   Spoiler (lit "secret"); Text (lit " "); From (lit "[From ") (lit "Wikipedia")].

(** The same markup kinds in other spellings, around raw and code blocks. *)
Definition shout_pieces : list Piece :=
  [Text (lit "  See "); Raw (lit "x < y"); Edited (lit "[EDITED FROM ") (lit "vndb");
   Code (lit "a]b"); From (lit "[from ") (lit "MangaGamer"); Text [10]].

(** Text with brackets that open no markup, around blocks whose bodies
    hold such brackets. *)
Definition bracketed_pieces : list Piece :=
  [Text (lit "He said [sic] "); Raw (lit "a [b] c"); Text (lit " [1] ");
   Spoiler (lit "x [2]"); Code (lit "v[0] = [url]")].

(** A link whose label holds a bracket, and a spoiler block inside
    another. *)
Definition bracket_link : jsstring := lit "[url=http://x]see [1][/url]".
Definition nested_spoiler : jsstring :=
  lit "a[spoiler]b[spoiler]x[/spoiler]c[/spoiler]".

(** C6, as stated, fails.  The label of a link is matched by a class that
    excludes the opening bracket, so a link whose label holds one is left
    as it is by both cleaners instead of being replaced by its label; and
    the spoiler pattern stops at the first closing tag, so of a spoiler
    block nested in another the text after the inner closing tag and the
    outer closing tag stay.  Neither the link nor the outer block is an
    admissible piece. *)
Lemma markup_cleaning_counterexample :
  cleanDescription (Some bracket_link) = bracket_link
  /\ cleanVndbMarkup bracket_link = bracket_link
  /\ cleanDescription (Some bracket_link) <> lit "see [1]"
  /\ cleanVndbMarkup nested_spoiler = lit "ac[/spoiler]"
  /\ cleanDescription (Some nested_spoiler) = lit "a" ++ hidden_marker ++ lit "c[/spoiler]"
  /\ admissible (Url (lit "http://x") (lit "see [1]")) = false
  /\ admissible (Spoiler (lit "b[spoiler]x")) = false.
Proof.
  assert (H1 : cleanDescription (Some bracket_link) = bracket_link)
    by (vm_compute; reflexivity).
  split; [exact H1|]. split; [vm_compute; reflexivity|].
  split; [rewrite H1; discriminate|].
  repeat split; vm_compute; reflexivity.
Qed.

(** C6, amended.  On a description made of admissible pieces, either
    cleaner returns the trimmed concatenation of what it makes of each
    piece: a link gives its label, a raw or code block its body, an
    annotation [[Edited from ...]] or [[From ...]] in any case nothing,
    text itself; a spoiler block gives the placeholder under
    [cleanDescription] and nothing under [cleanVndbMarkup].  A text is
    free of markup when at none of its positions one of the six openings
    [[url=], [[spoiler]], [[raw]], [[code]] and, in any case,
    [[Edited from ] and [[From ] starts, whole or cut off by the end of
    the text.  The admissible pieces are: text free of markup; a link
    whose target is free of markup and has no closing bracket and whose
    label has no opening bracket; a spoiler, raw or code block whose body
    is free of markup and in which its own closing tag starts nowhere; an
    annotation whose body is free of markup and has no closing bracket.
    [trim] removes white space at both ends and only there.  The
    description of the scenario cleans to ["Hello world "] followed by
    the placeholder for display, and to ["Hello world"] before
    translation. *)
Theorem markup_cleaning :
  (forall ps, all_admissible ps ->
     cleanDescription (Some (source ps))
       = trim (concat (image hidden_marker <$> ps))
     /\ cleanVndbMarkup (source ps) = trim (concat (image [] <$> ps)))
  /\ (forall s, exists pre post,
        s = pre ++ trim s ++ post
        /\ Forall white pre /\ Forall white post /\ tight (trim s))
  /\ cleanDescription (Some hello) = lit "Hello world " ++ hidden_marker
  /\ cleanVndbMarkup hello = lit "Hello world"
  /\ cleanDescription None = [].
Proof.
  repeat apply conj.
  - intros ps Hps. split.
    + rewrite cleanDescription_clean_with.
      by apply clean_with_admissible; [vm_compute; reflexivity|].
    + unfold cleanVndbMarkup. by apply clean_with_admissible.
  - apply trim_split.
  - vm_compute. reflexivity.
  - vm_compute. reflexivity.
  - reflexivity.
Qed.

(** The theorem at the pieces of the scenario, at the other spellings
    and at text and blocks that hold brackets. *)
Lemma markup_cleaning_witness :
  (source hello_pieces = hello
   /\ cleanDescription (Some (source hello_pieces))
      = trim (concat (image hidden_marker <$> hello_pieces))
   /\ cleanVndbMarkup (source hello_pieces)
      = trim (concat (image [] <$> hello_pieces)))
  /\ (source shout_pieces
      = lit "  See [raw]x < y[/raw][EDITED FROM vndb][code]a]b[/code][from MangaGamer]" ++ [10]
      /\ cleanDescription (Some (source shout_pieces))
         = trim (concat (image hidden_marker <$> shout_pieces))
      /\ trim (concat (image hidden_marker <$> shout_pieces)) = lit "See x < ya]b")
  /\ (source bracketed_pieces
      = lit "He said [sic] [raw]a [b] c[/raw] [1] [spoiler]x [2][/spoiler][code]v[0] = [url][/code]"
      /\ cleanVndbMarkup (source bracketed_pieces)
         = trim (concat (image [] <$> bracketed_pieces))
      /\ trim (concat (image [] <$> bracketed_pieces))
         = lit "He said [sic] a [b] c [1] v[0] = [url]").
Proof.
  destruct markup_cleaning as (Hpieces & _).
  assert (Hhello : all_admissible hello_pieces)
    by (repeat (constructor; [vm_compute; reflexivity|]); constructor).
  assert (Hshout : all_admissible shout_pieces)
    by (repeat (constructor; [vm_compute; reflexivity|]); constructor).
  assert (Hbracketed : all_admissible bracketed_pieces)
    by (repeat (constructor; [vm_compute; reflexivity|]); constructor).
  split; [|split]; (split; [reflexivity|]).
  - exact (Hpieces hello_pieces Hhello).
  - split; [exact (proj1 (Hpieces shout_pieces Hshout)) | vm_compute; reflexivity].
  - split; [exact (proj2 (Hpieces bracketed_pieces Hbracketed)) | vm_compute; reflexivity].
Defined.

End MarkupClaim.

(** * Properties of the further code *)

(** [x] is none of the elements of a list written out. *)
Ltac not_in_list :=
  let Hin := fresh "Hin" in
  intros Hin;
  repeat (apply elem_of_cons in Hin as [Hin|Hin]; [discriminate Hin|]);
  by apply elem_of_nil in Hin.

(** ** Persistence layer: the tag cache and the settings *)

Section TagCacheRows.
Import Database DatabaseRest.

Implicit Types (d : Db) (en zh : jsstring) (pairs : list (jsstring * jsstring)).

Lemma upserts_other (m : gmap jsstring jsstring) pairs k :
  k ∉ pairs.*1 -> upserts m pairs !! k = m !! k.
Proof.
  unfold upserts. revert m. induction pairs as [|[a b] pairs IH]; intros m Hk; [done|].
  simpl in *. apply not_elem_of_cons in Hk as [Hne Hk].
  rewrite IH by done. by rewrite lookup_insert_ne.
Qed.

Lemma upserts_app (m : gmap jsstring jsstring) pairs1 pairs2 :
  upserts m (pairs1 ++ pairs2) = upserts (upserts m pairs1) pairs2.
Proof. unfold upserts. by rewrite foldl_app. Qed.

(** The last pair of a key is the one that stays. *)
Lemma upserts_last (m : gmap jsstring jsstring) pairs1 pairs2 en zh :
  en ∉ pairs2.*1 -> upserts m (pairs1 ++ (en, zh) :: pairs2) !! en = Some zh.
Proof.
  intros Hlast. rewrite upserts_app.
  change (upserts (upserts m pairs1) ((en, zh) :: pairs2))
    with (upserts (<[en := zh]> (upserts m pairs1)) pairs2).
  rewrite upserts_other by done. by rewrite lookup_insert_eq.
Qed.

(** X1.  The rows of the tag cache, one at a time: a row written is the row
    read, whatever was there before, and the last write wins; a row deleted
    reads as [null]; no other row is touched by either; and writing a row
    that was not there and deleting it again restores the tables. *)
Theorem tag_cache_rows en zh zh' d :
  getTagTranslation en (setTagTranslation en zh d) = Some zh
  /\ setTagTranslation en zh' (setTagTranslation en zh d) = setTagTranslation en zh' d
  /\ getTagTranslation en (deleteTagTranslation en d) = None
  /\ (forall en', en' <> en ->
        getTagTranslation en' (setTagTranslation en zh d) = getTagTranslation en' d
        /\ getTagTranslation en' (deleteTagTranslation en d) = getTagTranslation en' d)
  /\ (getTagTranslation en d = None ->
        deleteTagTranslation en (setTagTranslation en zh d) = d).
Proof.
  unfold getTagTranslation, setTagTranslation, deleteTagTranslation, set_tag_translations.
  destruct d as [g p s t]. cbn [tag_translations games play_sessions settings].
  repeat apply conj.
  - by rewrite lookup_insert_eq.
  - by rewrite insert_insert_eq.
  - by rewrite lookup_delete_eq.
  - intros en' Hne. split.
    + by rewrite lookup_insert_ne.
    + by rewrite lookup_delete_ne.
  - intros Hnone. by rewrite delete_insert_id.
Qed.

(** X2.  The batch operations of the tag cache against the single ones:
    [setTagTranslations] is the single upserts in the order of the pairs,
    so for a key that occurs more than once the last pair stays, and keys
    outside the batch keep their rows; [getTagTranslations] holds exactly
    the rows [getTagTranslation] finds for the requested tags. *)
Theorem tag_cache_batch pairs tags d :
  setTagTranslations pairs d
    = foldl (fun d' p => setTagTranslation p.1 p.2 d') d pairs
  /\ (forall pairs1 pairs2 en zh,
        pairs = pairs1 ++ (en, zh) :: pairs2 -> en ∉ pairs2.*1 ->
        getTagTranslation en (setTagTranslations pairs d) = Some zh)
  /\ (forall en, en ∉ pairs.*1 ->
        getTagTranslation en (setTagTranslations pairs d) = getTagTranslation en d)
  /\ (forall t, getTagTranslations tags d !! t
                = if bool_decide (t ∈ tags) then getTagTranslation t d else None).
Proof.
  repeat apply conj.
  - unfold setTagTranslations. revert d.
    induction pairs as [|[a b] pairs IH]; intros d.
    + by destruct d.
    + simpl. rewrite <- IH. by destruct d.
  - intros pairs1 pairs2 en zh -> Hlast.
    unfold getTagTranslation, setTagTranslations. simpl.
    by apply upserts_last.
  - intros en Hen. unfold getTagTranslation, setTagTranslations. simpl.
    by apply upserts_other.
  - intros t. unfold getTagTranslation. case_bool_decide as Ht.
    + by apply getTagTranslations_lookup.
    + unfold getTagTranslations. destruct tags; [by rewrite lookup_empty|].
      apply map_lookup_filter_None. right. intros v _. exact Ht.
Qed.

Lemma trimStart_tight s :
  match s with [] => True | c :: _ => is_white c = false end -> trimStart s = s.
Proof. destruct s as [|c s]; [done|]. simpl. by intros ->. Qed.

Lemma trim_tight s : tight s -> trim s = s.
Proof.
  intros [Hhead Hlast]. unfold trim, trimEnd.
  rewrite (trimStart_tight s) by done.
  rewrite (trimStart_tight (rev s)) by done. by rewrite rev_involutive.
Qed.

Lemma trim_idemp s : trim (trim s) = trim s.
Proof.
  destruct (trim_split s) as (pre & post & _ & _ & _ & Htight).
  by apply trim_tight.
Qed.

(** X3.  The settings table: a key that has no row reads as the empty string,
    a value written is the value read, other keys keep their value.  The
    settings dialog stores the credential trimmed, so on the stored value
    the dialogs' test [apiKey] and the gateway's test [apiKey.trim()] agree,
    and a credential of white space only is stored as no credential. *)
Theorem settings_rows key value input d :
  (settings d !! key = None -> getSetting key d = [])
  /\ getSetting key (setSetting key value d) = value
  /\ (forall key', key' <> key ->
        getSetting key' (setSetting key value d) = getSetting key' d)
  /\ (let stored := getSetting (lit "deepseek_api_key") (SettingsDialog.handleSave input d) in
      stored = trim input
      /\ truthy (trim stored) = truthy stored
      /\ (Forall (fun c => is_white c = true) input -> stored = [])).
Proof.
  unfold getSetting, SettingsDialog.handleSave, setSetting, set_settings.
  cbn [settings]. repeat apply conj.
  - by intros ->.
  - by rewrite lookup_insert_eq.
  - intros key' Hne. by rewrite lookup_insert_ne.
  - by rewrite lookup_insert_eq.
  - rewrite lookup_insert_eq. simpl. by rewrite trim_idemp.
  - rewrite lookup_insert_eq. simpl. intros Hall.
    unfold trim, trimEnd.
    assert (Hts : trimStart input = []).
    { induction Hall as [|c s Hc _ IH]; [done|]. simpl. by rewrite Hc. }
    by rewrite Hts.
Qed.

End TagCacheRows.

(** ** Persistence layer: the rows of [games] *)

Section GameRows.
Import Game Database DatabaseRest.

Variable stringify : list jsstring -> jsstring.
Variable parse : jsstring -> list jsstring.
Variable foreign_keys : bool.

Implicit Types (d : Db) (id now : jsstring) (row : gmap string SqlValue)
  (data : list (FormKey * FormValue)).

Definition is_defined (v : FormValue) : bool :=
  match v with FvUndefined => false | _ => true end.

(** The columns an update object assigns. *)
Definition assigned data : list string :=
  omap (fun kv => if is_defined kv.2 then Some (key_name kv.1) else None) data.

Lemma key_name_inj (k1 k2 : FormKey) : key_name k1 = key_name k2 -> k1 = k2.
Proof. destruct k1, k2; simpl; intros H; first [reflexivity | discriminate H]. Qed.

Lemma key_name_not_updated (k : FormKey) : key_name k <> "updated_at"%string.
Proof. by destruct k. Qed.

Lemma key_name_not_id (k : FormKey) : key_name k <> "id"%string.
Proof. by destruct k. Qed.

Lemma key_name_not_created (k : FormKey) : key_name k <> "created_at"%string.
Proof. by destruct k. Qed.

(** The assignments of [data] without the one of [updated_at]. *)
Definition sets data row : gmap string SqlValue :=
  foldl (fun r kv =>
           match kv.2 with
           | FvUndefined => r
           | v => <[key_name kv.1 := dbValue stringify kv.1 v]> r
           end) row data.

Lemma sets_cons k v data row :
  sets ((k, v) :: data) row
  = sets data (if is_defined v then <[key_name k := dbValue stringify k v]> row else row).
Proof. unfold sets. simpl. by destruct v. Qed.

Lemma sets_other data row col :
  col ∉ assigned data -> sets data row !! col = row !! col.
Proof.
  revert row. induction data as [|[k v] data IH]; intros row Hcol; [done|].
  rewrite sets_cons. unfold assigned in Hcol. simpl in Hcol.
  destruct (is_defined v) eqn:Hv.
  - apply not_elem_of_cons in Hcol as [Hne Hcol].
    rewrite IH by done. by rewrite lookup_insert_ne.
  - by rewrite IH.
Qed.

Lemma assigned_elem data col :
  col ∈ assigned data -> exists k v, (k, v) ∈ data /\ is_defined v = true /\ col = key_name k.
Proof.
  unfold assigned. rewrite list_elem_of_omap. intros ([k v] & Hin & Hkv).
  simpl in Hkv. destruct (is_defined v) eqn:Hv; [|done].
  injection Hkv as <-. by exists k, v.
Qed.

Lemma sets_defined data row k v :
  NoDup data.*1 -> (k, v) ∈ data -> is_defined v = true ->
  sets data row !! key_name k = Some (dbValue stringify k v).
Proof.
  revert row. induction data as [|[k0 v0] data IH]; intros row Hnd Hin Hv.
  - by inversion Hin.
  - rewrite sets_cons. simpl in Hnd. apply NoDup_cons in Hnd as [Hk0 Hnd].
    apply elem_of_cons in Hin as [[= <- <-]|Hin].
    + rewrite Hv. rewrite sets_other; [by rewrite lookup_insert_eq|].
      intros Hc. apply assigned_elem in Hc as (k' & v' & Hin' & _ & Heq).
      apply key_name_inj in Heq as <-. apply Hk0.
      apply list_elem_of_fmap. by exists (k, v').
    + by apply IH.
Qed.

Lemma apply_sets_other data now row col :
  col <> "updated_at"%string -> col ∉ assigned data ->
  apply_sets stringify data now row !! col = row !! col.
Proof.
  intros Hne Hcol. unfold apply_sets. rewrite lookup_insert_ne by done.
  by apply sets_other.
Qed.

Lemma apply_sets_defined data now row k v :
  NoDup data.*1 -> (k, v) ∈ data -> is_defined v = true ->
  apply_sets stringify data now row !! key_name k = Some (dbValue stringify k v).
Proof.
  intros Hnd Hin Hv. unfold apply_sets.
  rewrite lookup_insert_ne by (apply not_eq_sym, key_name_not_updated).
  by apply sets_defined.
Qed.

Lemma updateGame_row id data now d row :
  games d !! id = Some row ->
  games (updateGame stringify id data now d) !! id
  = Some (apply_sets stringify data now row).
Proof.
  intros Hrow. unfold updateGame. rewrite Hrow. cbn [games set_games].
  by rewrite lookup_insert_eq.
Qed.

(** X4.  [updateGame] is a partial update.  On a game that has a row, the
    columns the update object does not assign keep their value (apart from
    [updated_at], which takes the clock reading); [id], [created_at] and
    [total_playtime] keep theirs whatever the object holds; each property
    of the object that is not [undefined] ends up in its column, lists as
    their JSON text; and no other game and no other table is touched. *)
Theorem updateGame_partial id data now d row :
  games d !! id = Some row ->
  NoDup data.*1 ->
  let d' := updateGame stringify id data now d in
  exists row',
    games d' !! id = Some row'
    /\ row' !! "updated_at"%string = Some (SqlText now)
    /\ (forall col, col <> "updated_at"%string -> col ∉ assigned data ->
          row' !! col = row !! col)
    /\ row' !! "id"%string = row !! "id"%string
    /\ row' !! "created_at"%string = row !! "created_at"%string
    /\ row' !! "total_playtime"%string = row !! "total_playtime"%string
    /\ (forall k v, (k, v) ∈ data -> is_defined v = true ->
          row' !! key_name k = Some (dbValue stringify k v))
    /\ (forall id', id' <> id -> games d' !! id' = games d !! id')
    /\ play_sessions d' = play_sessions d
    /\ settings d' = settings d
    /\ tag_translations d' = tag_translations d.
Proof.
  intros Hrow Hnd d'. subst d'. unfold updateGame. rewrite Hrow.
  exists (apply_sets stringify data now row).
  pose proof (apply_sets_other data now row) as Hother.
  assert (Hkey : forall col, (forall k, key_name k <> col) -> col ∉ assigned data).
  { intros col Hk Hc. apply assigned_elem in Hc as (k & _ & _ & _ & ->). by apply (Hk k). }
  cbn [games set_games play_sessions settings tag_translations].
  repeat apply conj; try done.
  - by rewrite lookup_insert_eq.
  - unfold apply_sets. by rewrite lookup_insert_eq.
  - apply Hother; [done|]. apply Hkey, key_name_not_id.
  - apply Hother; [done|]. apply Hkey, key_name_not_created.
  - apply Hother; [done|]. apply Hkey, key_name_not_total.
  - intros k v Hin Hv. by apply apply_sets_defined.
  - intros id' Hne. by rewrite lookup_insert_ne.
Qed.

(** The game [addGame] stores, as [getGameById] reads it back. *)
Definition stored_game id now (form : GameFormData) : DatabaseRest.Game :=
  {| g_id := id;
     g_title := title form;
     g_title_original := title_original form;
     g_vndb_id := vndb_id form;
     g_developer := developer form;
     g_release_date := release_date form;
     g_exe_path := exe_path form;
     g_install_path := install_path form;
     g_save_path := save_path form;
     g_cover_path := cover_path form;
     g_screenshots := screenshots form;
     g_tags := tags form;
     g_play_status := status_text (play_status form);
     g_rating := rating form;
     g_vndb_rating := vndb_rating form;
     g_vndb_votecount := Qc_of_Z (default 0%Z (vndb_votecount form));
     g_length_minutes := Qc_of_Z (default 0%Z (length_minutes form));
     g_notes := notes form;
     g_engine := engine form;
     g_total_playtime := Qc_of_Z 0;
     g_created_at := now;
     g_updated_at := now |}.

Definition text_of (v : SqlValue) : jsstring :=
  match v with SqlText s => s | _ => [] end.

Definition num_of (v : SqlValue) : Qc :=
  match v with SqlInt n => Qc_of_Z n | SqlReal q => q | _ => 0%Qc end.

(** Reading a row that holds every column of the table. *)
Lemma rowToGame_full_row
    (c_id c_title c_title_original c_vndb_id c_developer c_release_date
       c_exe_path c_install_path c_save_path c_cover_path c_screenshots c_tags
       c_play_status c_rating c_vndb_rating c_vndb_votecount c_length_minutes
       c_notes c_engine c_total_playtime c_created_at c_updated_at : SqlValue) :
  rowToGame parse
    (list_to_map
       [ ("id", c_id); ("title", c_title); ("title_original", c_title_original);
         ("vndb_id", c_vndb_id); ("developer", c_developer);
         ("release_date", c_release_date); ("exe_path", c_exe_path);
         ("install_path", c_install_path); ("save_path", c_save_path);
         ("cover_path", c_cover_path); ("screenshots", c_screenshots);
         ("tags", c_tags); ("play_status", c_play_status); ("rating", c_rating);
         ("vndb_rating", c_vndb_rating); ("vndb_votecount", c_vndb_votecount);
         ("length_minutes", c_length_minutes); ("notes", c_notes);
         ("engine", c_engine); ("total_playtime", c_total_playtime);
         ("created_at", c_created_at); ("updated_at", c_updated_at) ]%string)
  = {| g_id := text_of c_id;
       g_title := text_of c_title;
       g_title_original := text_of c_title_original;
       g_vndb_id := or_else (text_of c_vndb_id) [];
       g_developer := text_of c_developer;
       g_release_date := text_of c_release_date;
       g_exe_path := text_of c_exe_path;
       g_install_path := text_of c_install_path;
       g_save_path := text_of c_save_path;
       g_cover_path := text_of c_cover_path;
       g_screenshots := parse (or_else (text_of c_screenshots) (lit "[]"));
       g_tags := parse (or_else (text_of c_tags) (lit "[]"));
       g_play_status := text_of c_play_status;
       g_rating := num_of c_rating;
       g_vndb_rating := num_of c_vndb_rating;
       g_vndb_votecount := num_of c_vndb_votecount;
       g_length_minutes := num_of c_length_minutes;
       g_notes := text_of c_notes;
       g_engine := text_of c_engine;
       g_total_playtime := num_of c_total_playtime;
       g_created_at := text_of c_created_at;
       g_updated_at := text_of c_updated_at |}.
Proof. vm_compute. reflexivity. Qed.

Lemma or_else_nil (s : jsstring) : or_else s [] = s.
Proof. by destruct s. Qed.

Lemma or_else_truthy (s t : jsstring) : s <> [] -> or_else s t = s.
Proof. by destruct s. Qed.

(** X5.  A game added is the game read back: every field of the form comes
    back as it went in (the lists through [JSON.stringify] and
    [JSON.parse], missing counts as 0), with no play time and both time
    stamps at the clock reading; the other games read as before. *)
Theorem addGame_getGameById id now (form : GameFormData) d :
  games d !! id = None ->
  parse (stringify (tags form)) = tags form ->
  parse (stringify (screenshots form)) = screenshots form ->
  stringify (tags form) <> [] ->
  stringify (screenshots form) <> [] ->
  getGameById parse id (addGame stringify id now form d) = Some (stored_game id now form)
  /\ forall id', id' <> id ->
       getGameById parse id' (addGame stringify id now form d) = getGameById parse id' d.
Proof.
  intros Hfresh Htags Hshots Htne Hsne. unfold getGameById, addGame. rewrite Hfresh.
  cbn [games set_games]. split.
  - rewrite lookup_insert_eq. cbn [fmap option_fmap option_map]. f_equal.
    rewrite rowToGame_full_row. unfold stored_game. cbn [text_of num_of].
    rewrite !or_else_nil.
    rewrite (or_else_truthy (stringify (tags form))) by done.
    rewrite (or_else_truthy (stringify (screenshots form))) by done.
    rewrite Htags, Hshots. reflexivity.
  - intros id' Hne. by rewrite lookup_insert_ne.
Qed.

Lemma filter_all {A} (P : A -> Prop) `{!forall x, Decision (P x)} (l : list A) :
  (forall x, x ∈ l -> P x) -> filter P l = l.
Proof.
  induction l as [|x l IH]; intros Hall; [done|].
  rewrite filter_cons. destruct (decide (P x)) as [_|Hn].
  - rewrite IH; [done|]. intros y Hy. apply Hall. by right.
  - exfalso. apply Hn, Hall. left.
Qed.

(** X6.  The life of a game.  Adding a game under a fresh identifier and
    deleting it again restores the tables, provided no session row refers
    to that identifier.  With a session recorded in between, the deletion
    takes the session with it when the foreign key is enforced, so that the
    tables are restored as well; when it is not enforced, the session row
    stays behind without its game. *)
Theorem addGame_deleteGame id now (form : GameFormData) d
    (sid now' startTime endTime : jsstring) (duration : Z) :
  games d !! id = None ->
  sid ∉ s_id <$> play_sessions d ->
  (forall s, s ∈ play_sessions d -> s_game_id s <> id) ->
  let added := addGame stringify id now form d in
  deleteGame foreign_keys id added = d
  /\ deleteGame foreign_keys id
       (addPlaySession foreign_keys sid now' id startTime endTime duration added)
     = if foreign_keys then d
       else set_play_sessions
              (play_sessions d ++
                 [{| s_id := sid; s_game_id := id; s_start_time := startTime;
                     s_end_time := endTime; s_duration := duration |}]) d.
Proof.
  intros Hfresh Hsid Hnone added. subst added. unfold addGame. rewrite Hfresh.
  destruct d as [g p s t]. cbn [games set_games play_sessions] in *.
  split.
  - unfold deleteGame, set_games, set_play_sessions.
    cbn [games play_sessions settings tag_translations].
    rewrite delete_insert_id by done.
    destruct foreign_keys; [|done]. by rewrite filter_all.
  - unfold addPlaySession. cbn [games set_games play_sessions].
    rewrite (bool_decide_eq_false_2 _ Hsid).
    rewrite lookup_insert_eq. rewrite bool_decide_eq_false_2 by done.
    rewrite andb_false_r. cbn [orb].
    unfold deleteGame, set_games, set_play_sessions.
    cbn [games play_sessions settings tag_translations].
    rewrite lookup_insert_eq. cbn [games play_sessions settings tag_translations].
    rewrite delete_insert_eq, delete_insert_id by done.
    destruct foreign_keys; [|done].
    rewrite filter_app, filter_all by done.
    rewrite filter_cons, filter_nil. cbn [s_game_id].
    destruct (decide (id <> id)); [done|]. by rewrite app_nil_r.
Qed.

(** X7.  What a session insert leaves alone: the session rows that were there
    stay as a prefix and at most the new row follows; on the owning game
    only [total_playtime] and [updated_at] can change; the other games,
    the settings and the tag cache are not touched.  When the identifier
    is taken, or the game has no row and the foreign key is enforced, the
    tables stay as they were. *)
Theorem addPlaySession_frame sid now gid startTime endTime (duration : Z) d :
  let d' := addPlaySession foreign_keys sid now gid startTime endTime duration d in
  let new := {| s_id := sid; s_game_id := gid; s_start_time := startTime;
                s_end_time := endTime; s_duration := duration |} in
  (play_sessions d' = play_sessions d \/ play_sessions d' = play_sessions d ++ [new])
  /\ (forall id', id' <> gid -> games d' !! id' = games d !! id')
  /\ (forall row', games d' !! gid = Some row' ->
        exists row, games d !! gid = Some row
          /\ forall col, col <> "total_playtime"%string -> col <> "updated_at"%string ->
               row' !! col = row !! col)
  /\ (games d !! gid = None -> games d' = games d)
  /\ (sid ∈ s_id <$> play_sessions d
      \/ (foreign_keys = true /\ games d !! gid = None) -> d' = d)
  /\ settings d' = settings d
  /\ tag_translations d' = tag_translations d.
Proof.
  intros d' new. subst d' new. unfold addPlaySession.
  destruct (bool_decide (sid ∈ s_id <$> play_sessions d)) eqn:Hsid; cbn [orb].
  { repeat apply conj; try done; [by left | eauto]. }
  apply bool_decide_eq_false in Hsid.
  destruct (games d !! gid) as [row|] eqn:Hrow.
  - rewrite bool_decide_eq_false_2 by done. rewrite andb_false_r.
    cbn [games set_play_sessions]. rewrite Hrow.
    cbn [games set_games set_play_sessions play_sessions settings tag_translations].
    repeat apply conj; try done.
    + by right.
    + intros id' Hne. by rewrite lookup_insert_ne.
    + intros row'. rewrite lookup_insert_eq. intros [= <-]. exists row. split; [done|].
      intros col H1 H2. by rewrite !lookup_insert_ne.
    + intros [Hin|[_ [=]]]. done.
  - rewrite bool_decide_eq_true_2 by done. rewrite andb_true_r.
    destruct foreign_keys.
    + repeat apply conj; try done; [by left | intros row'; by rewrite Hrow].
    + cbn [games set_play_sessions]. rewrite Hrow.
      cbn [games set_games set_play_sessions play_sessions settings tag_translations].
      repeat apply conj; try done.
      * by right.
      * intros row'. by rewrite Hrow.
      * intros [Hin|[[=] _]]. done.
Qed.

End GameRows.

Section GameRowsExample.
Import Game Database DatabaseRest.

(** A stand-in for [JSON.parse] on the texts [demo_stringify] writes for
    lists of strings without commas. *)
Definition demo_parse (s : jsstring) : list jsstring :=
  match removelast (tail s) with
  | [] => []
  | body => JsMore.split 44 body
  end.

(** A form with two tags and a screenshot. *)
Definition tagged_form : GameFormData :=
  {| title := lit "Mine"; title_original := []; vndb_id := lit "v17";
     developer := lit "Key"; release_date := lit "2004-04-28";
     exe_path := lit "D:\Games\Mine\mine.exe"; install_path := lit "D:\Games\Mine";
     save_path := []; cover_path := [];
     screenshots := [lit "/shots/sf1.jpg"]; tags := [lit "Drama"; lit "Romance"];
     play_status := playing; rating := Q2Qc 8; vndb_rating := Q2Qc (86 # 10);
     vndb_votecount := Some 1200%Z; length_minutes := None;
     notes := lit "A story."; engine := lit "KiriKiri" |}.

(** A library that holds this one game. *)
Definition one_game : Db := addGame demo_stringify (lit "g1") t0 tagged_form empty_db.

(** The update the match dialog could hand over: a new title, new tags,
    and no notes. *)
Definition demo_update : list (FormKey * FormValue) :=
  [ (k_title, FvStr (lit "New title"));
    (k_tags, FvList [lit "Drama"; lit "Mystery"]);
    (k_notes, FvUndefined) ].

(** The update on the one game: the title and the tags are written, the
    notes and the executable stay. *)
Lemma updateGame_partial_witness :
  exists row',
    games (updateGame demo_stringify (lit "g1") demo_update t1 one_game) !! lit "g1" = Some row'
    /\ row' !! "title"%string = Some (SqlText (lit "New title"))
    /\ row' !! "tags"%string = Some (SqlText (lit "[Drama,Mystery]"))
    /\ row' !! "notes"%string = Some (SqlText (lit "A story."))
    /\ row' !! "exe_path"%string = Some (SqlText (lit "D:\Games\Mine\mine.exe"))
    /\ row' !! "updated_at"%string = Some (SqlText t1)
    /\ row' !! "created_at"%string = Some (SqlText t0).
Proof.
  assert (Hrow : exists row,
             games one_game !! lit "g1" = Some row
             /\ row !! "notes"%string = Some (SqlText (lit "A story."))
             /\ row !! "exe_path"%string = Some (SqlText (lit "D:\Games\Mine\mine.exe"))
             /\ row !! "created_at"%string = Some (SqlText t0)).
  { eexists. split; [apply lookup_insert_eq|]. vm_compute. repeat split. }
  destruct Hrow as (row & Hrow & Hnotes & Hexe & Hcreated0).
  destruct (updateGame_partial demo_stringify (lit "g1") demo_update t1 one_game row Hrow)
    as (row' & Hrow' & Hupd & Hkeep & _ & Hcreated & _ & Hset & _).
  { repeat constructor; not_in_list. }
  exists row'. split; [exact Hrow'|].
  split; [exact (Hset k_title (FvStr (lit "New title")) ltac:(left) eq_refl)|].
  split.
  { eapply eq_trans;
      [exact (Hset k_tags (FvList [lit "Drama"; lit "Mystery"]) ltac:(right; left) eq_refl)|].
    reflexivity. }
  split.
  { rewrite (Hkeep "notes"%string); [exact Hnotes | discriminate | simpl; not_in_list]. }
  split.
  { rewrite (Hkeep "exe_path"%string); [exact Hexe | discriminate | simpl; not_in_list]. }
  split; [exact Hupd|].
  by rewrite Hcreated.
Defined.

(** The form stored in an empty library reads back as it went in. *)
Lemma addGame_getGameById_witness :
  getGameById demo_parse (lit "g1") one_game = Some (stored_game (lit "g1") t0 tagged_form)
  /\ g_tags (stored_game (lit "g1") t0 tagged_form) = [lit "Drama"; lit "Romance"].
Proof.
  split; [|reflexivity].
  apply (addGame_getGameById demo_stringify demo_parse (lit "g1") t0 tagged_form empty_db);
    first [reflexivity | discriminate].
Defined.

(** The one game with a session; a second game comes, is played and
    goes. *)
Definition one_session : Db :=
  addPlaySession true (lit "s1") t1 (lit "g1") t0 t1 60 one_game.

Lemma addGame_deleteGame_witness :
  deleteGame true (lit "g2")
    (addPlaySession true (lit "s2") t1 (lit "g2") t0 t1 1000
       (addGame demo_stringify (lit "g2") t1 (blank_form "Other") one_session))
  = one_session.
Proof.
  destruct (addGame_deleteGame demo_stringify true (lit "g2") t1 (blank_form "Other")
              one_session (lit "s2") t1 t0 t1 1000) as [_ Hlife].
  - reflexivity.
  - intros Hin. apply list_elem_of_singleton in Hin. discriminate Hin.
  - intros s Hs. apply list_elem_of_singleton in Hs as ->. discriminate.
  - exact Hlife.
Defined.

End GameRowsExample.

(** ** Translation gateway: what is sent, and what the cache keeps *)

Section GatewayMore.
Import Database Deepseek.

Implicit Types (tags : list jsstring) (d : Db).

Lemma misses_elem tags d t :
  t ∈ misses tags d <-> t ∈ tags /\ tag_translations d !! t = None.
Proof. unfold misses. rewrite list_elem_of_filter. tauto. Qed.

Lemma zip_keys_misses tags d (translated : list jsstring) t :
  t ∈ (zip (misses tags d) translated).*1 -> t ∈ misses tags d.
Proof.
  intros Hin. apply list_elem_of_fmap in Hin as ([a b] & -> & Hin).
  simpl. by apply elem_of_zip_l in Hin.
Qed.

Lemma resolve_cached tags d :
  resolve (getTagTranslations tags d) tags = resolve (tag_translations d) tags.
Proof. apply resolve_agree. intros t Ht. by apply getTagTranslations_lookup. Qed.

Lemma translateTags_keeps_row translate tags apiKey d t v :
  tag_translations d !! t = Some v ->
  tag_translations (db_after (translateTags translate tags apiKey d)) !! t = Some v.
Proof.
  intros Hv.
  destruct (translateTags_ending translate tags apiKey d)
    as [_ | _ _ | translated _ _ _ _ _ | translated _ _ _ _ _ | e _ _ _ _];
    cbn [db_after]; try done.
  unfold setTagTranslations. cbn [tag_translations set_tag_translations].
  fold (upserts (tag_translations d) (zip (misses tags d) translated)).
  rewrite upserts_other; [done|].
  intros Hin. apply zip_keys_misses, misses_elem in Hin as [_ Hnone]. congruence.
Qed.

Lemma translateTags_calls_cases translate tags apiKey d :
  calls (translateTags translate tags apiKey d) = []
  \/ calls (translateTags translate tags apiKey d) = [misses tags d].
Proof.
  destruct (translateTags_ending translate tags apiKey d); cbn [calls]; auto.
Qed.

(** X8.  [translateTags] only ever adds to the cache: a row that was there is
    still there with the same translation, whatever the translator
    returned; a row that is new belongs to a requested tag that had none;
    and the other tables are not touched. *)
Theorem translateTags_keeps_cache translate tags apiKey d :
  let d' := db_after (translateTags translate tags apiKey d) in
  games d' = games d /\ play_sessions d' = play_sessions d /\ settings d' = settings d
  /\ (forall t v, tag_translations d !! t = Some v -> tag_translations d' !! t = Some v)
  /\ (forall t v, tag_translations d' !! t = Some v ->
        tag_translations d !! t = Some v
        \/ (t ∈ tags /\ tag_translations d !! t = None)).
Proof.
  intros d'. subst d'.
  destruct (translateTags_ending translate tags apiKey d)
    as [_ | _ _ | translated _ _ _ _ _ | translated _ _ _ _ _ | e _ _ _ _];
    cbn [db_after]; try (repeat apply conj; by auto).
  unfold setTagTranslations.
  cbn [games play_sessions settings tag_translations set_tag_translations].
  fold (upserts (tag_translations d) (zip (misses tags d) translated)).
  repeat apply conj; try done.
  - intros t v Hv. rewrite upserts_other; [done|].
    intros Hin. apply zip_keys_misses, misses_elem in Hin as [_ Hnone]. congruence.
  - intros t v Hv. apply upserts_Some in Hv as [Hv|Hin]; [by left|]. right.
    apply misses_elem. apply (zip_keys_misses tags d translated).
    apply list_elem_of_fmap. by exists (t, v).
Qed.

(** X9.  When [translateTags] turns to the translator, and with what: at most
    once per call, exactly when the credential is not blank and some
    requested tag has no cache row, and then with exactly the requested
    tags that have no row, in the order of the request.  With a blank
    credential, an empty request or a cache that covers the request,
    nothing is sent, nothing is written, and every tag comes back as its
    cached translation, or as itself. *)
Theorem translateTags_calls translate tags apiKey d :
  let out := translateTags translate tags apiKey d in
  (calls out = [] \/ calls out = [misses tags d])
  /\ (calls out = [misses tags d] <->
        truthy (trim apiKey) = true /\ misses tags d <> [])
  /\ (forall t, t ∈ misses tags d <-> t ∈ tags /\ tag_translations d !! t = None)
  /\ (calls out = [] ->
        db_after out = d /\ returned out = resolve (tag_translations d) tags).
Proof.
  intros out. subst out.
  destruct (translateTags_ending translate tags apiKey d)
    as [-> | Hne [Hm|Hk] | translated Hne Hm Hk _ _ | translated Hne Hm Hk _ _ | e Hne Hm Hk _];
    cbn [calls db_after returned]; rewrite ?resolve_cached;
    (split; [auto|]); (split; [|split; [apply misses_elem|]]);
    try (intros [=]; fail); try done.
  - split; [done|]. by intros [_ H].
  - split; [done|]. rewrite Hm. by intros [_ H].
  - split; [done|]. rewrite Hk. by intros [[=] _].
Qed.

(** X10.  A cached translation always wins over the translator: a requested tag
    that has a cache row comes back as that row's translation, or as
    itself when that translation is the empty string, whatever the
    translator returns; it is never part of a batch, and its row stays as
    it is.  So a tag whose stored translation is empty is pinned to its
    source text and never translated again. *)
Theorem translateTags_cached_wins translate tags apiKey d i t v :
  tags !! i = Some t ->
  tag_translations d !! t = Some v ->
  let out := translateTags translate tags apiKey d in
  returned out !! i = Some (or_else v t)
  /\ (v = [] -> returned out !! i = Some t)
  /\ (forall batch, batch ∈ calls out -> t ∉ batch)
  /\ tag_translations (db_after out) !! t = Some v.
Proof.
  intros Hi Hv out.
  assert (Hin : t ∈ tags) by (by eapply list_elem_of_lookup_2).
  assert (Hmiss : t ∉ misses tags d).
  { intros Hm. apply misses_elem in Hm as [_ Hnone]. congruence. }
  assert (Hret : returned out !! i = Some (or_else v t)).
  { subst out.
    assert (Hcache : resolve (getTagTranslations tags d) tags !! i = Some (or_else v t)).
    { rewrite (resolve_lookup _ _ _ _ Hi), getTagTranslations_lookup, Hv by done. done. }
    destruct (translateTags_ending translate tags apiKey d)
      as [-> | _ _ | translated _ _ _ _ _ | translated _ _ _ _ _ | e _ _ _ _];
      cbn [returned]; try done.
    rewrite (resolve_lookup _ _ _ _ Hi). rewrite upserts_other.
    - by rewrite getTagTranslations_lookup, Hv.
    - intros Hk. by apply zip_keys_misses in Hk. }
  repeat apply conj.
  - exact Hret.
  - intros ->. by rewrite Hret.
  - intros batch Hb.
    destruct (translateTags_calls_cases translate tags apiKey d) as [Hc|Hc].
    + fold out in Hc. rewrite Hc in Hb. by apply elem_of_nil in Hb.
    + fold out in Hc. rewrite Hc in Hb. by apply list_elem_of_singleton in Hb as ->.
  - by apply translateTags_keeps_row.
Qed.

End GatewayMore.

Section GatewayMoreExample.
Import Database Deepseek.

(** A cache that holds an empty translation for the one tag. *)
Definition db_pinned : Db :=
  {| games := ∅; play_sessions := []; settings := ∅;
     tag_translations := {[ lit "ADV" := [] ]} |}.

(** The pinned tag next to a new one: only the new one is sent, and the
    pinned one comes back as its source text. *)
Lemma translateTags_cached_wins_witness :
  returned (translateTags short_translator [lit "ADV"; lit "a"] (lit "sk-1") db_pinned) !! 0%nat
    = Some (lit "ADV")
  /\ calls (translateTags short_translator [lit "ADV"; lit "a"] (lit "sk-1") db_pinned)
     = [[lit "a"]].
Proof.
  split; [|vm_compute; reflexivity].
  apply (translateTags_cached_wins short_translator [lit "ADV"; lit "a"] (lit "sk-1")
           db_pinned 0%nat (lit "ADV") []); reflexivity.
Defined.

End GatewayMoreExample.

(** ** Markup cleaning and the description sent to the translator *)

Section MarkupMore.
Import Regex Markup DeepseekRest.

Lemma plainb_app s1 s2 : plainb (s1 ++ s2) = plainb s1 && plainb s2.
Proof. unfold plainb. apply forallb_app. Qed.

Lemma plainb_concat (l : list jsstring) :
  Forall (fun s => plainb s = true) l -> plainb (concat l) = true.
Proof.
  induction 1 as [|s l Hs _ IH]; [done|].
  simpl. by rewrite plainb_app, Hs, IH.
Qed.

Lemma plainb_trim s : plainb s = true -> plainb (trim s) = true.
Proof.
  intros Hs. destruct (trim_split s) as (pre & post & E & _).
  rewrite E, !plainb_app, !andb_true_iff in Hs. tauto.
Qed.

(** Text in which no opening bracket is followed by a letter that starts
    one of the six tags. *)
Lemma clean_with_inert sp s :
  inertb sp = true -> inertb s = true -> clean_with sp s = trim s.
Proof.
  intros Hsp Hs.
  pose proof (clean_with_pieces sp [Text s] Hsp) as H.
  unfold source in H. simpl in H. rewrite !app_nil_r in H.
  apply H. by repeat constructor.
Qed.

Lemma image_plain (p : Piece) :
  well_formed p = true -> (forall s, p = Text s -> plainb s = true) ->
  plainb (image [] p) = true.
Proof.
  intros Hwf Htext. destruct p as [s|x y|b|b|b|l x|l x]; simpl in *; try done.
  - by apply Htext.
  - apply andb_true_iff in Hwf as [_ Hy]. done.
Qed.

(** X11.  Text without markup is only trimmed: when the description does not
    end in an opening bracket and none of its opening brackets is followed
    by one of the letters u, s, r, c, e or f (in either case for the last
    two), both cleaners return the description with the white space at its
    ends removed. *)
Theorem cleaners_on_plain_text (s : jsstring) :
  inertb s = true ->
  cleanDescription (Some s) = trim s /\ cleanVndbMarkup s = trim s.
Proof.
  intros Hs. split.
  - rewrite cleanDescription_clean_with. by apply clean_with_inert.
  - unfold cleanVndbMarkup. by apply clean_with_inert.
Qed.

(** X12.  What the pre-translation cleaner hands on, for a description of
    well-formed pieces whose text has no opening bracket: no opening
    bracket is left, no white space at either end, and cleaning the result
    again with either cleaner changes nothing.  The two cleaners differ on
    spoiler blocks only: on a description without one they agree. *)
Theorem cleanVndbMarkup_output (ps : list Piece) :
  all_well_formed ps ->
  (forall s, Text s ∈ ps -> plainb s = true) ->
  let out := cleanVndbMarkup (source ps) in
  plainb out = true
  /\ tight out
  /\ cleanVndbMarkup out = out
  /\ cleanDescription (Some out) = out
  /\ ((forall b, Spoiler b ∉ ps) -> cleanDescription (Some (source ps)) = out).
Proof.
  intros Hwf Htext out.
  assert (Hout : out = trim (concat (image [] <$> ps))).
  { subst out. unfold cleanVndbMarkup. by apply clean_with_pieces. }
  assert (Hplain : plainb out = true).
  { rewrite Hout. apply plainb_trim, plainb_concat.
    apply Forall_fmap. unfold all_well_formed in Hwf.
    rewrite Forall_forall in Hwf. apply Forall_forall.
    intros p Hp. simpl. apply image_plain; [by apply Hwf|].
    intros s ->. by apply Htext. }
  assert (Htrim : trim out = out) by (rewrite Hout; apply trim_idemp).
  split; [exact Hplain|]. split; [|split; [|split]].
  - rewrite Hout.
    destruct (trim_split (concat (image [] <$> ps))) as (pre & post & _ & _ & _ & Ht).
    exact Ht.
  - unfold cleanVndbMarkup. rewrite clean_with_inert; [done|done|by apply plain_inert].
  - rewrite cleanDescription_clean_with, clean_with_inert; [done|done|by apply plain_inert].
  - intros Hno. rewrite cleanDescription_clean_with, Hout.
    rewrite clean_with_pieces by done. do 2 f_equal.
    apply list_fmap_ext. intros i p Hp. destruct p; try done.
    exfalso. apply (Hno b). by eapply list_elem_of_lookup_2.
Qed.

Section Description.
Variable translate_text : jsstring -> jsstring -> Result jsstring.

Lemma translateDescription_blank (text apiKey : jsstring) :
  truthy (trim text) = false \/ truthy (trim apiKey) = false ->
  translateDescription translate_text text apiKey
  = {| desc_returned := Ok text; desc_sent := [] |}.
Proof.
  unfold translateDescription. intros [-> | ->]; [reflexivity|].
  by rewrite orb_true_r.
Qed.

Lemma translateDescription_ready (text apiKey : jsstring) :
  truthy (trim text) = true -> truthy (trim apiKey) = true ->
  translateDescription translate_text text apiKey
  = match cleanVndbMarkup text with
    | [] => {| desc_returned := Ok []; desc_sent := [] |}
    | _ :: _ =>
        let sent :=
          if (3000 <? length (cleanVndbMarkup text))%nat
          then take 3000 (cleanVndbMarkup text) ++ lit "..."
          else cleanVndbMarkup text in
        {| desc_returned := translate_text apiKey sent; desc_sent := [sent] |}
    end.
Proof.
  unfold translateDescription. intros -> ->.
  change (negb true || negb true) with false. cbv iota.
  by destruct (cleanVndbMarkup text).
Qed.

(** X13.  What [translateDescription] sends to the backend: at most one text
    per call; only when neither the description nor the credential is
    blank and cleaning leaves something; the text is never empty, never
    longer than 3003 code units, and is the cleaned description itself, or
    its first 3000 code units followed by three full stops when it is
    longer than 3000; and what the backend answers is what the call
    settles to.  With a blank description or credential the description
    comes back as it was given, markup included; when cleaning leaves
    nothing, the empty string comes back. *)
Theorem translateDescription_sends (text apiKey : jsstring) :
  let out := translateDescription translate_text text apiKey in
  let cleaned := cleanVndbMarkup text in
  (length (desc_sent out) <= 1)%nat
  /\ (forall sent, sent ∈ desc_sent out ->
        truthy (trim text) = true /\ truthy (trim apiKey) = true
        /\ sent <> []
        /\ (length sent <= 3003)%nat
        /\ (((length cleaned <= 3000)%nat /\ sent = cleaned)
            \/ ((3000 < length cleaned)%nat /\ sent = take 3000 cleaned ++ lit "..."))
        /\ desc_returned out = translate_text apiKey sent)
  /\ (truthy (trim text) = false \/ truthy (trim apiKey) = false ->
        out = {| desc_returned := Ok text; desc_sent := [] |})
  /\ (truthy (trim text) = true -> truthy (trim apiKey) = true -> cleaned = [] ->
        out = {| desc_returned := Ok []; desc_sent := [] |}).
Proof.
  intros out cleaned.
  assert (Hnone : forall o : DescOutcome, desc_sent o = [] ->
            (length (desc_sent o) <= 1)%nat
            /\ forall sent, sent ∈ desc_sent o ->
                 truthy (trim text) = true /\ truthy (trim apiKey) = true
                 /\ sent <> []
                 /\ (length sent <= 3003)%nat
                 /\ (((length cleaned <= 3000)%nat /\ sent = cleaned)
                     \/ ((3000 < length cleaned)%nat
                         /\ sent = take 3000 cleaned ++ lit "..."))
                 /\ desc_returned o = translate_text apiKey sent).
  { intros o ->. split; [simpl; lia|]. intros sent Hs. by apply elem_of_nil in Hs. }
  destruct (truthy (trim text)) eqn:Htext; [destruct (truthy (trim apiKey)) eqn:Hkey|].
  - assert (Hout : out = _) by (apply translateDescription_ready; done).
    fold cleaned in Hout. clearbody out. subst out.
    destruct cleaned as [|c0 cl] eqn:Hcl.
    + destruct (Hnone {| desc_returned := Ok []; desc_sent := [] |} eq_refl) as [H1 H2].
      split; [exact H1|]. split; [exact H2|]. split; [by intros [[=]|[=]] | done].
    + cbv zeta. cbn [desc_sent desc_returned].
      set (whole := c0 :: cl). split; [simpl; lia|]. split; [|split; [by intros [[=]|[=]] | by intros _ _ [=]]].
      intros sent Hs. apply list_elem_of_singleton in Hs. subst sent.
      split; [done|]. split; [done|].
      destruct (Nat.ltb_spec 3000 (length whole)) as [Hlong|Hshort].
      * assert (Hlen : length (take 3000 whole ++ lit "...") = 3003%nat).
        { rewrite length_app, length_take. change (length (lit "...")) with 3%nat. lia. }
        split; [intros E; rewrite E in Hlen; simpl in Hlen; lia|].
        split; [lia|]. split; [by right | done].
      * split; [done|]. split; [lia|]. split; [by left | done].
  - assert (Hout : out = _) by (apply translateDescription_blank; by right).
    clearbody out. subst out.
    destruct (Hnone {| desc_returned := Ok text; desc_sent := [] |} eq_refl) as [H1 H2].
    split; [exact H1|]. split; [exact H2|]. split; [done | by intros _ [=]].
  - assert (Hout : out = _) by (apply translateDescription_blank; by left).
    clearbody out. subst out.
    destruct (Hnone {| desc_returned := Ok text; desc_sent := [] |} eq_refl) as [H1 H2].
    split; [exact H1|]. split; [exact H2|]. split; [done | by intros [=]].
Qed.

End Description.

End MarkupMore.

Section MarkupMoreExample.
Import Regex Markup.

(** A description whose only bracket opens no tag. *)
Lemma cleaners_on_plain_text_witness :
  cleanDescription (Some (lit "  Route [A] is the true route. ")) = lit "Route [A] is the true route."
  /\ cleanVndbMarkup (lit "  Route [A] is the true route. ") = lit "Route [A] is the true route.".
Proof.
  destruct (cleaners_on_plain_text (lit "  Route [A] is the true route. ") eq_refl)
    as [H1 H2].
  rewrite H1, H2. split; vm_compute; reflexivity.
Defined.

(** The description of the scenario: what goes to the translator has no
    bracket and is left alone by a second cleaning. *)
Lemma cleanVndbMarkup_output_witness :
  plainb (cleanVndbMarkup (source hello_pieces)) = true
  /\ cleanVndbMarkup (cleanVndbMarkup (source hello_pieces))
     = cleanVndbMarkup (source hello_pieces).
Proof.
  assert (Hwf : all_well_formed hello_pieces) by (repeat constructor).
  assert (Htext : forall s, Text s ∈ hello_pieces -> plainb s = true).
  { intros s Hs. unfold hello_pieces in Hs.
    repeat (apply elem_of_cons in Hs as [Hs|Hs];
            [first [discriminate Hs | injection Hs as ->; reflexivity]|]).
    by apply elem_of_nil in Hs. }
  destruct (cleanVndbMarkup_output hello_pieces Hwf Htext) as (H1 & _ & H3 & _).
  by split.
Defined.

End MarkupMoreExample.

(** ** Catalog client: tag extraction in general, and the developer lookup *)

Section StableSort.
Context {A : Type}.
Variable after : A -> A -> bool.
Variable P : A -> Prop.
Context `{!forall x, Decision (P x)}.
(** The comparator never puts one element of the class after another. *)
Hypothesis apart : forall x y, after x y = true -> P x -> P y -> False.

Lemma sort_insert_class (x : A) (l : list A) :
  filter P (sort_insert after x l) = filter P (x :: l).
Proof.
  induction l as [|y l IH]; [done|].
  simpl. destruct (after x y) eqn:Hxy; [|done].
  rewrite (filter_cons _ y), IH, !filter_cons.
  destruct (decide (P y)) as [Hy|Hy]; [|done].
  destruct (decide (P x)) as [Hx|Hx]; [|done].
  exfalso. by eapply apart.
Qed.

(** The elements of the class come out of the sort in the order they went
    in. *)
Lemma sort_class (l : list A) : filter P (Js.sort after l) = filter P l.
Proof.
  induction l as [|x l IH]; [done|].
  simpl. rewrite sort_insert_class, !filter_cons. by rewrite IH.
Qed.

End StableSort.

Section TagExtractionMore.
Import Vndb.

(** X14.  [extractTags] for any spoiler threshold and any count.  There is a
    list [kept] that holds exactly the tags that pass the filter, in
    descending order of rating, tags of equal rating in the order of the
    input, such that a count [n >= 0] gives the names of the first [n]
    entries of [kept] and a count [-k < 0] the names of all but the last
    [k].  So a count of 0 gives nothing, the result never has more than [n]
    names, every name is the name of an input tag that passes the filter,
    and a larger count only appends names. *)
Theorem extractTags_any_count (tags : list VndbTag) (maxSpoiler : Qc) :
  exists kept : list VndbTag,
    kept ≡ₚ filter (fun t => tag_kept maxSpoiler t = true) tags
    /\ StronglySorted rating_desc kept
    /\ (forall r, filter (fun t => tag_rating t = r) kept
                  = filter (fun t => tag_rating t = r)
                      (filter (fun t => tag_kept maxSpoiler t = true) tags))
    /\ (forall n : nat,
          extractTags tags maxSpoiler (Z.of_nat n) = tag_name <$> take n kept
          /\ (length (extractTags tags maxSpoiler (Z.of_nat n)) <= n)%nat)
    /\ (forall k : nat,
          extractTags tags maxSpoiler (- Z.of_nat (S k))
          = tag_name <$> take (length kept - S k) kept)
    /\ extractTags tags maxSpoiler 0 = []
    /\ (forall (n : nat) name, name ∈ extractTags tags maxSpoiler (Z.of_nat n) ->
          exists t, t ∈ tags /\ tag_kept maxSpoiler t = true /\ tag_name t = name)
    /\ (forall n m : nat, (n <= m)%nat ->
          extractTags tags maxSpoiler (Z.of_nat n)
            `prefix_of` extractTags tags maxSpoiler (Z.of_nat m)).
Proof.
  set (passing := filter (fun t => tag_kept maxSpoiler t = true) tags).
  exists (Js.sort rating_after passing).
  assert (Hn : forall n : nat,
            extractTags tags maxSpoiler (Z.of_nat n)
            = tag_name <$> take n (Js.sort rating_after passing)).
  { intros n. unfold extractTags. by rewrite slice0_take. }
  split; [apply sort_perm|].
  split.
  { apply Sorted_StronglySorted; [apply _|].
    apply (sort_sorted rating_after rating_desc);
      [apply rating_after_false | apply rating_after_true]. }
  split.
  { intros r. apply sort_class. intros x y Hxy Hx Hy.
    unfold rating_after in Hxy. apply bool_decide_eq_true in Hxy.
    rewrite Hx, Hy in Hxy. by apply Qclt_not_eq in Hxy. }
  split.
  { intros n. split; [apply Hn|]. rewrite Hn, length_fmap, length_take. lia. }
  split.
  { intros k. unfold extractTags, slice0. fold passing.
    destruct (Z.ltb_spec (- Z.of_nat (S k)) 0) as [_|Hge]; [|lia].
    do 2 f_equal. lia. }
  split; [apply (Hn 0%nat)|].
  split.
  { intros n name. rewrite Hn. intros Hin.
    apply list_elem_of_fmap in Hin as (t & -> & Hin).
    apply elem_of_take in Hin as (i & Hi & _).
    apply list_elem_of_lookup_2 in Hi.
    rewrite (sort_perm rating_after passing) in Hi.
    apply list_elem_of_filter in Hi as [Hkept Hin]. by exists t. }
  intros n m Hnm. rewrite !Hn.
  exists (tag_name <$> drop n (take m (Js.sort rating_after passing))).
  rewrite <- fmap_app. f_equal.
  rewrite <- (take_drop n (take m (Js.sort rating_after passing))) at 1.
  f_equal. rewrite take_take. f_equal. lia.
Qed.

End TagExtractionMore.

Section Developers.
Import Vndb VndbRest.

Implicit Types (m : list (jsstring * VndbProducer)) (l : list RawProducer).

Definition to_producer (rp : RawProducer) : VndbProducer :=
  {| prod_id := rp_id rp; prod_name := rp_name rp; prod_original := rp_original rp |}.

(** The producers of all releases of a response, in order. *)
Definition producers_of (resp : ReleaseResponse) : list RawProducer :=
  concat ((fun r => default [] (rel_producers r)) <$> default [] (resp_results resp)).

(** [rp] is the first developer of [l] with the identifier [id]. *)
Definition first_developer l (id : jsstring) (rp : RawProducer) : Prop :=
  exists l1 l2, l = l1 ++ rp :: l2 /\ rp_developer rp = true /\ rp_id rp = id
    /\ forall rp', rp' ∈ l1 -> rp_developer rp' = true -> rp_id rp' <> id.

Lemma add_releases_concat m (rs : list RawRelease) :
  foldl add_release m rs
  = foldl add_producer m (concat ((fun r => default [] (rel_producers r)) <$> rs)).
Proof.
  revert m. induction rs as [|r rs IH]; intros m; [done|].
  simpl. rewrite foldl_app. apply IH.
Qed.

(** The map while the producers are added: keyed by the producer's own
    identifier, without repeats. *)
Definition keyed m : Prop :=
  NoDup m.*1 /\ forall id p, (id, p) ∈ m -> prod_id p = id.

Lemma add_producer_keyed m rp : keyed m -> keyed (add_producer m rp).
Proof.
  intros [Hnd Hid]. unfold add_producer, devMap_has.
  destruct (rp_developer rp); [|done]. simpl.
  case_bool_decide as Hin; [done|]. simpl. split.
  - rewrite fmap_app. apply NoDup_app. split; [done|]. split.
    + intros x Hx Hx'. apply list_elem_of_singleton in Hx'. by subst.
    + apply NoDup_singleton.
  - intros id p Hp. apply elem_of_app in Hp as [Hp|Hp]; [by apply Hid|].
    apply list_elem_of_singleton in Hp. by injection Hp as -> ->.
Qed.

Lemma add_producers_keyed l : forall m, keyed m -> keyed (foldl add_producer m l).
Proof.
  induction l as [|rp l IH]; intros m Hm; [done|].
  simpl. by apply IH, add_producer_keyed.
Qed.

(** The entries after the fold: those of the start, followed by the first
    developers of [l] under identifiers the start does not hold. *)
Lemma add_producers_elem l : forall m id p,
  (id, p) ∈ foldl add_producer m l <->
  ((id, p) ∈ m
   \/ ((id ∉ m.*1) /\ exists rp, first_developer l id rp /\ p = to_producer rp)).
Proof.
  induction l as [|rp l IH]; intros m id p.
  - simpl. split; [by left|]. intros [H|(_ & rp & (l1 & l2 & E & _) & _)]; [done|].
    by destruct l1.
  - simpl. rewrite IH. unfold add_producer at 1 2, devMap_has.
    destruct (rp_developer rp) eqn:Hdev; simpl.
    + case_bool_decide as Hin; simpl.
      * split.
        -- intros [H|(Hid & rp' & (l1 & l2 & -> & Hd & He & Hfirst) & ->)]; [by left|].
           right. split; [done|]. exists rp'. split; [|done].
           exists (rp :: l1), l2. repeat split; try done.
           intros rp0 H0 Hd0. apply elem_of_cons in H0 as [->|H0]; [|by apply Hfirst].
           intros E. apply Hid. by rewrite <- E.
        -- intros [H|(Hid & rp' & (l1 & l2 & E & Hd & He & Hfirst) & ->)]; [by left|].
           right. split; [done|]. exists rp'. split; [|done].
           destruct l1 as [|rp0 l1]; simpl in E.
           ++ injection E as -> ->. exfalso. apply Hid. by rewrite <- He.
           ++ injection E as -> ->. exists l1, l2. repeat split; try done.
              intros rp1 H1. apply Hfirst. by right.
      * rewrite fmap_app. simpl. split.
        -- intros [H|(Hid & rp' & (l1 & l2 & -> & Hd & He & Hfirst) & ->)].
           ++ apply elem_of_app in H as [H|H]; [by left|].
              apply list_elem_of_singleton in H. injection H as -> ->.
              right. split; [done|]. exists rp. split; [|done].
              exists [], (l). repeat split; try done.
              intros rp0 H0. by apply elem_of_nil in H0.
           ++ right. apply not_elem_of_app in Hid as [Hid Hne].
              split; [done|]. exists rp'. split; [|done].
              exists (rp :: l1), l2. repeat split; try done.
              intros rp0 H0 Hd0. apply elem_of_cons in H0 as [->|H0]; [|by apply Hfirst].
              intros E. apply Hne. rewrite E. left.
        -- intros [H|(Hid & rp' & (l1 & l2 & E & Hd & He & Hfirst) & ->)].
           ++ left. apply elem_of_app. by left.
           ++ destruct l1 as [|rp0 l1]; simpl in E.
              ** injection E as -> ->. left. apply elem_of_app. right.
                 rewrite <- He. left.
              ** injection E as -> ->. right. split.
                 --- apply not_elem_of_app. split; [done|].
                     intros H1. apply list_elem_of_singleton in H1.
                     apply (Hfirst rp0); [left | done | done].
                 --- exists rp'. split; [|done]. exists l1, l2. repeat split; try done.
                     intros rp1 H1. apply Hfirst. by right.
    + split.
      * intros [H|(Hid & rp' & (l1 & l2 & -> & Hd & He & Hfirst) & ->)]; [by left|].
        right. split; [done|]. exists rp'. split; [|done].
        exists (rp :: l1), l2. repeat split; try done.
        intros rp0 H0 Hd0. apply elem_of_cons in H0 as [->|H0]; [congruence|by apply Hfirst].
      * intros [H|(Hid & rp' & (l1 & l2 & E & Hd & He & Hfirst) & ->)]; [by left|].
        right. split; [done|]. exists rp'. split; [|done].
        destruct l1 as [|rp0 l1]; simpl in E.
        -- injection E as -> ->. congruence.
        -- injection E as -> ->. exists l1, l2. repeat split; try done.
           intros rp1 H1. apply Hfirst. by right.
Qed.

(** The values come in the order of the producers. *)
Lemma add_producers_order l : forall m,
  exists added, (foldl add_producer m l).*2 = m.*2 ++ added
    /\ added `sublist_of` (to_producer <$> filter (fun rp => rp_developer rp = true) l).
Proof.
  induction l as [|rp l IH]; intros m.
  - exists []. by rewrite app_nil_r.
  - simpl. destruct (IH (add_producer m rp)) as (added & E & Hsub).
    rewrite E. unfold add_producer, devMap_has. rewrite filter_cons.
    destruct (rp_developer rp) eqn:Hdev; simpl.
    + case_bool_decide as Hin; simpl.
      * exists added. split; [done|]. by apply sublist_cons.
      * exists (to_producer rp :: added). split.
        -- by rewrite fmap_app, <- app_assoc.
        -- by apply sublist_skip.
    + exists added. done.
Qed.


End Developers.

(** ** Scan dialog: the list of folders *)

Section FolderList.
Import Vndb Game Enrich ScanDialog ScanDialogRest.

Implicit Types (items : list ImportItem) (found : list DetectedGame).

(** The install paths of the items. *)
Definition paths_of items : list jsstring :=
  (fun i => d_install_path (ScanDialog.detected i)) <$> items.

Lemma paths_of_app items1 items2 :
  paths_of (items1 ++ items2) = paths_of items1 ++ paths_of items2.
Proof. unfold paths_of. apply fmap_app. Qed.

Lemma paths_of_new found : paths_of (new_item <$> found) = d_install_path <$> found.
Proof. unfold paths_of. rewrite <- list_fmap_compose. done. Qed.

Lemma filter_none {A} (P : A -> Prop) `{!forall x, Decision (P x)} (l : list A) :
  (forall x, x ∈ l -> ~ P x) -> filter P l = [].
Proof.
  induction l as [|x l IH]; intros Hall; [done|].
  rewrite filter_cons. destruct (decide (P x)) as [Hp|_].
  - exfalso. apply (Hall x); [left | done].
  - apply IH. intros y Hy. apply Hall. by right.
Qed.

(** X16.  Adding scanned folders: the items that were there stay as they are,
    in place; what follows them are new, pending items, one for each
    scanned folder whose install path no item had, in the order of the
    scan; afterwards every scanned folder has an item; adding the same
    scan again adds nothing; and the install paths of the items stay
    pairwise distinct when those of the scan are. *)
Theorem handleAddFolders_spec found items :
  let items' := handleAddFolders found items in
  items' = items ++ (new_item <$> filter (fun g => d_install_path g ∉ paths_of items) found)
  /\ take (length items) items' = items
  /\ (forall it, it ∈ drop (length items) items' ->
        status it = pending /\ vndb it = None /\ ScanDialog.detected it ∈ found
        /\ d_install_path (ScanDialog.detected it) ∉ paths_of items)
  /\ (forall g, g ∈ found -> d_install_path g ∈ paths_of items')
  /\ handleAddFolders found items' = items'
  /\ (NoDup (paths_of items) -> NoDup (d_install_path <$> found) -> NoDup (paths_of items')).
Proof.
  intros items'. subst items'. unfold handleAddFolders. fold (paths_of items).
  set (fresh := filter (fun g => d_install_path g ∉ paths_of items) found).
  split; [done|]. split; [by rewrite take_app_length|]. split.
  { intros it. rewrite drop_app_length. intros Hit.
    apply list_elem_of_fmap in Hit as (g & -> & Hg).
    apply list_elem_of_filter in Hg as [Hnew Hg]. by repeat split. }
  assert (Hcover : forall g, g ∈ found ->
            d_install_path g ∈ paths_of (items ++ (new_item <$> fresh))).
  { intros g Hg. rewrite paths_of_app, paths_of_new. apply elem_of_app.
    destruct (decide (d_install_path g ∈ paths_of items)) as [Hin|Hout]; [by left|].
    right. apply list_elem_of_fmap. exists g. split; [done|].
    by apply list_elem_of_filter. }
  split; [exact Hcover|]. split.
  { fold (paths_of (items ++ (new_item <$> fresh))).
    rewrite filter_none; [by rewrite app_nil_r|].
    intros g Hg Hout. by apply Hout, Hcover. }
  intros Hnd Hfound. rewrite paths_of_app, paths_of_new.
  apply NoDup_app. split; [done|]. split.
  - intros p Hp Hp'. apply list_elem_of_fmap in Hp' as (g & -> & Hg).
    by apply list_elem_of_filter in Hg as [Hnew _].
  - subst fresh. clear -Hfound. induction found as [|g found IH]; [constructor|].
    rewrite fmap_cons in Hfound. apply NoDup_cons in Hfound as [Hg Hfound].
    rewrite filter_cons. destruct (decide (d_install_path g ∉ paths_of items)); [|by apply IH].
    rewrite fmap_cons. apply NoDup_cons. split; [|by apply IH].
    intros Hin. apply Hg. apply list_elem_of_fmap in Hin as (g' & E & Hg').
    apply list_elem_of_filter in Hg' as [_ Hg']. apply list_elem_of_fmap. by exists g'.
Qed.

Lemma without_index_from {A} (l : list A) : forall (k index : nat),
  (filter (fun ix : nat * A => ix.1 <> (k + index)%nat)
     (imap (fun i x => ((k + i)%nat, x)) l)).*2
  = delete index l.
Proof.
  induction l as [|x l IH]; intros k index; [by destruct index|].
  rewrite imap_cons, filter_cons. simpl.
  destruct index as [|index].
  - destruct (decide (k + 0 <> k + 0)%nat) as [Hne|_]; [lia|].
    simpl. clear IH. 
    assert (H : forall (l : list A) (j : nat), (k + 0 < j)%nat ->
              (filter (fun ix : nat * A => ix.1 <> (k + 0)%nat)
                 (imap (fun i x => ((j + i)%nat, x)) l)).*2 = l).
    { clear. intros l. induction l as [|y l IH]; intros j Hj; [done|].
      rewrite imap_cons, filter_cons. simpl.
      destruct (decide (j + 0 <> k + 0)%nat) as [_|He]; [|lia].
      simpl. f_equal.
      rewrite <- (IH (S j)) at 2 by lia. do 2 f_equal.
      apply imap_ext. intros i z _. simpl. f_equal. lia. }
    rewrite <- (H l (S k)) at 2 by lia. do 2 f_equal.
    apply imap_ext. intros i z _. simpl. f_equal. lia.
  - destruct (decide (k + 0 <> k + S index)%nat) as [_|He]; [|lia].
    simpl. f_equal. rewrite <- (IH (S k) index).
    f_equal. 
    replace (S k + index)%nat with (k + S index)%nat by lia. f_equal.
    apply imap_ext. intros i z _. simpl. f_equal. lia.
Qed.

Lemma without_index_delete {A} (index : nat) (l : list A) :
  without_index index l = delete index l.
Proof. unfold without_index. apply (without_index_from l 0 index). Qed.

(** X17.  Removing an item from the list: exactly the item at that index goes,
    the others keep their order; the selection follows the inspected item
    to its new index, and is dropped when the inspected item is the one
    removed.  An index beyond the list removes nothing. *)
Theorem removeItem_spec (index : nat) items (active : option nat) :
  let st' := removeItem index (items, active) in
  st'.1 = take index items ++ drop (S index) items
  /\ (forall j, st'.1 !! j = items !! (if decide (j < index)%nat then j else S j))
  /\ ((length items <= index)%nat -> st'.1 = items)
  /\ (forall a it, active = Some a -> a <> index -> items !! a = Some it ->
        exists a', st'.2 = Some a' /\ st'.1 !! a' = Some it)
  /\ (active = Some index \/ active = None -> st'.2 = None).
Proof.
  intros st'. subst st'. unfold removeItem. cbn [fst snd].
  rewrite without_index_delete.
  split; [by rewrite delete_take_drop|].
  split; [apply list_lookup_delete|].
  split.
  { intros Hlen. rewrite delete_take_drop, take_ge, drop_ge by lia. by rewrite app_nil_r. }
  split.
  - intros a it -> Hne Hit. destruct (decide (a = index)) as [->|_]; [done|].
    destruct (decide (index < a)%nat) as [Hlt|Hge].
    + exists (a - 1)%nat. split; [done|]. rewrite list_lookup_delete_ge by lia.
      by replace (S (a - 1)) with a by lia.
    + exists a. split; [done|]. by rewrite list_lookup_delete_lt by lia.
  - intros [-> | ->]; [|done]. by destruct (decide (index = index)).
Qed.

End FolderList.

(** ** Scan dialog: choosing a candidate by hand, and the whole pipeline *)

Section Candidates.
Import Vndb Game Markup Enrich ScanDialog ScanDialogRest.

Variable apiKey : jsstring.

Implicit Types (items : list ImportItem) (c : Collab) (vn : VndbVn).

Lemma update_at_length f i items : length (update_at i f items) = length items.
Proof. unfold update_at. apply length_imap. Qed.

Lemma update_at_twice f g i items :
  (forall it, f (g it) = f it) -> update_at i f (update_at i g items) = update_at i f items.
Proof.
  intros Hfg. apply list_eq. intros j. rewrite !update_at_lookup.
  destruct (items !! j) as [it|]; [simpl|done].
  destruct (decide (j = i)); [by rewrite Hfg | done].
Qed.

(** X18.  Choosing a candidate for the inspected item.  When the detail
    request throws, the handler ends before it touches the items.
    Otherwise only the inspected item changes, and every field of it is
    determined: its folder and its candidates stay, it becomes matched,
    without error, with the detailed record (or the candidate itself when
    the catalog returns none), and its cover, screenshots, description and
    tags are the results of the four enrichment steps for that record.
    Nothing of an earlier match survives: the outcome is the same whether
    or not the match was cleared before, and the record the commit builds
    takes its cover, screenshots, tags and notes from the new match or from
    nowhere. *)
Theorem pickCandidate_spec c vn (i : nat) items :
  (forall e, getVnById c (vn_id vn) = Err e ->
     pickCandidate apiKey c vn (Some i) items = Err e)
  /\ (forall detail, getVnById c (vn_id vn) = Ok detail ->
        let fullVn := default vn detail in
        exists shots items',
          screenshotsPromise (download_screenshot c) (vn_screenshots fullVn) = Ok shots
          /\ pickCandidate apiKey c vn (Some i) items = Ok items'
          /\ length items' = length items
          /\ (forall j, j <> i -> items' !! j = items !! j)
          /\ (forall it, items !! i = Some it ->
                let it' :=
                  {| ScanDialog.detected := ScanDialog.detected it;
                     vndb := Some fullVn;
                     candidates := candidates it;
                     coverPath := coverPromise c (Some fullVn);
                     screenshotPaths := shots;
                     translatedDesc := descPromise apiKey c (Some fullVn);
                     translatedTags := tagsPromise apiKey c (Some fullVn);
                     status := matched;
                     error := None |} in
                items' !! i = Some it'
                /\ screenshots (import_record it') = shots
                /\ cover_path (import_record it') = coverPromise c (Some fullVn)
                /\ tags (import_record it')
                   = match tagsPromise apiKey c (Some fullVn) with
                     | [] => extractTags_default (vn_tags fullVn)
                     | translated => translated
                     end
                /\ notes (import_record it')
                   = or_else (descPromise apiKey c (Some fullVn))
                       (match vn_description fullVn with
                        | Some (ch :: rest) => cleanDescription (Some (ch :: rest))
                        | _ => []
                        end)
                /\ exe_path (import_record it') = d_exe_path (ScanDialog.detected it))
          /\ pickCandidate apiKey c vn (Some i) (clearMatch (Some i) items) = Ok items')
  /\ pickCandidate apiKey c vn None items = Ok items.
Proof.
  split; [|split; [|done]].
  - intros e He. unfold pickCandidate. by rewrite He.
  - intros detail Hd fullVn. unfold pickCandidate. rewrite Hd. fold fullVn.
    destruct (screenshotsPromise (download_screenshot c) (vn_screenshots fullVn))
      as [shots|e] eqn:Hshots.
    2:{ exfalso. unfold screenshotsPromise in Hshots.
        by destruct (vn_screenshots fullVn). }
    exists shots. eexists. split; [done|]. split; [reflexivity|].
    split; [apply update_at_length|]. split.
    { intros j Hj. rewrite update_at_lookup. destruct (items !! j); [simpl|done].
      by destruct (decide (j = i)). }
    split.
    { intros it Hit. cbv zeta. split.
      - rewrite update_at_lookup, Hit. cbn [fmap option_fmap option_map].
        by destruct (decide (i = i)).
      - repeat split.
        generalize (tagsPromise apiKey c (Some fullVn)) as T.
        intros T. unfold import_record. cbn [tags translatedTags vndb].
        by destruct T. }
    unfold clearMatch. by rewrite update_at_twice.
Qed.

Variable world : nat -> Collab.

(** X19.  From the scan to the commit.  Folders scanned into an empty dialog,
    matched in bulk and imported give one record per folder, in the order
    of the scan.  Whatever the catalog and the translator did, the
    executable, the install path and the engine of a record are those the
    scan detected, and the game starts unplayed and unrated.  A folder
    whose processing threw, or whose search found no candidate, is
    imported from the folder alone. *)
Theorem scan_match_import (found : list DetectedGame) :
  let items := handleAddFolders found [] in
  let final := (startMatching apiKey world items).1 in
  let records := handleImport final in
  items = new_item <$> found
  /\ length records = length found
  /\ forall i g, found !! i = Some g ->
       exists r, records !! i = Some r
         /\ exe_path r = d_exe_path g
         /\ install_path r = d_install_path g
         /\ engine r = opt_or_else (d_engine g) []
         /\ save_path r = [] /\ play_status r = unplayed /\ rating r = 0%Qc
         /\ ((exists e, try_match apiKey (world i) (new_item g) = Err e)
             \/ searchVn (world i) (d_title g) = Ok [] ->
             r = folder_record g).
Proof.
  intros items final records.
  assert (Hitems : items = new_item <$> found).
  { subst items. unfold handleAddFolders. simpl. f_equal.
    apply filter_all. intros g _. apply not_elem_of_nil. }
  split; [exact Hitems|].
  subst records final. rewrite startMatching_closed. cbn [fst].
  unfold handleImport, processed. rewrite length_fmap, length_imap, Hitems, length_fmap.
  split; [done|].
  intros i g Hg. rewrite list_lookup_fmap, list_lookup_imap, list_lookup_fmap, Hg.
  cbn [fmap option_fmap option_map].
  assert (Hi : (i < length found)%nat) by (by eapply lookup_lt_Some).
  destruct (decide (i < length found)%nat) as [_|Hn]; [|done].
  eexists. split; [reflexivity|]. unfold settled.
  destruct (try_match apiKey (world i) (new_item g)) as [f|e] eqn:Htry.
  - do 6 (split; [reflexivity|]). intros [[e He]|Hsearch]; [done|].
    destruct (no_candidate_import apiKey (world i) (new_item g) Hsearch)
      as (f' & Hf' & _ & _ & Hrec).
    rewrite Htry in Hf'. injection Hf' as <-. exact Hrec.
  - do 6 (split; [reflexivity|]). intros _. reflexivity.
Qed.

End Candidates.

(** ** Match dialog: the update applied to one game *)

Section SetSpread.
Import JsMore.

Lemma set_add_all_spec (xs : list jsstring) : forall seen,
  NoDup seen ->
  NoDup (set_add_all seen xs)
  /\ (forall x, x ∈ set_add_all seen xs <-> x ∈ seen \/ x ∈ xs)
  /\ seen `prefix_of` set_add_all seen xs.
Proof.
  induction xs as [|x xs IH]; intros seen Hnd; simpl.
  - split; [done|]. split; [|done]. intros x. split; [by left|].
    intros [H|H]; [done|by apply elem_of_nil in H].
  - case_bool_decide as Hin.
    + destruct (IH seen Hnd) as (H1 & H2 & H3). split; [done|]. split; [|done].
      intros y. rewrite H2, elem_of_cons. split; [tauto|].
      intros [H|[->|H]]; tauto.
    + assert (Hnd' : NoDup (seen ++ [x])).
      { apply NoDup_app. split; [done|]. split; [|apply NoDup_singleton].
        intros y Hy Hy'. apply list_elem_of_singleton in Hy'. by subst. }
      destruct (IH (seen ++ [x]) Hnd') as (H1 & H2 & H3). split; [done|]. split.
      * intros y. rewrite H2, elem_of_app, list_elem_of_singleton, elem_of_cons. tauto.
      * etrans; [|exact H3]. by apply prefix_app_r.
Qed.

(** A list without repeats is where the spread of a set made of it and
    more starts. *)
Lemma set_add_all_prefix (xs ys : list jsstring) : forall seen,
  NoDup (seen ++ xs) -> set_add_all seen (xs ++ ys) = set_add_all (seen ++ xs) ys.
Proof.
  induction xs as [|x xs IH]; intros seen Hnd; simpl.
  - by rewrite app_nil_r.
  - assert (Hx : x ∉ seen).
    { apply NoDup_app in Hnd as (_ & Hdis & _). intros Hin.
      apply (Hdis x Hin). left. }
    rewrite bool_decide_eq_false_2 by done.
    rewrite IH; [by rewrite <- app_assoc|]. by rewrite <- app_assoc.
Qed.

End SetSpread.

Section ApplyFacts.
Import Vndb Game Markup Enrich ScanDialog Database DatabaseRest JsMore VndbMatchDialog.

Variable game : DatabaseRest.Game.
Variable apiKey : jsstring.
Variable c : Collab.

(** The properties [handleApply] sets, in order. *)
Definition applied_keys : list FormKey :=
  [k_title; k_title_original; k_vndb_id; k_developer; k_release_date; k_cover_path;
   k_screenshots; k_tags; k_vndb_rating; k_vndb_votecount; k_length_minutes; k_notes].

Lemma handleApply_keys vn update :
  handleApply game apiKey c (Some vn) = Some update ->
  update.*1 = applied_keys /\ Forall (fun kv => is_defined kv.2 = true) update.
Proof. intros [= <-]. split; [done|]. repeat constructor. Qed.

(** X20.  What applying a catalog entry to a game hands to [updateGame].
    An entry must be selected.  The update sets the twelve catalog
    properties and no other.  Five of them are the entry's, whatever the
    game held: the catalog identifier, the release date (empty when the
    entry has no date, an empty one or ["TBA"]), the rating, the vote
    count and the length (0 where the entry has none).  The other seven
    fall back on the game: a title and notes that are not empty are kept
    as they are (the description is then neither translated nor cleaned),
    the original title and the developer are kept when the entry has none,
    the cover is kept when the entry has no image or the download throws,
    and the screenshots are kept when no download succeeds.  The tags are
    the game's tags and the entry's, each once: every tag of either is
    there, and the game's own come first, in their order, when they had no
    repeats. *)
Theorem handleApply_spec (vn : VndbVn) :
  handleApply game apiKey c None = None
  /\ exists title' original' developer' cover' shots' merged' notes',
       handleApply game apiKey c (Some vn)
       = Some [ (k_title, FvStr title'); (k_title_original, FvStr original');
                (k_vndb_id, FvStr (vn_id vn)); (k_developer, FvStr developer');
                (k_release_date, FvStr (formatVndbDate (vn_released vn)));
                (k_cover_path, FvStr cover'); (k_screenshots, FvList shots');
                (k_tags, FvList merged');
                (k_vndb_rating, FvNum (default 0%Qc (vn_rating vn)));
                (k_vndb_votecount, FvNum (Qc_of_Z (vn_votecount vn)));
                (k_length_minutes, FvNum (Qc_of_Z (default 0%Z (vn_length_minutes vn))));
                (k_notes, FvStr notes') ]
       /\ (vn_released vn = None \/ vn_released vn = Some []
           \/ vn_released vn = Some (lit "TBA") ->
           formatVndbDate (vn_released vn) = [])
       /\ (vn_rating vn = None -> default 0%Qc (vn_rating vn) = 0%Qc)
       /\ (vn_length_minutes vn = None ->
           Qc_of_Z (default 0%Z (vn_length_minutes vn)) = Qc_of_Z 0)
       /\ (g_title game <> [] -> title' = g_title game)
       /\ (g_title game = [] -> title' = pickDisplayTitle vn)
       /\ (pickOriginalTitle vn = [] -> original' = g_title_original game)
       /\ (vn_developers vn = [] -> developer' = g_developer game)
       /\ (vn_image vn = None
           \/ (exists img e, vn_image vn = Some img
                 /\ download_cover c (img_url img)
                      (vn_id vn ++ lit "." ++ or_else (last_segment [] (img_url img)) (lit "jpg"))
                    = Err e) ->
           cover' = g_cover_path game)
       /\ (shots' = g_screenshots game \/ (shots' <> [] /\ shots' = screenshotPaths c vn))
       /\ (g_notes game <> [] -> notes' = g_notes game)
       /\ NoDup merged'
       /\ (forall t, t ∈ merged' <-> t ∈ g_tags game \/ t ∈ tagsPromise apiKey c vn)
       /\ (NoDup (g_tags game) -> g_tags game `prefix_of` merged').
Proof.
  split; [done|]. unfold handleApply.
  do 7 eexists. split; [reflexivity|].
  split; [by intros [-> | [-> | ->]]|].
  split; [by intros ->|]. split; [by intros ->|].
  split; [intros H; by apply or_else_truthy|].
  split; [by intros ->|].
  split; [by intros ->|].
  split; [by intros ->|].
  split.
  { unfold VndbMatchDialog.coverPromise.
    intros [-> | (img & e & -> & Herr)]; [done|].
    destruct (truthy (img_url img)); [by rewrite Herr | done]. }
  split.
  { destruct (screenshotPaths c vn) as [|s l]; [by left|]. right. by split. }
  split.
  { unfold VndbMatchDialog.descPromise. intros Hn. by destruct (g_notes game). }
  destruct (set_add_all_spec (g_tags game ++ tagsPromise apiKey c vn) [] (NoDup_nil_2))
    as (Hnd & Hmem & _).
  split; [exact Hnd|]. split.
  { intros t. unfold set_spread. rewrite Hmem, elem_of_app.
    split; [by intros [H%elem_of_nil|H] | by right]. }
  intros Hg. unfold set_spread. rewrite set_add_all_prefix by done.
  apply set_add_all_spec. done.
Qed.

Variable stringify : list jsstring -> jsstring.

(** X21.  Applying a catalog entry to a stored game, through [updateGame]:
    the executable, the install and save paths, the play status, the
    user's rating, the engine, the play time, the identifier and the
    creation time of the game are what they were, whatever the catalog
    returned; the catalog identifier is the entry's; and the tags are
    stored as the JSON text of the merged list. *)
Theorem handleApply_updateGame (vn : VndbVn) (id now : jsstring) (d : Db)
    (row : gmap string SqlValue) (update : list (FormKey * FormValue)) :
  games d !! id = Some row ->
  handleApply game apiKey c (Some vn) = Some update ->
  exists row',
    games (updateGame stringify id update now d) !! id = Some row'
    /\ Forall (fun col => row' !! col = row !! col)
         ["id"; "exe_path"; "install_path"; "save_path"; "play_status"; "rating";
          "engine"; "total_playtime"; "created_at"]%string
    /\ row' !! "vndb_id"%string = Some (SqlText (vn_id vn))
    /\ row' !! "tags"%string
       = Some (SqlText (stringify (set_spread (g_tags game ++ tagsPromise apiKey c vn))))
    /\ row' !! "updated_at"%string = Some (SqlText now).
Proof.
  intros Hrow Happly. exists (apply_sets stringify update now row).
  split; [by apply updateGame_row|].
  injection Happly as <-.
  split.
  { repeat constructor;
      (apply apply_sets_other; [discriminate|]);
      unfold assigned; cbn [omap list_omap is_defined fst snd key_name];
      not_in_list. }
  assert (Hnd : NoDup applied_keys).
  { unfold applied_keys. repeat constructor; not_in_list. }
  split.
  { apply (apply_sets_defined stringify _ now row k_vndb_id (FvStr (vn_id vn)));
      [exact Hnd | | done].
    do 2 right. left. }
  split.
  { apply (apply_sets_defined stringify _ now row k_tags
             (FvList (set_spread (g_tags game ++ tagsPromise apiKey c vn))));
      [exact Hnd | | done].
    do 7 right. left. }
  unfold apply_sets. by rewrite lookup_insert_eq.
Qed.

End ApplyFacts.

Section ApplyExample.
Import Vndb Game Enrich ScanDialog Database DatabaseRest JsMore VndbMatchDialog.

(** The stored game of the one-game library, matched with the entry of
    the worked batch: the executable stays, the catalog identifier is the
    entry's, and the tags are the game's two followed by the translated
    tags of the entry. *)
Lemma handleApply_updateGame_witness :
  exists update row',
    handleApply (stored_game (lit "g1") t0 tagged_form) (lit "sk-1") demo (Some game_a)
      = Some update
    /\ games (updateGame demo_stringify (lit "g1") update t1 one_game) !! lit "g1" = Some row'
    /\ row' !! "exe_path"%string = Some (SqlText (lit "D:\Games\Mine\mine.exe"))
    /\ row' !! "vndb_id"%string = Some (SqlText (lit "v17"))
    /\ row' !! "tags"%string
       = Some (SqlText (lit "[Drama,Romance,<zh> Romance,<zh> ADV]")).
Proof.
  assert (Hrow : exists row,
             games one_game !! lit "g1" = Some row
             /\ row !! "exe_path"%string = Some (SqlText (lit "D:\Games\Mine\mine.exe"))).
  { eexists. split; [apply lookup_insert_eq|]. vm_compute. reflexivity. }
  destruct Hrow as (row & Hrow & Hexe).
  eexists.
  destruct (handleApply_updateGame (stored_game (lit "g1") t0 tagged_form) (lit "sk-1")
              demo demo_stringify game_a (lit "g1") t1 one_game row _ Hrow eq_refl)
    as (row' & Hrow' & Hkeep & Hid & Htags & _).
  exists row'. split; [reflexivity|]. split; [exact Hrow'|].
  split.
  { rewrite Forall_forall in Hkeep. rewrite (Hkeep "exe_path"%string); [exact Hexe|].
    right. left. }
  split; [exact Hid|].
  rewrite Htags. vm_compute. reflexivity.
Defined.

End ApplyExample.

(** ** The entry form: tags, and the paths filled in from the executable *)

Section SplitJoin.
Import JsMore.

Lemma split_go_plain (sep : N) (s : jsstring) : forall acc,
  sep ∉ s -> split_go sep acc s = [acc ++ s].
Proof.
  induction s as [|ch s IH]; intros acc Hs; simpl.
  - by rewrite app_nil_r.
  - apply not_elem_of_cons in Hs as [Hne Hs].
    destruct (N.eqb_spec ch sep) as [->|_]; [done|].
    rewrite IH by done. by rewrite <- app_assoc.
Qed.

Lemma split_go_segment (sep : N) (s rest : jsstring) : forall acc,
  sep ∉ s -> split_go sep acc (s ++ sep :: rest) = (acc ++ s) :: split_go sep [] rest.
Proof.
  induction s as [|ch s IH]; intros acc Hs; simpl.
  - rewrite N.eqb_refl. by rewrite app_nil_r.
  - apply not_elem_of_cons in Hs as [Hne Hs].
    destruct (N.eqb_spec ch sep) as [->|_]; [done|].
    rewrite IH by done. by rewrite <- app_assoc.
Qed.

(** Splitting what was joined with a separator that occurs in none of
    the segments gives the segments back. *)
Lemma split_join (sep : N) (xs : list jsstring) :
  xs <> [] -> Forall (fun x => sep ∉ x) xs -> split sep (join [sep] xs) = xs.
Proof.
  intros Hne Hall. unfold split. induction Hall as [|x xs Hx Hall IH]; [done|].
  destruct xs as [|y xs].
  - simpl. by rewrite split_go_plain.
  - change (join [sep] (x :: y :: xs)) with (x ++ [sep] ++ join [sep] (y :: xs)).
    simpl. rewrite split_go_segment by done. simpl. f_equal. by apply IH.
Qed.

End SplitJoin.

Section FormFacts.
Import Game JsMore GameForm.

Implicit Types (f : GameFormData) (input tag : jsstring).

Lemma with_tags_same f : with_tags (tags f) f = f.
Proof. by destruct f. Qed.

Lemma filter_ne_absent (tag : jsstring) (l : list jsstring) :
  tag ∉ l -> filter (fun t => t <> tag) l = l.
Proof.
  intros Hout. apply filter_all. intros t Ht ->. done.
Qed.

(** X22.  The tags of the form.  Adding a tag empties the input, and appends
    the trimmed input exactly when it is not empty and not yet a tag; so a
    blank input adds nothing, no tag is ever doubled, and adding the same
    input again changes nothing.  Removing a tag removes every occurrence
    of it and nothing else, and undoes the addition of a tag that was not
    there.  Neither touches another field of the form.  A form whose title
    is blank is not saved; any other form is handed on as it is. *)
Theorem form_tags f input tag :
  let st := addTag (f, input) in
  st.2 = []
  /\ tags st.1
     = (if bool_decide (trim input <> [] /\ trim input ∉ tags f)
        then tags f ++ [trim input] else tags f)
  /\ (trim input <> [] -> trim input ∈ tags st.1)
  /\ (NoDup (tags f) -> NoDup (tags st.1))
  /\ ([] ∉ tags f -> [] ∉ tags st.1)
  /\ addTag (st.1, input) = st
  /\ with_tags (tags f) st.1 = f
  /\ tags (removeTag tag f) = filter (fun t => t <> tag) (tags f)
  /\ with_tags (tags f) (removeTag tag f) = f
  /\ (trim input ∉ tags f -> removeTag (trim input) st.1 = f)
  /\ (handleSubmit f = if bool_decide (trim (title f) = []) then None else Some f).
Proof.
  intros st. subst st. unfold addTag, includes. cbn [fst snd].
  assert (Hcond : truthy (trim input) && negb (bool_decide (trim input ∈ tags f))
                  = bool_decide (trim input <> [] /\ trim input ∉ tags f)).
  { symmetry. destruct (decide (trim input <> [] /\ trim input ∉ tags f)) as [[H1 H2]|Hn].
    - rewrite bool_decide_eq_true_2 by done. destruct (trim input); [done|].
      simpl. by rewrite bool_decide_eq_false_2.
    - rewrite bool_decide_eq_false_2 by done. destruct (trim input) as [|ch s]; [done|].
      simpl. rewrite bool_decide_eq_true_2; [done|].
      destruct (decide (ch :: s ∈ tags f)) as [Hin|Hout]; [done|].
      exfalso. by apply Hn. }
  rewrite Hcond.
  destruct (decide (trim input <> [] /\ trim input ∉ tags f)) as [Hadd|Hadd];
    [rewrite !(bool_decide_eq_true_2 _ Hadd) | rewrite !(bool_decide_eq_false_2 _ Hadd)].
  - destruct Hadd as [Hne Hnew]. cbn [tags with_tags].
    split; [done|]. split; [done|].
    split; [intros _; apply elem_of_app; right; left|].
    split.
    { intros Hnd. apply NoDup_app. split; [done|]. split; [|apply NoDup_singleton].
      intros t Ht Ht'. apply list_elem_of_singleton in Ht'. by subst. }
    split.
    { intros Hno Hin. apply elem_of_app in Hin as [Hin|Hin]; [done|].
      apply list_elem_of_singleton in Hin. by apply Hne. }
    split.
    { rewrite bool_decide_eq_true_2 by (apply elem_of_app; right; left).
      by rewrite andb_false_r. }
    split; [by destruct f|]. split; [done|]. split; [by destruct f|].
    split; [|unfold handleSubmit; by destruct (trim (title f))].
    intros _. unfold removeTag. cbn [tags with_tags].
    rewrite filter_app, filter_ne_absent by done.
    rewrite filter_cons, filter_nil. destruct (decide (trim input <> trim input)); [done|].
    rewrite app_nil_r. by destruct f.
  - split; [done|]. split; [done|].
    split.
    { intros Hne. destruct (decide (trim input ∈ tags f)) as [Hin|Hout]; [done|].
      by destruct Hadd. }
    split; [done|]. split; [done|].
    split.
    { rewrite Hcond. by rewrite bool_decide_eq_false_2. }
    split; [apply with_tags_same|]. split; [done|]. split; [by destruct f|].
    split; [|unfold handleSubmit; by destruct (trim (title f))].
    intros Hout. unfold removeTag. rewrite filter_ne_absent by done. apply with_tags_same.
Qed.

Lemma slashes_join (xs : list jsstring) :
  Forall (fun x => 92 ∉ x) xs -> slashes (join [92] xs) = join [47] xs.
Proof.
  assert (Hone : forall x : jsstring, 92 ∉ x -> slashes x = x).
  { intros x. unfold slashes. induction x as [|ch x IH]; [done|].
    intros Hx. apply not_elem_of_cons in Hx as [Hne Hx]. rewrite fmap_cons, IH by done.
    by destruct (N.eqb_spec ch 92). }
  induction 1 as [|x xs Hx Hall IH]; [done|].
  destruct xs as [|y xs]; [by apply Hone|].
  change (join [92] (x :: y :: xs)) with (x ++ [92] ++ join [92] (y :: xs)).
  change (join [47] (x :: y :: xs)) with (x ++ [47] ++ join [47] (y :: xs)).
  unfold slashes in *. rewrite !fmap_app, IH. f_equal. by apply Hone.
Qed.

(** X23.  Choosing the executable [dir\...\folder\file] in the file dialog:
    the executable is set to that path; a form without install path gets
    the path of the folder, and a form without title the name of the
    folder; an install path and a title the form already has are kept.
    A cancelled dialog changes nothing. *)
Theorem browseExe_spec (folders : list jsstring) (file : jsstring) f :
  Forall (fun x => (47 ∉ x) /\ (92 ∉ x)) (folders ++ [file]) ->
  join [92] (folders ++ [file]) <> [] ->
  let path := join [92] (folders ++ [file]) in
  let f' := browseExe (Some path) f in
  exe_path f' = path
  /\ install_path f' = (if truthy (install_path f) then install_path f else join [92] folders)
  /\ title f' = (if truthy (title f) then title f else List.last folders [])
  /\ with_title (title f) (with_install_path (install_path f) (with_exe_path (exe_path f) f')) = f
  /\ browseExe None f = f
  /\ browseExe (Some []) f = f.
Proof.
  intros Hall Hne path f'.
  assert (Hparts : folder_parts path = folders).
  { unfold folder_parts. subst path. rewrite slashes_join.
    - rewrite split_join.
      + apply removelast_last.
      + by destruct folders.
      + eapply Forall_impl; [exact Hall|]. by intros x [H _].
    - eapply Forall_impl; [exact Hall|]. by intros x [_ H]. }
  subst f'. unfold browseExe. destruct path as [|ch rest] eqn:Hpath; [done|].
  rewrite Hparts. cbv zeta. rewrite or_else_nil.
  destruct f as [t ? ? ? ? ? ip ? ? ? ? ? ? ? ? ? ? ?]. cbn [install_path title].
  by destruct ip, t.
Qed.

End FormFacts.

Section FormExample.
Import Game GameForm.

(** The executable of the stored form, chosen for a blank form. *)
Lemma browseExe_spec_witness :
  install_path (browseExe (Some (lit "D:\Games\Mine\mine.exe")) (blank_form ""))
    = lit "D:\Games\Mine"
  /\ title (browseExe (Some (lit "D:\Games\Mine\mine.exe")) (blank_form "")) = lit "Mine".
Proof.
  destruct (browseExe_spec [lit "D:"; lit "Games"; lit "Mine"] (lit "mine.exe") (blank_form ""))
    as (_ & Hinstall & Htitle & _).
  - repeat constructor; not_in_list.
  - discriminate.
  - split; [exact Hinstall | exact Htitle].
Defined.

End FormExample.

(** ** The library view: tag counts, filters and the tag toggle *)

Section TagCounts.
Import DatabaseRest Library.

Implicit Types (m : list (jsstring * Z)) (seen : list jsstring) (t : jsstring).

(** How often [t] occurs in [l]. *)
Definition occurrences t (l : list jsstring) : Z :=
  Z.of_nat (length (filter (fun x => x = t) l)).

(** The counting map after the tags [seen]: one entry per tag seen, with
    the number of its occurrences. *)
Definition counted m seen : Prop :=
  NoDup m.*1
  /\ forall t n, (t, n) ∈ m <-> t ∈ seen /\ n = occurrences t seen.

Lemma occurrences_snoc t x seen :
  occurrences t (seen ++ [x])
  = (occurrences t seen + if decide (x = t) then 1 else 0)%Z.
Proof.
  unfold occurrences. rewrite filter_app, length_app, filter_cons, filter_nil.
  destruct (decide (x = t)); simpl; lia.
Qed.

Lemma count_tag_counted m seen x :
  counted m seen -> counted (count_tag m x) (seen ++ [x]).
Proof.
  intros [Hnd Hm]. unfold count_tag. case_bool_decide as Hin.
  - (* the tag has an entry, which is bumped *)
    assert (Hkeys : ((fun kv : jsstring * Z =>
                        if decide (kv.1 = x) then (kv.1, (kv.2 + 1)%Z) else kv) <$> m).*1
                    = m.*1).
    { rewrite <- list_fmap_compose. apply list_fmap_ext. intros i [k v] _. simpl.
      by destruct (decide (k = x)). }
    split; [by rewrite Hkeys|].
    intros t n. rewrite list_elem_of_fmap, occurrences_snoc, elem_of_app, list_elem_of_singleton.
    split.
    + intros ([k v] & E & Hkv). apply Hm in Hkv as [Hk ->]. simpl in E.
      destruct (decide (k = x)) as [->|Hne]; injection E as -> ->.
      * split; [by left|]. by destruct (decide (x = x)).
      * split; [by left|]. destruct (decide (x = k)); [by subst|]. lia.
    + intros [Ht ->]. destruct (decide (x = t)) as [->|Hne].
      * exists (t, occurrences t seen). simpl. split.
        -- by destruct (decide (t = t)).
        -- apply Hm. split; [|done].
           apply list_elem_of_fmap in Hin as ([k v] & -> & Hkv). simpl.
           by apply Hm in Hkv as [Hk _].
      * destruct Ht as [Ht|Ht]; [|by subst].
        exists (t, occurrences t seen). simpl. split.
        -- destruct (decide (t = x)); [by subst|]. f_equal. lia.
        -- by apply Hm.
  - (* a new tag *)
    assert (Hnew : x ∉ seen).
    { intros Hx. apply Hin. apply list_elem_of_fmap.
      exists (x, occurrences x seen). split; [done|]. by apply Hm. }
    split.
    + rewrite fmap_app. apply NoDup_app. split; [done|]. split; [|apply NoDup_singleton].
      intros k Hk Hk'. apply list_elem_of_singleton in Hk'. by subst.
    + intros t n. rewrite !elem_of_app, !list_elem_of_singleton, occurrences_snoc, Hm.
      split.
      * intros [ [Ht ->] | [= -> ->] ].
        -- split; [by left|]. destruct (decide (x = t)); [by subst|]. lia.
        -- split; [by right|]. destruct (decide (x = x)); [|done].
           unfold occurrences. rewrite filter_none; [done|]. intros y Hy ->. done.
      * intros [ [Ht | ->] ->].
        -- left. split; [done|]. destruct (decide (x = t)); [by subst|]. lia.
        -- right. destruct (decide (x = x)); [|done].
           unfold occurrences. rewrite filter_none; [done|]. intros y Hy ->. done.
Qed.

Lemma count_tags_counted (l : list jsstring) : forall m seen,
  counted m seen -> counted (foldl count_tag m l) (seen ++ l).
Proof.
  induction l as [|x l IH]; intros m seen Hm; simpl.
  - by rewrite app_nil_r.
  - replace (seen ++ x :: l) with ((seen ++ [x]) ++ l) by (by rewrite <- app_assoc).
    by apply IH, count_tag_counted.
Qed.

Lemma count_games_concat (games : list Game) : forall m,
  foldl (fun m g => foldl count_tag m (g_tags g)) m games
  = foldl count_tag m (concat (g_tags <$> games)).
Proof.
  induction games as [|g games IH]; intros m; [done|].
  simpl. rewrite foldl_app. apply IH.
Qed.

(** The keys of the counting map are the tags in the order of their
    first occurrence, as [new Set] would list them. *)
Lemma count_tags_keys (l : list jsstring) : forall m,
  (foldl count_tag m l).*1 = JsMore.set_add_all m.*1 l.
Proof.
  induction l as [|x l IH]; intros m; [done|].
  simpl. rewrite IH. unfold count_tag. case_bool_decide as Hin; [|by rewrite fmap_app].
  f_equal. rewrite <- list_fmap_compose. apply list_fmap_ext. intros i [k n] _. simpl.
  by destruct (decide (k = x)).
Qed.

Lemma filter_count_keys (all : list jsstring) m (n : Z) :
  Forall (fun kv => kv.2 = occurrences kv.1 all) m ->
  (filter (fun tn : jsstring * Z => tn.2 = n) m).*1
  = filter (fun t => occurrences t all = n) m.*1.
Proof.
  induction 1 as [|[k x] m Hk _ IH]; [done|].
  rewrite fmap_cons, !filter_cons. simpl in *. subst x.
  destruct (decide (occurrences k all = n)); [|done].
  rewrite fmap_cons. by rewrite IH.
Qed.

Definition count_desc (a b : jsstring * Z) : Prop := (b.2 <= a.2)%Z.

Global Instance count_desc_trans : Transitive count_desc.
Proof. intros a b c. unfold count_desc. lia. Qed.

(** X24.  The tag list of the sidebar: every tag that some game carries is
    listed exactly once, with the number of its occurrences over the whole
    library, which is at least 1; the list is in descending order of the
    count, and tags with the same count stand in the order in which they
    first occur in the library. *)
Theorem allTags_counts (games : list Game) :
  let all := concat (g_tags <$> games) in
  NoDup (allTags games).*1
  /\ (forall t n, (t, n) ∈ allTags games <-> t ∈ all /\ n = occurrences t all)
  /\ (forall t n, (t, n) ∈ allTags games -> (1 <= n)%Z)
  /\ StronglySorted count_desc (allTags games)
  /\ (forall n, (filter (fun tn => tn.2 = n) (allTags games)).*1
                = filter (fun t => occurrences t all = n) (JsMore.set_spread all)).
Proof.
  intros all. unfold allTags. rewrite count_games_concat. fold all.
  set (m := foldl count_tag [] all).
  set (after := fun a b : jsstring * Z => bool_decide (a.2 < b.2)%Z).
  assert (Hm : counted m all).
  { apply (count_tags_counted all [] []). split; [constructor|].
    intros t n. split; [by intros H%elem_of_nil | by intros [H%elem_of_nil _]]. }
  destruct Hm as [Hnd Hm].
  assert (Hperm : Js.sort after m ≡ₚ m) by apply sort_perm.
  assert (Hmem : forall t n, (t, n) ∈ Js.sort after m <-> t ∈ all /\ n = occurrences t all).
  { intros t n. by rewrite Hperm. }
  split; [by rewrite Hperm|]. split; [exact Hmem|]. split.
  { intros t n Hin. apply Hmem in Hin as [Ht ->]. unfold occurrences.
    apply list_elem_of_split in Ht as (l1 & l2 & ->).
    rewrite filter_app, filter_cons, length_app.
    destruct (decide (t = t)); [simpl; lia | done]. }
  split.
  { apply Sorted_StronglySorted; [apply _|].
    apply (sort_sorted after count_desc); intros a b; unfold after, count_desc.
    - rewrite bool_decide_eq_false. lia.
    - rewrite bool_decide_eq_true. lia. }
  intros n. rewrite (sort_class after (fun tn : jsstring * Z => tn.2 = n)).
  - rewrite (filter_count_keys all).
    + subst m. by rewrite count_tags_keys.
    + apply Forall_forall. intros [k x] Hkx. simpl. by apply Hm in Hkx as [_ ->].
  - intros a b Hab Ha Hb. unfold after in Hab.
    apply bool_decide_eq_true in Hab. lia.
Qed.

End TagCounts.

Section Filters.
Import Game DatabaseRest JsMore Library.

Variable localeCompare : jsstring -> jsstring -> Z.

Implicit Types (games : list Game) (filterTags : list jsstring).

(** A game passes the filters. *)
Definition shown_by (filterStatus : option PlayStatus) filterTags (g : Game) : Prop :=
  match filterStatus with
  | None => True
  | Some s => g_play_status g = status_text s
  end
  /\ Forall (fun t => t ∈ g_tags g) filterTags.

Global Instance shown_by_dec filterStatus filterTags g :
  Decision (shown_by filterStatus filterTags g).
Proof. unfold shown_by. destruct filterStatus; apply _. Defined.

Lemma status_passes_spec filterStatus g :
  status_passes filterStatus g = true
  <-> match filterStatus with
      | None => True
      | Some s => g_play_status g = status_text s
      end.
Proof.
  unfold status_passes. destruct filterStatus as [s|]; [|done].
  apply bool_decide_eq_true.
Qed.

Lemma tags_pass_spec filterTags g :
  tags_pass filterTags g = true <-> Forall (fun t => t ∈ g_tags g) filterTags.
Proof.
  unfold tags_pass, includes. destruct filterTags as [|t0 l]; [done|].
  rewrite forallb_forall, Forall_forall. split.
  - intros H t Ht. apply list_elem_of_In in Ht. by apply H, bool_decide_eq_true in Ht.
  - intros H t Ht. apply bool_decide_eq_true, H. by apply list_elem_of_In.
Qed.

(** By which number a numeric sort field orders the games. *)
Definition numeric_key (field : SortField) : option (Game -> Qc) :=
  match field with
  | by_rating => Some g_vndb_rating
  | by_total_playtime => Some g_total_playtime
  | _ => None
  end.

Lemma Qc_pos_minus (a b : Qc) : (0 < a - b)%Qc <-> (b < a)%Qc.
Proof.
  split; intros H.
  - apply Qclt_minus_iff. exact H.
  - apply Qclt_minus_iff in H. exact H.
Qed.

Lemma Qc_pos_opp_minus (a b : Qc) : (0 < - (a - b))%Qc <-> (a < b)%Qc.
Proof.
  replace (- (a - b))%Qc with (b - a)%Qc by ring. apply Qc_pos_minus.
Qed.

(** X25.  The games the library shows.  They are exactly the games that pass
    both filters, each as often as it is in the library, whatever the sort
    field and the comparison of strings; with no filter set, no game is
    left out.  A status filter keeps the games of that status, a tag
    filter the games that carry every selected tag.  Under a numeric sort
    field (catalog rating or play time) the games stand in ascending or
    descending order of that number. *)
Theorem filteredGames_spec games (filterStatus : option PlayStatus) filterTags
    (field : SortField) (direction : SortDirection) :
  let shown := filteredGames localeCompare games filterStatus filterTags field direction in
  shown ≡ₚ filter (shown_by filterStatus filterTags) games
  /\ (forall g, g ∈ shown <-> g ∈ games /\ shown_by filterStatus filterTags g)
  /\ (filterStatus = None -> filterTags = [] -> shown ≡ₚ games)
  /\ (forall key, numeric_key field = Some key ->
        StronglySorted
          (fun a b => match direction with
                      | asc => (key a <= key b)%Qc
                      | desc => (key b <= key a)%Qc
                      end) shown).
Proof.
  intros shown. subst shown. unfold filteredGames.
  set (after := fun a b : Game =>
                  bool_decide (0 < match direction with
                                   | asc => compare_by localeCompare field a b
                                   | desc => - compare_by localeCompare field a b
                                   end)%Qc).
  set (kept := filter (fun g => tags_pass filterTags g = true)
                 (filter (fun g => status_passes filterStatus g = true) games)).
  assert (Hkept : kept = filter (shown_by filterStatus filterTags) games).
  { subst kept. rewrite list_filter_filter. apply list_filter_iff. intros g.
    rewrite status_passes_spec, tags_pass_spec. unfold shown_by. tauto. }
  assert (Hperm : Js.sort after kept ≡ₚ filter (shown_by filterStatus filterTags) games).
  { rewrite <- Hkept. apply sort_perm. }
  split; [exact Hperm|]. split.
  { intros g. rewrite Hperm, list_elem_of_filter. tauto. }
  split.
  { intros -> ->. rewrite Hperm. rewrite filter_all; [done|].
    intros g _. by split. }
  intros key Hkey. apply Sorted_StronglySorted.
  { intros a b c. destruct direction; intros H1 H2; by eapply Qcle_trans. }
  apply (sort_sorted after); intros a b; unfold after;
    destruct field; try discriminate Hkey; injection Hkey as <-;
    destruct direction; cbn [compare_by];
    rewrite ?bool_decide_eq_false, ?bool_decide_eq_true,
            ?Qc_pos_minus, ?Qc_pos_opp_minus;
    first [apply Qcnot_lt_le | apply Qclt_le_weak].
Qed.

Implicit Types (tag : jsstring).

(** X26.  The tag toggle of the sidebar: the tag is selected afterwards exactly
    when it was not before, and no other tag changes; a selection without
    repeats stays without repeats; toggling twice restores the selection,
    as a list when the tag was not selected and up to the order
    otherwise.  After a tag is switched on, every game shown carries it. *)
Theorem toggleTag_spec tag filterTags :
  let sel := toggleTag tag filterTags in
  (tag ∈ sel <-> tag ∉ filterTags)
  /\ (forall t, t <> tag -> (t ∈ sel <-> t ∈ filterTags))
  /\ (NoDup filterTags -> NoDup sel)
  /\ (tag ∉ filterTags -> toggleTag tag sel = filterTags)
  /\ (NoDup filterTags -> toggleTag tag sel ≡ₚ filterTags)
  /\ (tag ∉ filterTags ->
      forall games filterStatus field direction g,
        g ∈ filteredGames localeCompare games filterStatus sel field direction ->
        tag ∈ g_tags g).
Proof.
  intros sel. subst sel. unfold toggleTag, includes.
  destruct (decide (tag ∈ filterTags)) as [Hin|Hout].
  - rewrite (bool_decide_eq_true_2 _ Hin).
    assert (Hgone : tag ∉ filter (fun t => t <> tag) filterTags).
    { intros H. by apply list_elem_of_filter in H as [H _]. }
    rewrite (bool_decide_eq_false_2 _ Hgone).
    split; [tauto|]. split.
    { intros t Hne. rewrite list_elem_of_filter. tauto. }
    split; [apply NoDup_filter|]. split; [done|]. split; [|done].
    intros Hnd. clear Hgone. induction filterTags as [|x l IH]; [by apply elem_of_nil in Hin|].
    apply NoDup_cons in Hnd as [Hx Hnd]. rewrite filter_cons.
    destruct (decide (x <> tag)) as [Hne|He].
    + apply elem_of_cons in Hin as [->|Hin]; [done|].
      simpl. rewrite IH by done. done.
    + assert (x = tag) as -> by (by destruct (decide (x = tag))).
      rewrite filter_ne_absent by done. by rewrite <- Permutation_cons_append.
  - rewrite (bool_decide_eq_false_2 _ Hout).
    assert (Hthere : tag ∈ filterTags ++ [tag]) by (apply elem_of_app; right; left).
    rewrite (bool_decide_eq_true_2 _ Hthere).
    assert (Hback : filter (fun t => t <> tag) (filterTags ++ [tag]) = filterTags).
    { rewrite filter_app, filter_ne_absent by done.
      rewrite filter_cons, filter_nil. destruct (decide (tag <> tag)); [done|].
      by rewrite app_nil_r. }
    split; [tauto|]. split.
    { intros t Hne. rewrite elem_of_app, list_elem_of_singleton. tauto. }
    split.
    { intros Hnd. apply NoDup_app. split; [done|]. split; [|apply NoDup_singleton].
      intros t Ht Ht'. apply list_elem_of_singleton in Ht'. by subst. }
    split; [done|]. split; [by rewrite Hback|].
    intros _ games filterStatus field direction g Hg.
    unfold filteredGames in Hg. rewrite (sort_perm _ _) in Hg.
    apply list_elem_of_filter in Hg as [Hg _]. apply tags_pass_spec in Hg.
    rewrite Forall_forall in Hg. by apply Hg.
Qed.

End Filters.

(** ** Settings dialog: the tag table and the cache *)

Section TagView.
Import Database DatabaseRest SettingsDialog.

Implicit Types (v : TagView) (d : Db) (en zh : jsstring)
  (m : list (jsstring * jsstring)).

(** The dialog shows what the cache holds: every listed row is a row of
    the cache, and the pending edits hold each tag once. *)
Definition in_step v d : Prop :=
  (forall en zh, (en, zh) ∈ tagList v -> tag_translations d !! en = Some zh)
  /\ NoDup (editedTags v).*1.

Lemma map_set_keys m en zh :
  NoDup m.*1 -> NoDup (map_set m en zh).*1.
Proof.
  intros Hnd. unfold map_set. case_bool_decide as Hin.
  - replace (((fun kv : jsstring * jsstring =>
                 if decide (kv.1 = en) then (en, zh) else kv) <$> m).*1) with m.*1; [done|].
    rewrite <- list_fmap_compose. apply list_fmap_ext. intros i [k x] _. simpl.
    by destruct (decide (k = en)).
  - rewrite fmap_app. apply NoDup_app. split; [done|]. split; [|apply NoDup_singleton].
    intros k Hk Hk'. apply list_elem_of_singleton in Hk'. by subst.
Qed.

Lemma map_get_Some m en zh : map_get m en = Some zh -> (en, zh) ∈ m.
Proof.
  unfold map_get. destruct (List.find _ m) as [[k x]|] eqn:Hf; [|done].
  simpl. intros [= ->]. apply find_some in Hf as [Hin Hk].
  apply bool_decide_eq_true in Hk. simpl in Hk. subst. by apply list_elem_of_In.
Qed.

Lemma map_get_None m en : map_get m en = None -> en ∉ m.*1.
Proof.
  unfold map_get. destruct (List.find _ m) as [[k x]|] eqn:Hf; [done|].
  intros _ Hin. apply list_elem_of_fmap in Hin as ([k x] & -> & Hin).
  apply list_elem_of_In in Hin.
  pose proof (find_none _ _ Hf _ Hin) as Hk. simpl in Hk.
  by apply bool_decide_eq_false in Hk.
Qed.

Lemma map_get_set m en zh : map_get (map_set m en zh) en = Some zh.
Proof.
  unfold map_set. case_bool_decide as Hin.
  - unfold map_get. induction m as [|[k x] m IH]; [by apply elem_of_nil in Hin|].
    simpl. destruct (decide (k = en)) as [->|Hne]; simpl.
    + by rewrite bool_decide_eq_true_2.
    + rewrite bool_decide_eq_false_2 by done. apply IH.
      simpl in Hin. by apply elem_of_cons in Hin as [->|Hin].
  - unfold map_get. induction m as [|[k x] m IH]; simpl.
    + by rewrite bool_decide_eq_true_2.
    + simpl in Hin. apply not_elem_of_cons in Hin as [Hne Hin].
      rewrite bool_decide_eq_false_2 by done. by apply IH.
Qed.

(** With each key once, the upserts store each pair. *)
Lemma upserts_pair (t : gmap jsstring jsstring) m en zh :
  NoDup m.*1 -> (en, zh) ∈ m -> upserts t m !! en = Some zh.
Proof.
  intros Hnd Hin. apply list_elem_of_split in Hin as (m1 & m2 & ->).
  apply upserts_last. rewrite fmap_app, fmap_cons in Hnd.
  apply NoDup_app in Hnd as (_ & _ & Hnd). by apply NoDup_cons in Hnd as [Hen _].
Qed.

(** X27.  The tag table of the settings dialog stays in step with the cache.
    Editing a row only notes the edit, the latest edit of a tag replacing
    the earlier ones.  Saving writes every pending edit to the cache,
    shows it in the list, leaves the rows that were not edited as they
    are, and clears the pending edits.  Deleting a row removes it from the
    cache, from the list and from the pending edits, so that a later save
    cannot bring it back.  After each of the three the list shows only
    rows of the cache. *)
Theorem tag_view_in_step v d en zh :
  in_step v d ->
  (let v' := handleTagEdit en zh v in
   in_step v' d /\ map_get (editedTags v') en = Some zh /\ tagList v' = tagList v)
  /\ (let st := handleTagSave (v, d) in
      in_step st.1 st.2
      /\ editedTags st.1 = []
      /\ (forall en' zh', map_get (editedTags v) en' = Some zh' ->
            tag_translations st.2 !! en' = Some zh')
      /\ (forall en', map_get (editedTags v) en' = None ->
            tag_translations st.2 !! en' = tag_translations d !! en')
      /\ (tagList st.1).*1 = (tagList v).*1)
  /\ (let st := handleTagDelete en (v, d) in
      in_step st.1 st.2
      /\ tag_translations st.2 !! en = None
      /\ (en ∉ (tagList st.1).*1)
      /\ map_get (editedTags st.1) en = None
      /\ tag_translations (handleTagSave st).2 !! en = None
      /\ (forall en', en' <> en ->
            tag_translations st.2 !! en' = tag_translations d !! en')).
Proof.
  intros [Hlist Hnd]. split; [|split].
  - cbn zeta. unfold handleTagEdit. cbn [editedTags tagList].
    split; [|split; [apply map_get_set | done]].
    split; [exact Hlist | by apply map_set_keys].
  - cbn zeta. unfold handleTagSave. cbn [fst snd].
    destruct (editedTags v) as [|p0 m0] eqn:Hed.
    { cbn [fst snd]. split; [split; [exact Hlist | rewrite Hed; constructor]|].
      split; [first [exact Hed | done]|]. split; [by intros en' zh' H|]. by split. }
    set (pairs := p0 :: m0) in *. cbn [fst snd tagList editedTags].
    assert (Hstore : forall en' zh', map_get pairs en' = Some zh' ->
              tag_translations (setTagTranslations pairs d) !! en' = Some zh').
    { intros en' zh' Hget. unfold setTagTranslations. cbn [tag_translations set_tag_translations].
      apply (upserts_pair _ pairs); [done|]. by apply map_get_Some. }
    assert (Hkeep : forall en', map_get pairs en' = None ->
              tag_translations (setTagTranslations pairs d) !! en' = tag_translations d !! en').
    { intros en' Hget. unfold setTagTranslations. cbn [tag_translations set_tag_translations].
      apply (upserts_other _ pairs). by apply map_get_None. }
    split; [split; [|constructor]|].
    + intros en' zh' Hin. apply list_elem_of_fmap in Hin as ([k x] & E & Hin).
      cbn [fst] in E. destruct (map_get pairs k) as [z|] eqn:Hget.
      * injection E as -> ->. by apply Hstore.
      * injection E as -> ->. rewrite Hkeep by done. by apply Hlist.
    + split; [done|]. split; [exact Hstore|]. split; [exact Hkeep|].
      rewrite <- list_fmap_compose. apply list_fmap_ext. intros i [k x] _. simpl.
      by destruct (map_get pairs k).
  - cbn zeta. unfold handleTagDelete. cbn [fst snd tagList editedTags].
    assert (Hgone : tag_translations (deleteTagTranslation en d) !! en = None).
    { unfold deleteTagTranslation. cbn [tag_translations set_tag_translations].
      apply lookup_delete_eq. }
    assert (Hrest : forall en', en' <> en ->
              tag_translations (deleteTagTranslation en d) !! en' = tag_translations d !! en').
    { intros en' Hne. unfold deleteTagTranslation. cbn [tag_translations set_tag_translations].
      by apply lookup_delete_ne. }
    assert (Hedits : en ∉ (filter (fun kv : jsstring * jsstring => kv.1 <> en) (editedTags v)).*1).
    { intros Hin. apply list_elem_of_fmap in Hin as ([k x] & -> & Hin).
      by apply list_elem_of_filter in Hin as [Hne _]. }
    assert (Hget : map_get (filter (fun kv : jsstring * jsstring => kv.1 <> en) (editedTags v)) en
                   = None).
    { destruct (map_get _ en) as [z|] eqn:Hg; [|done].
      apply map_get_Some in Hg. exfalso. apply Hedits.
      apply list_elem_of_fmap. by exists (en, z). }
    split; [split|].
    + intros en' zh' Hin. apply list_elem_of_filter in Hin as [Hne Hin]. simpl in Hne.
      rewrite Hrest by done. by apply Hlist.
    + clear -Hnd. induction (editedTags v) as [|[k x] m IH]; [constructor|].
      simpl in Hnd. apply NoDup_cons in Hnd as [Hk Hnd]. rewrite filter_cons.
      destruct (decide ((k, x).1 <> en)); [|by apply IH].
      simpl. apply NoDup_cons. split; [|by apply IH].
      intros Hin. apply Hk. apply list_elem_of_fmap in Hin as ([k' x'] & -> & Hin).
      apply list_elem_of_filter in Hin as [_ Hin]. apply list_elem_of_fmap. by exists (k', x').
    + split; [exact Hgone|]. split.
      { intros Hin. apply list_elem_of_fmap in Hin as ([k x] & -> & Hin).
        by apply list_elem_of_filter in Hin as [Hne _]. }
      split; [exact Hget|]. split; [|exact Hrest].
      unfold handleTagSave. cbn [fst snd editedTags].
      destruct (filter (fun kv : jsstring * jsstring => kv.1 <> en) (editedTags v))
        as [|p0 m0] eqn:Hf; [exact Hgone|].
      cbn [snd]. unfold setTagTranslations. cbn [tag_translations set_tag_translations].
      fold (upserts (tag_translations (deleteTagTranslation en d)) (p0 :: m0)).
      rewrite upserts_other; [exact Hgone|]. exact Hedits.
Qed.

End TagView.

Section TagViewExample.
Import Database DatabaseRest SettingsDialog.

(** The table over the cache of one row, with an edit of that row
    pending: saving stores the edit. *)
Definition view_b : TagView :=
  {| tagList := [(lit "b", lit "B")]; editedTags := [(lit "b", lit "Bee")] |}.

Lemma tag_view_in_step_witness :
  tag_translations (handleTagSave (view_b, db_b)).2 !! lit "b" = Some (lit "Bee")
  /\ tagList (handleTagSave (view_b, db_b)).1 = [(lit "b", lit "Bee")].
Proof.
  assert (Hstep : in_step view_b db_b).
  { split.
    - intros en zh Hin. apply list_elem_of_singleton in Hin. injection Hin as -> ->.
      reflexivity.
    - apply NoDup_singleton. }
  destruct (tag_view_in_step view_b db_b (lit "b") (lit "Bee") Hstep)
    as (_ & (_ & _ & Hstored & _) & _).
  split; [|reflexivity].
  apply Hstored. reflexivity.
Defined.

End TagViewExample.

(** ** Display of the play time *)

Section PlaytimeDisplay.
Import Utils.

(** X28.  The play time as it is shown, for a safe integer of seconds
    (at most 2^53 - 1 in absolute value).  Less than a minute (and anything
    negative) shows as ["< 1"] minute.  From a minute on, the hours [h] and
    minutes [m] shown are whole, with [m] below 60, and are the time
    rounded down to the minute; the hours are left out when they are 0, and
    then at least one minute is shown. *)
Theorem formatPlaytime_spec (seconds : SafeInteger) :
  let s := int_value seconds in
  ((s < 60)%Z -> formatPlaytime seconds = lit "< 1 " ++ minutes_word)
  /\ ((60 <= s)%Z ->
      exists h m : Z,
        (0 <= h)%Z /\ (0 <= m < 60)%Z
        /\ (3600 * h + 60 * m <= s < 3600 * h + 60 * m + 60)%Z
        /\ (h = 0%Z -> (1 <= m)%Z)
        /\ formatPlaytime seconds
           = if (h =? 0)%Z then number_text m ++ lit " " ++ minutes_word
             else number_text h ++ lit " " ++ hours_word ++ lit " "
                    ++ number_text m ++ lit " " ++ minutes_word).
Proof.
  destruct seconds as [s Hsafe]. unfold formatPlaytime. cbn [int_value]. split.
  - intros Hlt. by destruct (Z.ltb_spec s 60); [|lia].
  - intros Hge. destruct (Z.ltb_spec s 60) as [Hlt|_]; [lia|].
    exists (s / 3600)%Z, (Z.rem s 3600 / 60)%Z.
    rewrite Z.rem_mod_nonneg by lia.
    pose proof (Z.div_mod s 3600 ltac:(lia)) as Hs.
    pose proof (Z.mod_pos_bound s 3600 ltac:(lia)) as Hr.
    pose proof (Z.div_mod (s mod 3600) 60 ltac:(lia)) as Hm.
    pose proof (Z.mod_pos_bound (s mod 3600) 60 ltac:(lia)) as Hr'.
    assert (Hh : (0 <= s / 3600)%Z) by (apply Z.div_pos; lia).
    assert (Hm0 : (0 <= s mod 3600 / 60)%Z) by (apply Z.div_pos; lia).
    repeat split; lia.
Qed.

(** An hour, two minutes and five seconds. *)
Definition an_hour_and_more : SafeInteger.
Proof. refine {| int_value := 3725 |}. unfold MAX_SAFE_INTEGER. lia. Defined.

Example formatPlaytime_an_hour_and_more :
  formatPlaytime an_hour_and_more
  = lit "1 " ++ hours_word ++ lit " 2 " ++ minutes_word.
Proof. vm_compute. reflexivity. Qed.

End PlaytimeDisplay.

(** ** The play time over the sessions the application records *)

Section SessionEvents.
Import Database App.

Variable foreign_keys : bool.

(** The events the listener receives, each with the row identifier and
    the clock reading drawn for it, handled in order. *)
Definition handle_events (events : list (jsstring * jsstring * SessionEnded)) (d : Db) : Db :=
  foldl (fun d' ev => on_session_ended foreign_keys ev.1.1 ev.1.2 ev.2 d') d events.

Lemma on_session_ended_total id now (e : SessionEnded) (d : Db) gid (n : Z) :
  total_playtime gid d = Some (SqlInt n) ->
  exists n', total_playtime gid (on_session_ended foreign_keys id now e d) = Some (SqlInt n')
             /\ (n <= n')%Z
             /\ (n' = n \/ (p_game_id e = gid /\ n' = (n + p_duration e)%Z)).
Proof.
  intros Htotal. unfold on_session_ended.
  destruct (Z.ltb_spec 0 (p_duration e)) as [Hpos|_]; [|exists n; by auto with lia].
  unfold addPlaySession.
  destruct (bool_decide (id ∈ s_id <$> play_sessions d)
            || foreign_keys && bool_decide (games d !! p_game_id e = None));
    [exists n; by auto with lia|].
  cbn [games set_play_sessions].
  destruct (games d !! p_game_id e) as [row|] eqn:Hrow; [|exists n; by auto with lia].
  unfold total_playtime in *. cbn [games set_games set_play_sessions].
  destruct (decide (p_game_id e = gid)) as [Heq|Hne].
  - rewrite Heq in *. rewrite Hrow in Htotal. simpl in Htotal.
    rewrite lookup_insert_eq. simpl. rewrite lookup_insert_ne by done.
    rewrite lookup_insert_eq, Htotal. simpl.
    exists (n + p_duration e)%Z. split; [done|]. split; [lia|]. by right.
  - rewrite lookup_insert_ne by done. exists n. by auto with lia.
Qed.

Lemma on_session_ended_sessions id now (e : SessionEnded) (d : Db) :
  play_sessions d `prefix_of` play_sessions (on_session_ended foreign_keys id now e d).
Proof.
  unfold on_session_ended. destruct (0 <? p_duration e)%Z; [|done].
  unfold addPlaySession.
  destruct (bool_decide (id ∈ s_id <$> play_sessions d)
            || foreign_keys && bool_decide (games d !! p_game_id e = None)); [done|].
  cbn [games set_play_sessions]. destruct (games d !! p_game_id e);
    cbn [play_sessions set_games set_play_sessions]; by apply prefix_app_r.
Qed.

(** X29.  The play time of a game never goes down.  Whatever session
    events arrive, in whatever order, a game that has a total keeps one,
    and the total after the events is at least the total before; the
    session rows that were there stay, in place.  An event whose duration
    is not positive changes nothing at all. *)
Theorem playtime_never_decreases (events : list (jsstring * jsstring * SessionEnded))
    (d : Db) (gid : jsstring) (n : Z) :
  total_playtime gid d = Some (SqlInt n) ->
  (exists n', total_playtime gid (handle_events events d) = Some (SqlInt n') /\ (n <= n')%Z)
  /\ play_sessions d `prefix_of` play_sessions (handle_events events d)
  /\ (Forall (fun ev => (p_duration ev.2 <= 0)%Z) events -> handle_events events d = d).
Proof.
  unfold handle_events. revert d n. induction events as [|[[id now] e] events IH]; intros d n Htotal.
  - split; [exists n; split; [done|lia]|]. by split.
  - simpl. destruct (on_session_ended_total id now e d gid n Htotal) as (n1 & H1 & Hle & _).
    destruct (IH _ _ H1) as ((n' & Hn' & Hle') & Hpre & Hnone).
    split; [exists n'; split; [done|lia]|]. split.
    + etrans; [apply on_session_ended_sessions | exact Hpre].
    + intros Hall. apply Forall_cons in Hall as [He Hall]. simpl in He.
      assert (Hsame : on_session_ended foreign_keys id now e d = d).
      { unfold on_session_ended. by destruct (Z.ltb_spec 0 (p_duration e)); [lia|]. }
      rewrite Hsame in *. by apply Hnone.
Qed.

End SessionEvents.

Section SessionEventsExample.
Import Database App.

(** The one game, a session of an hour, and an event without duration. *)
Lemma playtime_never_decreases_witness :
  exists n', total_playtime (lit "g1")
               (handle_events true
                  [ (lit "s1", t1, {| p_game_id := lit "g1"; p_start_time := t0;
                                      p_end_time := t1; p_duration := 3600 |});
                    (lit "s2", t1, {| p_game_id := lit "g1"; p_start_time := t1;
                                      p_end_time := t1; p_duration := 0 |}) ]
                  one_game)
             = Some (SqlInt n')
            /\ (0 <= n')%Z.
Proof.
  apply (playtime_never_decreases true _ one_game (lit "g1") 0).
  reflexivity.
Defined.

End SessionEventsExample.
